(** * Product Highlighter: the retrieval and matching core

    A shallow embedding of the matching core of the Product Highlighter
    browser extension:

    - [ProductRAGSystem] (chunking, fallback embedding, cosine similarity,
      retrieval, deduplication, [generateWithRAG]);
    - [VectorProductSearch.cosineSimilarity];
    - the deterministic scorer of [ProductHighlighter]
      ([analyzeQuery], [checkCoreRequirements], [calculateMatchScore]);
    - the feedback statistics of [ProductHighlighterEvaluator]
      ([calculateAccuracy], [recordPerformanceMetric], [analyzeKeywords]);
    - the page side of [ProductHighlighter] (the highlight classes, the
      confidence estimate, the adjusted threshold, the keywords of a
      sentence, the filter for new products);
    - [VectorProductSearch.fallbackKeywordExtraction].

    JavaScript strings are sequences of UTF-16 code units, modelled as
    [list N].  Host built-ins whose full behaviour is outside the repository
    (Unicode [toLowerCase], regular expressions compiled from arbitrary user
    text, the optional sentence-embedding model, the IndexedDB stores) are
    Section variables.  Regular expressions written in the source are
    embedded as syntax trees and run by a backtracking matcher that follows
    the ECMAScript matching rules for the constructs the source uses. *)

From Stdlib Require Import String Ascii.
From Stdlib Require Import List Bool Arith PeanoNat NArith ZArith QArith Qminmax Lia.
From Stdlib Require Import Reals Qreals Lra Psatz Floats SpecFloat Uint63 Sorted Permutation.
Import ListNotations.


(* ================================================================== *)
(** * JavaScript strings *)
(* ================================================================== *)

Module JS.

(** A string is its sequence of UTF-16 code units. *)
Definition jsstring := list N.

(** Literals of the source, all of them ASCII, are written with [lit]. *)
Definition lit (s : string) : jsstring :=
  map N_of_ascii (list_ascii_of_string s).

Definition EURO : N := 8364.   (* U+20AC *)
Definition POUND : N := 163.   (* U+00A3 *)
Definition DOLLAR : N := 36.

Definition between (lo hi c : N) : bool := (lo <=? c)%N && (c <=? hi)%N.

Definition isDigit (c : N) : bool := between 48 57 c.
Definition isLower (c : N) : bool := between 97 122 c.
Definition isUpper (c : N) : bool := between 65 90 c.

(** [\w] without the unicode flag: [A-Za-z0-9_]. *)
Definition isWordChar (c : N) : bool :=
  isLower c || isUpper c || isDigit c || (c =? 95)%N.

(** [\s], which is also what [trim] strips: WhiteSpace and LineTerminator. *)
Definition isSpace (c : N) : bool :=
  between 9 13 c || (c =? 32)%N || (c =? 160)%N || (c =? 5760)%N
  || between 8192 8202 c || (c =? 8232)%N || (c =? 8233)%N
  || (c =? 8239)%N || (c =? 8287)%N || (c =? 12288)%N || (c =? 65279)%N.

(** Canonicalize of the [i] flag (no [u] flag), on the code units the
    patterns of the source contain: ASCII letters fold to upper case, and a
    code unit of 128 or more never folds to an ASCII one. *)
Definition upper (c : N) : N := if isLower c then (c - 32)%N else c.

Definition chrEq (ignoreCase : bool) (p c : N) : bool :=
  if ignoreCase then (upper p =? upper c)%N else (p =? c)%N.

Definition eqs (a b : jsstring) : bool :=
  if list_eq_dec N.eq_dec a b then true else false.

(** [s.substring(a, b)] for [a <= b]. *)
Definition substring (a b : nat) (s : jsstring) : jsstring :=
  firstn (b - a) (skipn a s).

(** [s.slice(0, -1)]. *)
Definition dropLast (s : jsstring) : jsstring := removelast s.

Fixpoint startsWith (p s : jsstring) : bool :=
  match p, s with
  | [], _ => true
  | _ :: _, [] => false
  | a :: p', b :: s' => (a =? b)%N && startsWith p' s'
  end.

(** [s.includes(p)]. *)
Fixpoint includes (s p : jsstring) : bool :=
  startsWith p s ||
  match s with
  | [] => false
  | _ :: s' => includes s' p
  end.

Fixpoint trimStart (s : jsstring) : jsstring :=
  match s with
  | c :: s' => if isSpace c then trimStart s' else s
  | [] => []
  end.

Definition trimEnd (s : jsstring) : jsstring := rev (trimStart (rev s)).

Definition trim (s : jsstring) : jsstring := trimEnd (trimStart s).

(** Truthiness of a string: non-empty. *)
Definition truthy (s : jsstring) : bool :=
  match s with [] => false | _ => true end.

(** [a || b] on strings. *)
Definition orElse (a b : jsstring) : jsstring := if truthy a then a else b.

(** ASCII-only lower-casing: what [toLowerCase] does on ASCII text.  Used to
    run the model on concrete ASCII inputs. *)
Definition asciiLower (s : jsstring) : jsstring :=
  map (fun c => if isUpper c then (c + 32)%N else c) s.

End JS.

Import JS.

(* ================================================================== *)
(** * Regular expressions of the source *)
(* ================================================================== *)

Module RegExp.

Inductive regex : Type :=
| Chr (c : N)                (* a literal code unit *)
| Cls (p : N -> bool)        (* a class: [\d], [\s], [\w], [[...]] *)
| Cat (r1 r2 : regex)
| Alt (r1 r2 : regex)
| Opt (r : regex)            (* [r?], greedy *)
| Star (r : regex)           (* [r*], greedy *)
| Grp (n : nat) (r : regex)  (* the n-th capturing group *)
| WordB                      (* [\b] *)
| Bol                        (* [^] *)
| Eol.                       (* [$] *)

Definition Plus (r : regex) : regex := Cat r (Star r).

(** A literal word, one code unit after the other. *)
Fixpoint Str (w : jsstring) : regex :=
  match w with
  | [] => Opt (Cls (fun _ => false))
  | [c] => Chr c
  | c :: w' => Cat (Chr c) (Str w')
  end.

Fixpoint Alts (rs : list regex) : regex :=
  match rs with
  | [] => Cls (fun _ => false)
  | [r] => r
  | r :: rs' => Alt r (Alts rs')
  end.

(** Captures: the most recent binding of a group comes first. *)
Definition caps := list (nat * jsstring).

Fixpoint capture (n : nat) (cs : caps) : option jsstring :=
  match cs with
  | [] => None
  | (m, v) :: cs' => if Nat.eqb m n then Some v else capture n cs'
  end.

Definition wordAt (s : jsstring) (i : nat) : bool :=
  match nth_error s i with
  | Some c => isWordChar c
  | None => false
  end.

Definition wordBefore (s : jsstring) (i : nat) : bool :=
  match i with
  | O => false
  | S j => wordAt s j
  end.

Definition result := (nat * caps)%type.

(** The backtracking matcher, in continuation-passing style as in the
    ECMAScript specification: [rmatch ic r s i cs k] matches [r] in [s] at
    position [i] and hands the end position and captures to [k]; greedy
    alternatives are tried first, and an iteration of [?] or [*] that
    consumes nothing is rejected. *)
Fixpoint rmatch (ic : bool) (r : regex) (s : jsstring) (i : nat) (cs : caps)
    (k : nat -> caps -> option result) {struct r} : option result :=
  match r with
  | Chr c =>
      match nth_error s i with
      | Some d => if chrEq ic c d then k (S i) cs else None
      | None => None
      end
  | Cls p =>
      match nth_error s i with
      | Some d => if p d then k (S i) cs else None
      | None => None
      end
  | Cat r1 r2 => rmatch ic r1 s i cs (fun j cs' => rmatch ic r2 s j cs' k)
  | Alt r1 r2 =>
      match rmatch ic r1 s i cs k with
      | Some x => Some x
      | None => rmatch ic r2 s i cs k
      end
  | Opt r1 =>
      match rmatch ic r1 s i cs (fun j cs' => if j <=? i then None else k j cs') with
      | Some x => Some x
      | None => k i cs
      end
  | Star r1 =>
      (fix loop (fuel : nat) (i : nat) (cs : caps) {struct fuel} : option result :=
         match fuel with
         | O => k i cs
         | S fuel' =>
             match rmatch ic r1 s i cs
                     (fun j cs' => if j <=? i then None else loop fuel' j cs') with
             | Some x => Some x
             | None => k i cs
             end
         end) (S (length s)) i cs
  | Grp n r1 => rmatch ic r1 s i cs (fun j cs' => k j ((n, substring i j s) :: cs'))
  | WordB => if xorb (wordBefore s i) (wordAt s i) then k i cs else None
  | Bol => if i =? 0 then k i cs else None
  | Eol => if i =? length s then k i cs else None
  end.

(** A match of [r] that starts exactly at [i]. *)
Definition matchAt (ic : bool) (r : regex) (s : jsstring) (i : nat) : option result :=
  rmatch ic r s i [] (fun j cs => Some (j, cs)).

(** One match: where it starts, where it ends, its captures. *)
Record rmatched : Type := mkMatch { mstart : nat; mend : nat; mcaps : caps }.

(** The leftmost match starting at [i], [i+1], ..., [i+n]. *)
Fixpoint search (ic : bool) (r : regex) (s : jsstring) (n i : nat) : option rmatched :=
  match matchAt ic r s i with
  | Some (j, cs) => Some (mkMatch i j cs)
  | None =>
      match n with
      | O => None
      | S n' => search ic r s n' (S i)
      end
  end.

(** [r.exec(s)] with [lastIndex = from]. *)
Definition exec (ic : bool) (r : regex) (s : jsstring) (from : nat) : option rmatched :=
  if length s <? from then None else search ic r s (length s - from) from.

(** [r.test(s)] for a regex without the [g] flag. *)
Definition test (ic : bool) (r : regex) (s : jsstring) : bool :=
  match exec ic r s 0 with Some _ => true | None => false end.

(** The loop [while ((match = r.exec(s)) !== null) ...] for a [g] regex whose
    matches are never empty: each match moves [lastIndex] to its end. *)
Fixpoint execAllFrom (fuel : nat) (ic : bool) (r : regex) (s : jsstring) (from : nat)
  : list rmatched :=
  match fuel with
  | O => []
  | S fuel' =>
      match exec ic r s from with
      | None => []
      | Some m => m :: execAllFrom fuel' ic r s (mend m)
      end
  end.

Definition execAll (ic : bool) (r : regex) (s : jsstring) : list rmatched :=
  execAllFrom (S (length s)) ic r s 0.

(** [s.replace(r, repl)] for a [g] regex and a replacement without [$]. *)
Fixpoint replaceFrom (fuel : nat) (ic : bool) (r : regex) (repl s : jsstring)
    (copied from : nat) : jsstring :=
  match fuel with
  | O => skipn copied s
  | S fuel' =>
      match exec ic r s from with
      | None => skipn copied s
      | Some m =>
          substring copied (mstart m) s ++ repl ++
          replaceFrom fuel' ic r repl s (mend m)
            (if mend m <=? mstart m then S (mend m) else mend m)
      end
  end.

Definition replaceAll (ic : bool) (r : regex) (repl s : jsstring) : jsstring :=
  replaceFrom (S (length s)) ic r repl s 0 0.

(** [s.replace(p, repl)] for a string pattern: the first occurrence only. *)
Fixpoint replaceFirstStr (p repl s : jsstring) : jsstring :=
  if startsWith p s then repl ++ skipn (length p) s
  else match s with
       | [] => []
       | c :: s' => c :: replaceFirstStr p repl s'
       end.

(** [s.split(r)]: the SplitMatcher loop of the specification. *)
Fixpoint splitLoop (fuel : nat) (ic : bool) (r : regex) (s : jsstring) (p q : nat)
  : list jsstring :=
  match fuel with
  | O => [skipn p s]
  | S fuel' =>
      if q <? length s then
        match matchAt ic r s q with
        | None => splitLoop fuel' ic r s p (S q)
        | Some (e, _) =>
            let e := Nat.min e (length s) in
            if e =? p then splitLoop fuel' ic r s p (S q)
            else substring p q s :: splitLoop fuel' ic r s e e
        end
      else [skipn p s]
  end.

Definition split (ic : bool) (r : regex) (s : jsstring) : list jsstring :=
  match s with
  | [] => match matchAt ic r s 0 with Some _ => [] | None => [[]] end
  | _ => splitLoop (S (length s)) ic r s 0 0
  end.

End RegExp.

Import RegExp.

(* ================================================================== *)
(** * The option monad: [None] is a thrown exception *)
(* ================================================================== *)

Module Throw.

Definition bind {A B : Type} (m : option A) (f : A -> option B) : option B :=
  match m with
  | Some a => f a
  | None => None
  end.

Declare Scope throw_scope.
Delimit Scope throw_scope with throw.

Notation "x <- m ;; k" := (bind m (fun x => k))
  (at level 61, m at next level, right associativity) : throw_scope.

Local Open Scope throw_scope.

(** [xs.filter(f)] when [f] can throw: every element is visited. *)
Fixpoint filterM {A : Type} (f : A -> option bool) (xs : list A) : option (list A) :=
  match xs with
  | [] => Some []
  | x :: xs' =>
      b <- f x ;;
      r <- filterM f xs' ;;
      Some (if b then x :: r else r)
  end.

(** [xs.some(f)] when [f] can throw: stops at the first [true]. *)
Fixpoint someM {A : Type} (f : A -> option bool) (xs : list A) : option bool :=
  match xs with
  | [] => Some false
  | x :: xs' =>
      b <- f x ;;
      if b then Some true else someM f xs'
  end.

(** [xs.forEach(x => acc = f(acc, x))] when [f] can throw. *)
Fixpoint foldM {A B : Type} (f : B -> A -> option B) (xs : list A) (acc : B) : option B :=
  match xs with
  | [] => Some acc
  | x :: xs' =>
      acc' <- f acc x ;;
      foldM f xs' acc'
  end.

End Throw.

Import Throw.

(* ================================================================== *)
(** * ProductHighlighter: the deterministic scorer (evaluator.js) *)
(* ================================================================== *)

Module Highlighter.

Local Open Scope string_scope.
Local Open Scope list_scope.
Local Open Scope Q_scope.
Local Open Scope throw_scope.

(** A compiled regular expression, seen through the two methods the scorer
    calls on it. *)
Record RegExpObj : Type := mkRegExp {
  re_test : jsstring -> bool;                    (* [r.test(s)] *)
  re_replaceAll : jsstring -> jsstring -> jsstring (* [s.replace(r, repl)], flag g *)
}.

(** Characters with no special meaning in a pattern source: ASCII other than
    [\ ^ $ . * + ? ( ) [ ] { } |]. *)
Definition isSyntaxChar (c : N) : bool :=
  existsb (N.eqb c) (lit "\^$.*+?()[]{}|").

Definition isPlainChar (c : N) : bool := (c <? 128)%N && negb (isSyntaxChar c).

Definition isPlain (w : jsstring) : bool := forallb isPlainChar w.

(** The pattern [\bW\b] for a plain word [W]. *)
Definition wordRe (w : jsstring) : regex := Cat WordB (Cat (Str w) WordB).

(** Numbers are exact rationals: every quantity of the scorer is a ratio of
    counts or a decimal constant, and the properties proved are order
    properties that rounding to doubles preserves. *)
Inductive ctype : Type := Max | Min.

Record PriceConstraint : Type := mkConstraint {
  pc_type : ctype;
  pc_value : Q;
  pc_currency : jsstring
}.

Record Attribute : Type := mkAttr { attr_type : jsstring; attr_value : jsstring }.

Inductive Criterion : Type :=
| CKeyword (k : jsstring)
| CColor (c : jsstring)
| CBrand (b : jsstring)
| CPrice (p : PriceConstraint)
| CAttribute (a : Attribute).

Record QueryAnalysis : Type := mkQA {
  coreQuery : jsstring;
  keywords : list jsstring;
  priceConstraints : list PriceConstraint;
  brands : list jsstring;
  categories : list jsstring;
  colors : list jsstring;
  attributes : list Attribute;
  requiredCriteria : list Criterion;
  hasPrice : bool;
  hasBrand : bool;
  hasColor : bool;
  hasAttributes : bool
}.

Record Scores : Type := mkScores {
  s_keyword : Q; s_exact : Q; s_semantic : Q; s_price : Q;
  s_brand : Q; s_category : Q; s_color : Q; s_attributes : Q
}.

Definition isEmpty {A : Type} (l : list A) : bool :=
  match l with [] => true | _ => false end.

(** [m / n] on counts. *)
Definition ratio (m n : nat) : Q := inject_Z (Z.of_nat m) / inject_Z (Z.of_nat n).

(** ** Reading numbers *)

Definition digitVal (c : N) : Z := Z.of_N (c - 48).

Fixpoint digitsVal (acc : Z) (ds : jsstring) : Z :=
  match ds with
  | [] => acc
  | d :: ds' => digitsVal (10 * acc + digitVal d) ds'
  end.

Fixpoint takeWhile (p : N -> bool) (s : jsstring) : jsstring :=
  match s with
  | c :: s' => if p c then c :: takeWhile p s' else []
  | [] => []
  end.

Fixpoint dropWhile (p : N -> bool) (s : jsstring) : jsstring :=
  match s with
  | c :: s' => if p c then dropWhile p s' else s
  | [] => []
  end.

(** A double, as the rational number it is.  [Infinity] is [2^1024] here:
    it lies above every finite double, and its place in the order is all
    that the scorer asks of a price. *)
Definition SF2Q (f : spec_float) : Q :=
  match f with
  | S754_finite s m e =>
      let q := match e with
               | Zneg p => Qmake (Zpos m) (Pos.shiftl 1 (Npos p))
               | _ => inject_Z (Zpos m * 2 ^ e)
               end in
      Qred (if s then Qopp q else q)
  | S754_infinity false => inject_Z (2 ^ 1024)
  | S754_infinity true => inject_Z (- 2 ^ 1024)
  | _ => 0
  end.

(** The Number value of the decimal [n / 10^k]: the double nearest to it,
    ties to even, which is what the correctly rounded division of [n] by
    [10^k] gives. *)
Definition nearestDouble (n : Z) (k : nat) : Q :=
  match n with
  | Zpos m =>
      SF2Q (SFdiv prec emax (S754_finite false m 0)
              (S754_finite false (Z.to_pos (10 ^ Z.of_nat k)) 0))
  | _ => 0
  end.

(** [parseFloat(s)] on the strings a capture group of the price patterns can
    hold: a currency mark (no number: NaN, here [None]) or digits with an
    optional fraction.  The longest prefix [digits] or [digits.digits] is
    read; a comma ends the number. *)
Definition parseFloat (s : jsstring) : option Q :=
  let s := trimStart s in
  let ip := takeWhile isDigit s in
  match ip with
  | [] => None
  | _ =>
      match dropWhile isDigit s with
      | 46%N :: rest =>
          let fp := takeWhile isDigit rest in
          Some (nearestDouble (digitsVal 0 (ip ++ fp)) (List.length fp))
      | _ => Some (nearestDouble (digitsVal 0 ip) 0)
      end
  end.

(** ** The patterns of [extractPriceConstraints] and [extractPricesFromText] *)

Definition isDotComma (c : N) : bool := (c =? 46)%N || (c =? 44)%N.

(** [\d+(?:[.,]\d+)?] *)
Definition numberRe : regex :=
  Cat (Plus (Cls isDigit)) (Opt (Cat (Cls isDotComma) (Plus (Cls isDigit)))).

(** [\€|\$|£] *)
Definition symbolRe : regex := Alts [Chr EURO; Chr DOLLAR; Chr POUND].

(** [\€|\$|£|usd|eur|gbp] *)
Definition currencyRe : regex :=
  Alts [Chr EURO; Chr DOLLAR; Chr POUND; Str (lit "usd"); Str (lit "eur"); Str (lit "gbp")].

Definition spaces : regex := Star (Cls isSpace).

(** [(?:under|below|less than|max|maximum)] *)
Definition maxWordsRe : regex :=
  Alts [Str (lit "under"); Str (lit "below"); Str (lit "less than");
        Str (lit "max"); Str (lit "maximum")].

(** [(?:above|over|more than|min|minimum)] *)
Definition minWordsRe : regex :=
  Alts [Str (lit "above"); Str (lit "over"); Str (lit "more than");
        Str (lit "min"); Str (lit "minimum")].

(** [(?:or less|max|maximum)] *)
Definition suffixRe : regex :=
  Alts [Str (lit "or less"); Str (lit "max"); Str (lit "maximum")].

(** [/(?:under|...)\s*(\€|\$|£|usd|eur|gbp)?\s*(\d+(?:[.,]\d+)?)/gi] *)
Definition pricePattern1 : regex :=
  Cat maxWordsRe (Cat spaces (Cat (Opt (Grp 1 currencyRe)) (Cat spaces (Grp 2 numberRe)))).

(** [/(?:above|...)\s*(\€|\$|£|usd|eur|gbp)?\s*(\d+(?:[.,]\d+)?)/gi] *)
Definition pricePattern2 : regex :=
  Cat minWordsRe (Cat spaces (Cat (Opt (Grp 1 currencyRe)) (Cat spaces (Grp 2 numberRe)))).

(** [/(\€|\$|£)\s*(\d+(?:[.,]\d+)?)\s*(?:or less|max|maximum)/gi] *)
Definition pricePattern3 : regex :=
  Cat (Grp 1 symbolRe) (Cat spaces (Cat (Grp 2 numberRe) (Cat spaces suffixRe))).

(** [/(\d+(?:[.,]\d+)?)\s*(\€|\$|£|usd|eur|gbp)\s*(?:or less|max|maximum)/gi] *)
Definition pricePattern4 : regex :=
  Cat (Grp 1 numberRe) (Cat spaces (Cat (Grp 2 currencyRe) (Cat spaces suffixRe))).

Definition pricePatterns : list regex :=
  [pricePattern1; pricePattern2; pricePattern3; pricePattern4].

(** [match[n]], with [undefined] read as the empty string: both are falsy,
    and that is all the source asks of them. *)
Definition group (n : nat) (m : rmatched) : jsstring :=
  match capture n (mcaps m) with Some v => v | None => [] end.

(** The type given to every constraint found in [prompt]. *)
Definition constraintType (prompt : jsstring) : ctype :=
  if includes prompt (lit "under") || includes prompt (lit "below")
     || includes prompt (lit "less") || includes prompt (lit "max")
  then Max else Min.

(** The body of the [while] loop, for one match. *)
Definition constraintOfMatch (prompt : jsstring) (m : rmatched) : list PriceConstraint :=
  match parseFloat (orElse (group 2 m) (group 1 m)) with
  | Some value =>
      [ mkConstraint (constraintType prompt) value
          (orElse (group 1 m) (orElse (group 2 m) [EURO])) ]
  | None => []
  end.

(** What one pattern contributes. *)
Definition constraintsOfPattern (pattern : regex) (prompt : jsstring) : list PriceConstraint :=
  flat_map (constraintOfMatch prompt) (execAll true pattern prompt).

Definition extractPriceConstraints (prompt : jsstring) : list PriceConstraint :=
  flat_map (fun pattern => constraintsOfPattern pattern prompt) pricePatterns.

(** [/(\€|\$|£)\s*(\d+(?:[.,]\d+)?)/g] and [/(\d+(?:[.,]\d+)?)\s*(\€|\$|£)/g] *)
Definition textPricePatterns : list regex :=
  [ Cat (Grp 1 symbolRe) (Cat spaces (Grp 2 numberRe));
    Cat (Grp 1 numberRe) (Cat spaces (Grp 2 symbolRe)) ].

Definition extractPricesFromText (text : jsstring) : list Q :=
  flat_map (fun pattern =>
    flat_map (fun m =>
      match parseFloat (replaceFirstStr (lit ",") (lit ".") (orElse (group 2 m) (group 1 m))) with
      | Some value => [value]
      | None => []
      end) (execAll false pattern text)) textPricePatterns.

Definition checkPriceConstraint (price : Q) (constraint : PriceConstraint) : bool :=
  match pc_type constraint with
  | Max => Qle_bool price (pc_value constraint)
  | Min => Qle_bool (pc_value constraint) price
  end.

(** ** Vocabularies *)

Definition commonBrands : list jsstring := map lit
  ["nike"; "adidas"; "apple"; "samsung"; "sony"; "microsoft"; "google";
   "amazon"; "hp"; "dell"; "lenovo"; "asus"; "acer"; "lg"; "philips";
   "bosch"; "siemens"; "whirlpool"; "dyson"; "bose"; "beats"; "jbl"].

Definition extractBrands (prompt : jsstring) : list jsstring :=
  filter (fun brand => includes prompt brand) commonBrands.

Definition categoryTable : list (jsstring * list jsstring) :=
  [ (lit "electronics", map lit ["phone"; "laptop"; "tablet"; "computer"; "headphones"; "speaker"; "tv"; "monitor"]);
    (lit "clothing", map lit ["sneakers"; "shoes"; "shirt"; "pants"; "dress"; "jacket"; "hat"; "clothing"]);
    (lit "home", map lit ["furniture"; "lamp"; "table"; "chair"; "bed"; "sofa"; "kitchen"]);
    (lit "sports", map lit ["fitness"; "gym"; "running"; "basketball"; "football"; "tennis"]) ].

Definition extractCategories (prompt : jsstring) : list jsstring :=
  flat_map (fun '(category, words) =>
    if existsb (fun word => includes prompt word) words then [category] else [])
    categoryTable.

Definition colorVocabulary : list jsstring := map lit
  ["white"; "black"; "red"; "blue"; "green"; "yellow"; "orange"; "purple"; "pink"; "brown";
   "gray"; "grey"; "silver"; "gold"; "beige"; "navy"; "turquoise"; "lime"; "maroon"; "olive"].

Definition extractColors (prompt : jsstring) : list jsstring :=
  filter (fun color => test true (wordRe color) prompt) colorVocabulary.

Definition attributeTable : list (jsstring * list jsstring) :=
  [ (lit "size", map lit ["small"; "medium"; "large"; "xl"; "xxl"; "xs"; "size"]);
    (lit "material", map lit ["cotton"; "leather"; "wool"; "silk"; "polyester"; "denim"; "canvas"]);
    (lit "style", map lit ["casual"; "formal"; "sporty"; "vintage"; "modern"; "classic"]);
    (lit "features", map lit ["waterproof"; "wireless"; "bluetooth"; "rechargeable"; "portable"; "lightweight"]) ].

Definition extractAttributes (prompt : jsstring) : list Attribute :=
  flat_map (fun '(type, words) =>
    flat_map (fun word => if includes prompt word then [mkAttr type word] else []) words)
    attributeTable.

Definition identifyRequiredCriteria (keywords colors : list jsstring)
    (attributes : list Attribute) (brands : list jsstring)
    (priceConstraints : list PriceConstraint) : list Criterion :=
  map CKeyword keywords ++ map CColor colors ++ map CBrand brands
  ++ map CPrice priceConstraints ++ map CAttribute attributes.

(** ** The scorer proper

    The host supplies what the repository does not define: Unicode
    lower-casing, the regular expressions compiled from words that contain
    pattern syntax or non-ASCII letters ([None]: the constructor throws a
    SyntaxError), and the allowlist loaded from the extension's settings. *)

Section Scorer.

Variable toLowerCase : jsstring -> jsstring.
Variable hostRegExp : jsstring -> option RegExpObj.
Variable highPerformingKeywords : list jsstring.

(** [new RegExp(`\\b${w}\\b`, flags)], flags [i] or [gi]. *)
Definition newWordRegExp (w : jsstring) : option RegExpObj :=
  if isPlain w
  then Some (mkRegExp (test true (wordRe w)) (replaceAll true (wordRe w)))
  else hostRegExp w.

(** [new RegExp(`\\b${w}\\b`, 'i').test(text)] *)
Definition wordTest (w text : jsstring) : option bool :=
  re <- newWordRegExp w ;;
  Some (re_test re text).

(** [cleaned.replace(new RegExp(`\\b${w}\\b`, 'gi'), '')] *)
Definition removeWord (cleaned w : jsstring) : option jsstring :=
  re <- newWordRegExp w ;;
  Some (re_replaceAll re [] cleaned).

Definition isCurrencySymbol (c : N) : bool :=
  (c =? EURO)%N || (c =? DOLLAR)%N || (c =? POUND)%N.

Definition priceWords : list jsstring := map lit
  ["under"; "below"; "less than"; "max"; "maximum"; "above"; "over"; "more than";
   "min"; "minimum"; "cost"; "price"; "budget"; "cheap"; "expensive"].

Definition filterWords : list jsstring := map lit
  ["that"; "in"; "with"; "for"; "or"; "and"; "the"; "a"; "an"].

Definition cleanQuery (prompt : jsstring) (priceConstraints : list PriceConstraint)
    (brands colors : list jsstring) (attributes : list Attribute) : option jsstring :=
  cleaned <- foldM removeWord priceWords prompt ;;
  (* /[€$£]\s*\d+(?:[.,]\d+)?/g and /\d+(?:[.,]\d+)?\s*[€$£]/g *)
  let cleaned := replaceAll false (Cat (Cls isCurrencySymbol) (Cat spaces numberRe)) [] cleaned in
  let cleaned := replaceAll false (Cat numberRe (Cat spaces (Cls isCurrencySymbol))) [] cleaned in
  cleaned <- foldM removeWord brands cleaned ;;
  cleaned <- foldM removeWord colors cleaned ;;
  cleaned <- foldM removeWord (map attr_value attributes) cleaned ;;
  cleaned <- foldM removeWord filterWords cleaned ;;
  Some (trim cleaned).

(** [/^\d+$/.test(word)] *)
Definition allDigits (word : jsstring) : bool :=
  test false (Cat Bol (Cat (Plus (Cls isDigit)) Eol)) word.

Definition longerThan2 (word : jsstring) : bool := (2 <? List.length word)%nat.

Definition extractMeaningfulKeywords (cleanedQuery : jsstring) : list jsstring :=
  filter (fun word => negb (allDigits word))
    (filter longerThan2 (split false (Plus (Cls isSpace)) cleanedQuery)).

Definition analyzeQuery (userPrompt : jsstring) : option QueryAnalysis :=
  let prompt := toLowerCase userPrompt in
  let priceConstraints := extractPriceConstraints prompt in
  let brands := extractBrands prompt in
  let categories := extractCategories prompt in
  let colors := extractColors prompt in
  let attributes := extractAttributes prompt in
  cleanedQuery <- cleanQuery prompt priceConstraints brands colors attributes ;;
  let keywords := extractMeaningfulKeywords cleanedQuery in
  Some (mkQA cleanedQuery keywords priceConstraints brands categories colors attributes
          (identifyRequiredCriteria keywords colors attributes brands priceConstraints)
          (negb (isEmpty priceConstraints)) (negb (isEmpty brands))
          (negb (isEmpty colors)) (negb (isEmpty attributes))).

Definition calculateKeywordScore (productText : jsstring) (keywords : list jsstring) : Q :=
  if isEmpty keywords then 0
  else ratio (List.length (filter (fun keyword => includes productText keyword) keywords))
             (List.length keywords).

Definition calculateExactScore (productText : jsstring) (keywords : list jsstring) : option Q :=
  if isEmpty keywords then Some 0
  else
    exactMatches <- filterM (fun keyword => wordTest keyword productText) keywords ;;
    Some (ratio (List.length exactMatches) (List.length keywords)).

(** Some extracted price meets every constraint. *)
Definition somePriceMatches (prices : list Q) (priceConstraints : list PriceConstraint) : bool :=
  existsb (fun price => forallb (checkPriceConstraint price) priceConstraints) prices.

Definition calculatePriceScore (productText : jsstring)
    (priceConstraints : list PriceConstraint) : Q :=
  if isEmpty priceConstraints then 1
  else
    let prices := extractPricesFromText productText in
    if isEmpty prices then 1 # 2
    else if somePriceMatches prices priceConstraints then 1 else 0.

Definition calculateBrandScore (productText : jsstring) (brands : list jsstring) : Q :=
  if isEmpty brands then 1
  else ratio (List.length (filter (fun brand => includes productText brand) brands))
             (List.length brands).

Definition calculateCategoryScore (productText : jsstring) (categories : list jsstring) : Q :=
  if isEmpty categories then 1 else 1.

Definition calculateColorScore (productText : jsstring) (colors : list jsstring) : option Q :=
  if isEmpty colors then Some 1
  else
    matchingColors <- filterM (fun color => wordTest color productText) colors ;;
    Some (ratio (List.length matchingColors) (List.length colors)).

Definition calculateAttributeScore (productText : jsstring)
    (attributes : list Attribute) : option Q :=
  if isEmpty attributes then Some 1
  else
    matchingAttributes <- filterM (fun attr => wordTest (attr_value attr) productText) attributes ;;
    Some (ratio (List.length matchingAttributes) (List.length attributes)).

(** [text.toLowerCase().split(/\W+/).filter(w => w.length > 2)] *)
Definition contentWords (text : jsstring) : list jsstring :=
  filter longerThan2
    (split false (Plus (Cls (fun c => negb (isWordChar c)))) (toLowerCase text)).

(** [arr.includes(w)] on an array of strings. *)
Definition member (w : jsstring) (arr : list jsstring) : bool := existsb (eqs w) arr.

(** [new Set(arr).size] *)
Definition distinctCount (arr : list jsstring) : nat :=
  List.length (nodup (list_eq_dec N.eq_dec) arr).

Definition calculateSemanticSimilarity (text1 text2 : jsstring) : Q :=
  let words1 := contentWords text1 in
  let words2 := contentWords text2 in
  let commonWords := filter (fun word => member word words2) words1 in
  let totalWords := distinctCount (words1 ++ words2) in
  ratio (List.length commonWords) (Nat.max totalWords 1).

Definition getAdaptiveWeights (queryAnalysis : QueryAnalysis) : Scores :=
  let w := mkScores (25 # 100) (2 # 10) (15 # 100) (5 # 100) (5 # 100) (5 # 100) (15 # 100) (1 # 10) in
  let w := if hasPrice queryAnalysis
           then mkScores (2 # 10) (s_exact w) (s_semantic w) (15 # 100) (s_brand w)
                         (s_category w) (s_color w) (s_attributes w)
           else w in
  let w := if hasBrand queryAnalysis
           then mkScores (2 # 10) (s_exact w) (s_semantic w) (s_price w) (15 # 100)
                         (s_category w) (s_color w) (s_attributes w)
           else w in
  let w := if hasColor queryAnalysis
           then mkScores (2 # 10) (s_exact w) (s_semantic w) (s_price w) (s_brand w)
                         (s_category w) (2 # 10) (s_attributes w)
           else w in
  let w := if hasAttributes queryAnalysis
           then mkScores (2 # 10) (s_exact w) (s_semantic w) (s_price w) (s_brand w)
                         (s_category w) (s_color w) (15 # 100)
           else w in
  w.

(** [Object.entries(weights)], in insertion order, each with its score. *)
Definition entries (scores weights : Scores) : list (Q * Q) :=
  [ (s_keyword scores, s_keyword weights); (s_exact scores, s_exact weights);
    (s_semantic scores, s_semantic weights); (s_price scores, s_price weights);
    (s_brand scores, s_brand weights); (s_category scores, s_category weights);
    (s_color scores, s_color weights); (s_attributes scores, s_attributes weights) ].

Definition combineScores (scores weights : Scores) : Q :=
  fold_left (fun total '(score, weight) => total + score * weight) (entries scores weights) 0.

Definition calculateHighPerformingBoost (keywords : list jsstring) : Q :=
  inject_Z (Z.of_nat (List.length
     (filter (fun keyword => member keyword highPerformingKeywords) keywords))) * (5 # 100).

(** A keyword counts when the text has it, its plural or its singular. *)
Definition keywordMatches (productLower keyword : jsstring) : bool :=
  includes productLower keyword
  || includes productLower (keyword ++ lit "s")
  || includes productLower (dropLast keyword)
  || (eqs keyword (lit "sneakers") && includes productLower (lit "sneaker"))
  || (eqs keyword (lit "sneaker") && includes productLower (lit "sneakers")).

(** [Math.max(1, Math.ceil(n * 0.5))] *)
Definition keywordThreshold (n : nat) : nat := Nat.max 1 ((n + 1) / 2)%nat.

Definition checkCoreRequirements (productText : jsstring)
    (queryAnalysis : QueryAnalysis) : option bool :=
  let productLower := toLowerCase productText in
  (* 1. keywords *)
  if negb (isEmpty (keywords queryAnalysis))
     && (List.length (filter (keywordMatches productLower) (keywords queryAnalysis))
         <? keywordThreshold (List.length (keywords queryAnalysis)))%nat
  then Some false
  else
  (* 2. colors *)
  colorMatches <-
    (if isEmpty (colors queryAnalysis) then Some true
     else someM (fun color => wordTest color productText) (colors queryAnalysis)) ;;
  if negb colorMatches then Some false
  else
  (* 3. brands *)
  brandMatches <-
    (if isEmpty (brands queryAnalysis) then Some true
     else someM (fun brand => wordTest brand productText) (brands queryAnalysis)) ;;
  if negb brandMatches then Some false
  else
  (* 4. prices *)
  if negb (isEmpty (priceConstraints queryAnalysis)) then
    let prices := extractPricesFromText productText in
    if isEmpty prices then Some true
    else if negb (somePriceMatches prices (priceConstraints queryAnalysis)) then Some false
    else Some true
  else Some true.

Record CriteriaCheck : Type := mkCheck {
  allRequired : bool;
  missing : list jsstring;
  satisfied : Z
}.

(** The entries one list of words adds to [missing]. *)
Definition missingWords (label : string) (productText : jsstring) (ws : list jsstring)
  : option (list jsstring) :=
  absent <- filterM (fun w => b <- wordTest w productText ;; Some (negb b)) ws ;;
  Some (map (fun w => lit label ++ w) absent).

Definition checkAllRequiredCriteria (productText : jsstring)
    (queryAnalysis : QueryAnalysis) : option CriteriaCheck :=
  let productLower := toLowerCase productText in
  let missingKeywords :=
    map (fun keyword => lit "keyword:" ++ keyword)
      (filter (fun keyword => negb (includes productLower keyword)) (keywords queryAnalysis)) in
  missingColors <- missingWords "color:" productText (colors queryAnalysis) ;;
  missingBrands <- missingWords "brand:" productText (brands queryAnalysis) ;;
  let missingPrice :=
    if negb (isEmpty (priceConstraints queryAnalysis)) then
      let prices := extractPricesFromText productText in
      if isEmpty prices then [lit "price:no_price_found"]
      else if negb (somePriceMatches prices (priceConstraints queryAnalysis))
           then [lit "price:constraint_not_met"] else []
    else [] in
  missingAttributes <- missingWords "attribute:" productText
                         (map attr_value (attributes queryAnalysis)) ;;
  let missing := missingKeywords ++ missingColors ++ missingBrands
                 ++ missingPrice ++ missingAttributes in
  Some (mkCheck (isEmpty missing) missing
          (Z.of_nat (List.length (keywords queryAnalysis) + List.length (colors queryAnalysis)
                     + List.length (brands queryAnalysis)
                     + List.length (attributes queryAnalysis))%nat
           - Z.of_nat (List.length missing))%Z).

(** The eight sub-scores, evaluated in the order of the object literal. *)
Definition subScores (productText : jsstring) (queryAnalysis : QueryAnalysis) : option Scores :=
  let productLower := toLowerCase productText in
  let keyword := calculateKeywordScore productLower (keywords queryAnalysis) in
  exact <- calculateExactScore productLower (keywords queryAnalysis) ;;
  let semantic := calculateSemanticSimilarity productText (coreQuery queryAnalysis) in
  let price := calculatePriceScore productText (priceConstraints queryAnalysis) in
  let brand := calculateBrandScore productLower (brands queryAnalysis) in
  let category := calculateCategoryScore productLower (categories queryAnalysis) in
  color <- calculateColorScore productLower (colors queryAnalysis) ;;
  attributes <- calculateAttributeScore productLower (attributes queryAnalysis) ;;
  Some (mkScores keyword exact semantic price brand category color attributes).

(** The simple matching used when no criterion was extracted. *)
Definition simpleMatch (productLower userPrompt : jsstring) : Q :=
  let promptWords :=
    filter longerThan2 (split false (Plus (Cls isSpace)) (toLowerCase userPrompt)) in
  let matches := List.length (filter (fun word => includes productLower word) promptWords) in
  let simpleScore := ratio matches (Nat.max (List.length promptWords) 1) in
  if Qlt_le_dec (1 # 2) simpleScore then simpleScore else 0.

(** The body of the [try] block of [calculateMatchScore]. *)
Definition calculateMatchScore_try (productText userPrompt : jsstring) : option Q :=
  queryAnalysis <- analyzeQuery userPrompt ;;
  let productLower := toLowerCase productText in
  criteriaSatisfied <- checkAllRequiredCriteria productText queryAnalysis ;;
  if isEmpty (keywords queryAnalysis) && isEmpty (colors queryAnalysis)
     && isEmpty (brands queryAnalysis) && isEmpty (priceConstraints queryAnalysis)
  then Some (simpleMatch productLower userPrompt)
  else
    ok <- checkCoreRequirements productText queryAnalysis ;;
    if negb ok then Some 0
    else
      scores <- subScores productText queryAnalysis ;;
      let weights := getAdaptiveWeights queryAnalysis in
      let baseScore := combineScores scores weights in
      let highPerformingBoost := calculateHighPerformingBoost (keywords queryAnalysis) in
      Some (Qmin (baseScore + highPerformingBoost) 1).

(** [calculateMatchScore]: the [catch] clause turns every exception into 0. *)
Definition calculateMatchScore (productText userPrompt : jsstring) : Q :=
  match calculateMatchScore_try productText userPrompt with
  | Some score => score
  | None => 0
  end.

End Scorer.

End Highlighter.

(* ================================================================== *)
(** * JavaScript numbers *)
(* ================================================================== *)

(** The retrieval code computes with IEEE 754 doubles and stores embeddings
    in a [Float32Array].  Its functions are written once, over the
    operations they use, and the operations are supplied twice: [Exact] is
    arithmetic on the real numbers, in which the algebraic laws hold;
    [Double] is the arithmetic the engine performs, bit for bit. *)

Module Num.

Record Ops : Type := mkOps {
  num : Type;
  ofQ : Q -> num;              (* a decimal literal or a loop counter *)
  add : num -> num -> num;
  sub : num -> num -> num;
  mul : num -> num -> num;
  div : num -> num -> num;
  sqrt : num -> num;           (* [Math.sqrt] *)
  max : num -> num -> num;     (* [Math.max] *)
  gtb : num -> num -> bool;    (* [a > b] *)
  isZero : num -> bool;        (* [a === 0] *)
  f32 : num -> num             (* a store into a [Float32Array] *)
}.

(** Exact arithmetic: no rounding anywhere. *)
Definition Exact : Ops :=
  {| num := R;
     ofQ := Q2R;
     add := Rplus;
     sub := Rminus;
     mul := Rmult;
     div := Rdiv;
     sqrt := R_sqrt.sqrt;
     max := Rmax;
     gtb := fun a b => if Rlt_dec b a then true else false;
     isZero := fun a => if Req_dec_T a 0%R then true else false;
     f32 := fun a => a |}.

(** Rounding of a double to the nearest binary32 value, ties to even. *)
Definition fround (x : float) : float :=
  match Prim2SF x with
  | S754_finite s m e =>
      SF2Prim (binary_normalize 24 128 (if s then Zneg m else Zpos m) e s)
  | _ => x
  end.

Definition floatOfZ (z : Z) : float :=
  match z with
  | Zneg p => PrimFloat.opp (PrimFloat.of_uint63 (Uint63.of_Z (Zpos p)))
  | _ => PrimFloat.of_uint63 (Uint63.of_Z z)
  end.

(** [Math.max]: NaN if either is NaN, and [+0] above [-0]. *)
Definition floatMax (a b : float) : float :=
  if PrimFloat.is_nan a || PrimFloat.is_nan b then PrimFloat.nan
  else if PrimFloat.ltb a b then b
  else if PrimFloat.ltb b a then a
  else if PrimFloat.is_zero a then PrimFloat.add a b
  else a.

(** IEEE 754 binary64, as the engine computes.  A decimal literal denotes
    the double nearest to it, which is what the division of its numerator
    by its denominator rounds to. *)
Definition Double : Ops :=
  {| num := float;
     ofQ := fun q => PrimFloat.div (floatOfZ (Qnum q)) (floatOfZ (Zpos (Qden q)));
     add := PrimFloat.add;
     sub := PrimFloat.sub;
     mul := PrimFloat.mul;
     div := PrimFloat.div;
     sqrt := PrimFloat.sqrt;
     max := floatMax;
     gtb := fun a b => PrimFloat.ltb b a;
     isZero := fun a => PrimFloat.eqb a PrimFloat.zero;
     f32 := fround |}.

End Num.

(* ================================================================== *)
(** * ProductRAGSystem and VectorProductSearch *)
(* ================================================================== *)

Module RAG.

Local Open Scope string_scope.
Local Open Scope list_scope.
Local Open Scope nat_scope.

Declare Scope num_scope.
Delimit Scope num_scope with num.

(** [value & value]: ToInt32. *)
Definition toInt32 (z : Z) : Z := ((z + 2147483648) mod 4294967296 - 2147483648)%Z.

(** [hashWord], on 32-bit integers; the result is [Math.abs(hash)]. *)
Definition hashStep (hash : Z) (charCode : N) : Z :=
  toInt32 (toInt32 (hash * 32) - hash + Z.of_N charCode)%Z.

Definition hashWord (word : jsstring) : Z := Z.abs (fold_left hashStep word 0%Z).

(** [arr[i] = v] on a typed array: a write past the end is ignored. *)
Fixpoint setAt {A : Type} (i : nat) (v : A) (arr : list A) : list A :=
  match arr, i with
  | [], _ => []
  | _ :: rest, O => v :: rest
  | a :: rest, S j => a :: setAt j v rest
  end.

(** [s.join(sep)] *)
Fixpoint join (sep : jsstring) (parts : list jsstring) : jsstring :=
  match parts with
  | [] => []
  | [p] => p
  | p :: rest => p ++ sep ++ join sep rest
  end.

(** Decimal digits of a count, as [String(n)] prints them. *)
Fixpoint uintDigits (d : Decimal.uint) : jsstring :=
  match d with
  | Decimal.Nil => []
  | Decimal.D0 d' => 48%N :: uintDigits d'
  | Decimal.D1 d' => 49%N :: uintDigits d'
  | Decimal.D2 d' => 50%N :: uintDigits d'
  | Decimal.D3 d' => 51%N :: uintDigits d'
  | Decimal.D4 d' => 52%N :: uintDigits d'
  | Decimal.D5 d' => 53%N :: uintDigits d'
  | Decimal.D6 d' => 54%N :: uintDigits d'
  | Decimal.D7 d' => 55%N :: uintDigits d'
  | Decimal.D8 d' => 56%N :: uintDigits d'
  | Decimal.D9 d' => 57%N :: uintDigits d'
  end.

Definition natToString (n : nat) : jsstring := uintDigits (Nat.to_uint n).

(** [arr.sort(compare)], as the stable sort the language requires for a
    comparator that is consistent on the array: [after a b] is
    [compare(a, b) > 0], "a goes after b".  For a comparator that is not
    consistent, as [b.similarity - a.similarity] is among NaN similarities,
    the language leaves the order to the engine; what is proved of the
    order of a sorted array is proved for consistent comparators. *)
Fixpoint insertSorted {A : Type} (after : A -> A -> bool) (x : A) (l : list A) : list A :=
  match l with
  | [] => [x]
  | y :: l' => if after x y then y :: insertSorted after x l' else x :: l
  end.

Definition sortBy {A : Type} (after : A -> A -> bool) (l : list A) : list A :=
  fold_right (insertSorted after) [] l.

Inductive ChunkType : Type := title_brand | attributes | description.

(** The context built for one captured product. *)
Record ProductContext : Type := mkContext {
  title : jsstring;
  brand : jsstring;
  price : jsstring;
  cdescription : jsstring;
  productType : jsstring;
  colors : list jsstring;
  materials : list jsstring;
  style : list jsstring;
  gender : jsstring;
  fullText : jsstring
}.

Inductive ChunkMeta : Type :=
| MetaTitleBrand (brand title productType : jsstring)
| MetaAttributes (colors materials style : list jsstring) (productType gender : jsstring)
| MetaDescription.

(** The constants set by the constructor. *)
Definition chunkSize : nat := 200.
Definition maxRetrievedChunks : nat := 100.

(** [Math.floor(chunkSize * 0.2)]: a fifth, rounded down. *)
Definition overlapOf (chunkSize : nat) : nat := chunkSize / 5.

(** The [for] loop of [splitIntoChunks], from index [i] on. *)
Fixpoint splitFrom (fuel : nat) (text : jsstring) (chunkSize overlap i : nat)
  : list jsstring :=
  match fuel with
  | O => []
  | S fuel' =>
      if i <? List.length text then
        let chunk := substring i (i + chunkSize) text in
        (if truthy (trim chunk) then [trim chunk] else [])
        ++ splitFrom fuel' text chunkSize overlap (i + (chunkSize - overlap))
      else []
  end.

(** [splitIntoChunks(text, chunkSize)].  The index grows by
    [chunkSize - overlap], at least 1 for every [chunkSize >= 1], so
    [text.length] rounds are enough. *)
Definition splitIntoChunks (text : jsstring) (chunkSize : nat) : list jsstring :=
  splitFrom (List.length text) text chunkSize (overlapOf chunkSize) 0.

(** ** Attribute extraction of [createProductContext] *)

Record RawProduct : Type := mkProduct {
  p_title : jsstring;
  p_brand : jsstring;
  p_price : jsstring;
  p_description : jsstring;
  p_text : jsstring
}.

(** ** Exceptions and rejected promises *)

Record Error : Type := mkError { message : jsstring }.

Inductive outcome (A : Type) : Type :=
| Ok (a : A)
| Throw (e : Error).

Arguments Ok {A} a.
Arguments Throw {A} e.

Definition obind {A B : Type} (m : outcome A) (f : A -> outcome B) : outcome B :=
  match m with
  | Ok a => f a
  | Throw e => Throw e
  end.

Declare Scope outcome_scope.
Delimit Scope outcome_scope with outcome.

Notation "x <-- m ;; k" := (obind m (fun x => k))
  (at level 61, m at next level, right associativity) : outcome_scope.

(** A [for ... of] loop with an [await] that can reject in its body. *)
Fixpoint forM {A B : Type} (f : B -> A -> outcome B) (xs : list A) (acc : B) : outcome B :=
  match xs with
  | [] => Ok acc
  | x :: xs' => obind (f acc x) (forM f xs')
  end.

(** ** Objects used as maps, and [Map] *)

(** A string that is an array index: canonical decimal, below [2^32 - 1]. *)
Definition isArrayIndex (key : jsstring) : bool :=
  match key with
  | [] => false
  | [48%N] => true
  | 48%N :: _ => false
  | _ => forallb isDigit key
         && (Highlighter.digitsVal 0 key <? 4294967295)%Z
  end.

(** [Object.entries(obj)]: array-index keys by ascending value first, then
    the other keys in the order they were added. *)
Definition objectEntries {V : Type} (obj : list (jsstring * V)) : list (jsstring * V) :=
  sortBy (fun a b => (Highlighter.digitsVal 0 (fst b) <? Highlighter.digitsVal 0 (fst a))%Z)
         (filter (fun kv => isArrayIndex (fst kv)) obj)
  ++ filter (fun kv => negb (isArrayIndex (fst kv))) obj.

Fixpoint lookup {V : Type} (key : jsstring) (m : list (jsstring * V)) : option V :=
  match m with
  | [] => None
  | (k, v) :: m' => if eqs k key then Some v else lookup key m'
  end.

(** [m.set(key, v)] and [obj[key] = v]: an existing key keeps its place, a
    new one goes last. *)
Fixpoint assign {V : Type} (key : jsstring) (v : V) (m : list (jsstring * V))
  : list (jsstring * V) :=
  match m with
  | [] => [(key, v)]
  | (k, w) :: m' => if eqs k key then (k, v) :: m' else (k, w) :: assign key v m'
  end.

Record ElementInfo : Type := mkElementInfo {
  tag : option jsstring;
  classes : option jsstring;
  index : option Z
}.

Record ProductMeta : Type := mkMeta {
  m_productId : jsstring;
  m_title : option jsstring;
  m_brand : option jsstring;
  m_price : option jsstring;
  m_link : option jsstring;
  m_image : option jsstring;
  m_elementInfo : ElementInfo
}.

(** [\s+] and [[^\w\s-]] *)
Definition whitespaceRun : regex := Plus (Cls isSpace).
Definition notWordSpaceDash : regex :=
  Cls (fun c => negb (isWordChar c || isSpace c || (c =? 45)%N)).

Section System.

Variable ops : Num.Ops.
Local Abbreviation num := (Num.num ops).
Variable toLowerCase : jsstring -> jsstring.

(** [this.model]: absent, or a function that returns a vector or throws. *)
Variable model : option (jsstring -> option (list num)).

Local Notation "a + b" := (Num.add ops a b) : num_scope.
Local Notation "a - b" := (Num.sub ops a b) : num_scope.
Local Notation "a * b" := (Num.mul ops a b) : num_scope.
Local Notation "a / b" := (Num.div ops a b) : num_scope.

Definition zero : num := Num.ofQ ops 0.
Definition similarityThreshold : num := Num.ofQ ops (1 # 10).

Definition extractProductType (text : jsstring) : jsstring :=
  let lowerText := toLowerCase text in
  match filter (fun type => includes lowerText type)
          (map lit ["sneaker"; "shoe"; "boot"; "sandal"; "heel"; "flat"; "trainer";
                    "runner"; "dress"; "shirt"; "pant"; "jacket"; "coat"]) with
  | type :: _ => type
  | [] => lit "unknown"
  end.

Definition extractColors (text : jsstring) : list jsstring :=
  let lowerText := toLowerCase text in
  filter (fun color => includes lowerText color)
    (map lit ["white"; "black"; "red"; "blue"; "green"; "yellow"; "pink"; "purple";
              "orange"; "brown"; "grey"; "gray"; "beige"; "navy"]).

Definition extractMaterials (text : jsstring) : list jsstring :=
  let lowerText := toLowerCase text in
  filter (fun material => includes lowerText material)
    (map lit ["leather"; "cotton"; "denim"; "wool"; "silk"; "canvas"; "suede"; "mesh"]).

Definition extractStyle (text : jsstring) : list jsstring :=
  let lowerText := toLowerCase text in
  filter (fun style => includes lowerText style)
    (map lit ["casual"; "formal"; "sport"; "athletic"; "vintage"; "classic"; "modern"]).

Definition extractGender (text : jsstring) : jsstring :=
  let lowerText := toLowerCase text in
  if includes lowerText (lit "women") || includes lowerText (lit "female") then lit "women"
  else if includes lowerText (lit "men") || includes lowerText (lit "male") then lit "men"
  else lit "unisex".

Definition createProductContext (product : RawProduct) : ProductContext :=
  mkContext (p_title product) (p_brand product) (p_price product) (p_description product)
    (extractProductType (p_text product)) (extractColors (p_text product))
    (extractMaterials (p_text product)) (extractStyle (p_text product))
    (extractGender (p_text product)) (p_text product).

(** ** Cosine similarity *)

(** The loop of [cosineSimilarity] over [i < Math.min(vec1.length,
    vec2.length)], carrying [dotProduct], [norm1] and [norm2]. *)
Fixpoint cosineLoop (vec1 vec2 : list num) (acc : num * num * num) : num * num * num :=
  match vec1, vec2 with
  | a :: vec1', b :: vec2' =>
      let '(dotProduct, norm1, norm2) := acc in
      cosineLoop vec1' vec2' ((dotProduct + a * b)%num, (norm1 + a * a)%num, (norm2 + b * b)%num)
  | _, _ => acc
  end.

Definition cosineOfSums (acc : num * num * num) : num :=
  let '(dotProduct, norm1, norm2) := acc in
  let norm1 := Num.sqrt ops norm1 in
  let norm2 := Num.sqrt ops norm2 in
  if Num.isZero ops norm1 || Num.isZero ops norm2 then zero
  else (dotProduct / (norm1 * norm2))%num.

(** [ProductRAGSystem.cosineSimilarity] *)
Definition cosineSimilarity (vec1 vec2 : list num) : num :=
  cosineOfSums (cosineLoop vec1 vec2 (zero, zero, zero)).

(** [VectorProductSearch.cosineSimilarity] runs [i] up to [vec1.length].
    When [vec2] is shorter it reads [undefined] from it, which turns
    [dotProduct] and [norm2] into NaN and leaves [norm1] alone: the result is
    0 if [norm1] is 0 and NaN, here [None], otherwise. *)
Definition vectorSearchCosineSimilarity (vec1 vec2 : list num) : option num :=
  if List.length vec2 <? List.length vec1 then
    let norm1 := Num.sqrt ops (fold_left (fun norm1 a => (norm1 + a * a)%num) vec1 zero) in
    if Num.isZero ops norm1 then Some zero else None
  else Some (cosineOfSums (cosineLoop vec1 vec2 (zero, zero, zero))).

(** ** The fallback embedding *)

(** The semantic categories, in the order of the object literal, each with
    its weight. *)
Definition categories : list (list jsstring * Q) :=
  [ (map lit ["sneaker"; "sneakers"; "shoe"; "shoes"; "boot"; "boots"; "sandal"; "sandals";
              "trainer"; "trainers"; "runner"; "running"], 4%Q);
    (map lit ["shirt"; "dress"; "pant"; "pants"; "jean"; "jeans"; "jacket"; "coat";
              "sweater"; "hoodie"], 4%Q);
    (map lit ["white"; "black"; "grey"; "gray"; "red"; "blue"; "green"; "brown"; "beige";
              "navy"; "yellow"; "pink"; "purple"; "orange"], (35 # 10)%Q);
    (map lit ["nike"; "adidas"; "puma"; "converse"; "vans"; "reebok"; "jordan"; "tommy";
              "calvin"; "ralph"; "polo"], (25 # 10)%Q);
    (map lit ["leather"; "cotton"; "denim"; "wool"; "silk"; "canvas"; "suede"; "mesh";
              "polyester"], 2%Q);
    (map lit ["casual"; "formal"; "sport"; "athletic"; "vintage"; "classic"; "modern";
              "trendy"], (15 # 10)%Q);
    (map lit ["men"; "women"; "mens"; "womens"; "male"; "female"; "unisex"], 1%Q) ].

(** The inner [keywords.forEach]: the weight, once per keyword found. *)
Definition categoryScore (cleanText : jsstring) (keywords : list jsstring) (weight : num) : num :=
  fold_left (fun score keyword =>
               if includes cleanText keyword then (score + weight)%num else score)
            keywords zero.

(** [categoryScore * (1 - i * 0.1)] *)
Definition spreadValue (score : num) (i : nat) : num :=
  (score * (Num.ofQ ops 1 - Num.ofQ ops (inject_Z (Z.of_nat i)) * Num.ofQ ops (1 # 10)))%num.

(** One round of [Object.entries(categories).forEach]: ten slots, written
    while [index < embedding.length]. *)
Definition scoreCategory (cleanText : jsstring) (state : list num * nat)
    (category : list jsstring * Q) : list num * nat :=
  let score := categoryScore cleanText (fst category) (Num.ofQ ops (snd category)) in
  fold_left (fun '(embedding, index) i =>
               if index <? List.length embedding
               then (setAt index (Num.f32 ops (spreadValue score i)) embedding, S index)
               else (embedding, index))
            (seq 0 10) state.

(** [cleanText.split(/\W+/).filter(w => w.length > 2)] *)
Definition featureWords (cleanText : jsstring) : list jsstring :=
  filter (fun w => 2 <? List.length w)
    (split false (Plus (Cls (fun c => negb (isWordChar c)))) cleanText).

(** One round of [words.forEach]: half a point on the word's hash slot. *)
Definition addWord (index : nat) (embedding : list num) (word : jsstring) : list num :=
  if index <? List.length embedding - 50 then
    let hash := Z.to_nat (hashWord word mod 50) in
    setAt (index + hash)
      (Num.f32 ops (nth (index + hash) embedding zero + Num.ofQ ops (1 # 2))%num) embedding
  else embedding.

(** The vector before the normalisation step. *)
Definition rawEmbedding (text : jsstring) : list num :=
  let cleanText := toLowerCase text in
  let '(embedding, index) :=
    fold_left (scoreCategory cleanText) categories (repeat zero 300, 0) in
  fold_left (addWord index) (featureWords cleanText) embedding.

(** [Math.sqrt(embedding.reduce((sum, val) => sum + val * val, 0))] *)
Definition l2norm (embedding : list num) : num :=
  Num.sqrt ops (fold_left (fun sum val => (sum + val * val)%num) embedding zero).

(** The normalisation step: division by the norm when the norm is positive. *)
Definition normalize (embedding : list num) : list num :=
  let norm := l2norm embedding in
  if Num.gtb ops norm zero
  then map (fun val => Num.f32 ops (val / norm)%num) embedding
  else embedding.

Definition generateFallbackEmbedding (text : jsstring) : list num :=
  normalize (rawEmbedding text).

Definition generateEmbedding (text : jsstring) : list num :=
  match model with
  | None => generateFallbackEmbedding text
  | Some generateSentenceEmbedding =>
      match generateSentenceEmbedding text with
      | Some embedding => embedding
      | None => generateFallbackEmbedding text
      end
  end.

(** ** Chunking *)

Record Chunk : Type := mkChunk {
  productId : jsstring;
  type : ChunkType;
  content : jsstring;
  chunkIndex : option nat;
  metadata : ChunkMeta;
  embedding : list num
}.

(** The chunks of a product before their embeddings are attached.  The
    timestamp and the domain stamped on every chunk are left out: nothing
    reads them. *)
Definition titleBrandChunk (context : ProductContext)
  : list (ChunkType * jsstring * option nat * ChunkMeta) :=
  if truthy (title context) || truthy (brand context)
  then [ (title_brand, trim (brand context ++ lit " " ++ title context), None,
          MetaTitleBrand (brand context) (title context) (productType context)) ]
  else [].

Definition attributeParts (context : ProductContext) : list jsstring :=
  (if 0 <? List.length (colors context)
   then [lit "Colors: " ++ join (lit ", ") (colors context)] else [])
  ++ (if 0 <? List.length (materials context)
      then [lit "Materials: " ++ join (lit ", ") (materials context)] else [])
  ++ (if 0 <? List.length (style context)
      then [lit "Style: " ++ join (lit ", ") (style context)] else [])
  ++ (if negb (eqs (productType context) (lit "unknown"))
      then [lit "Type: " ++ productType context] else [])
  ++ (if negb (eqs (gender context) (lit "unisex"))
      then [lit "Gender: " ++ gender context] else [])
  ++ (if truthy (price context) then [lit "Price: " ++ price context] else []).

Definition attributesChunk (context : ProductContext)
  : list (ChunkType * jsstring * option nat * ChunkMeta) :=
  let parts := attributeParts context in
  if 0 <? List.length parts
  then [ (attributes, join (lit ". ") parts, None,
          MetaAttributes (colors context) (materials context) (style context)
                         (productType context) (gender context)) ]
  else [].

(** [textChunks.forEach((chunk, index) => ...)] *)
Fixpoint indexed {A : Type} (index : nat) (l : list A) : list (nat * A) :=
  match l with
  | [] => []
  | a :: l' => (index, a) :: indexed (S index) l'
  end.

Definition descriptionChunks (context : ProductContext)
  : list (ChunkType * jsstring * option nat * ChunkMeta) :=
  if truthy (fullText context) && (chunkSize <? List.length (fullText context))
  then map (fun '(index, chunk) => (description, chunk, Some index, MetaDescription))
           (indexed 0 (splitIntoChunks (fullText context) chunkSize))
  else if truthy (fullText context)
       then [ (description, fullText context, None, MetaDescription) ]
       else [].

Definition chunkProductInfo (context : ProductContext) (productId : jsstring) : list Chunk :=
  map (fun '(type, content, chunkIndex, metadata) =>
         mkChunk productId type content chunkIndex metadata (generateEmbedding content))
      (titleBrandChunk context ++ attributesChunk context ++ descriptionChunks context).

(** ** Retrieval *)

Local Open Scope outcome_scope.

(** The stores, as the calls of one query see them: the chunk store is read
    once, the metadata store once per product id; either read can reject. *)
Variable getAllChunks : outcome (list Chunk).
Variable getProductMetadata : jsstring -> outcome (option ProductMeta).

(** [Number.prototype.toFixed(3)] *)
Variable toFixed3 : num -> jsstring.

(** [{...chunk, similarity}] *)
Record RetrievedChunk : Type := mkRetrieved {
  chunk : Chunk;
  similarity : num
}.

Definition retrieveRelevantChunks (query : jsstring) (maxChunks : nat)
  : outcome (list RetrievedChunk) :=
  let queryEmbedding := generateEmbedding query in
  chunks <-- getAllChunks ;;
  let similarities :=
    map (fun chunk => mkRetrieved chunk (cosineSimilarity queryEmbedding (embedding chunk)))
        chunks in
  let similarities :=
    sortBy (fun a b => Num.gtb ops (similarity b - similarity a)%num zero) similarities in
  Ok (firstn maxChunks
        (filter (fun chunk => Num.gtb ops (similarity chunk) similarityThreshold)
                similarities)).

(** ** Generation *)

Record ProductScore : Type := mkScore {
  maxSimilarity : num;
  avgSimilarity : num;
  chunkCount : nat;
  totalSimilarity : num
}.

Record Match : Type := mkMatchRecord {
  mt_productId : jsstring;
  mt_title : option jsstring;
  mt_brand : jsstring;
  mt_price : option jsstring;
  mt_link : option jsstring;
  mt_image : option jsstring;
  mt_elementInfo : ElementInfo;
  confidence : num;
  avgConfidence : num;
  reason : jsstring;
  retrievalScore : num
}.

Record RAGResult : Type := mkResult {
  matches : list Match;
  reasoning : jsstring;
  retrievedChunks : nat
}.

(** The property names a plain object inherits from [Object.prototype].
    Under such a key [productScores[key]] reads the inherited function or
    object, which is truthy. *)
Definition objectPrototypeKeys : list jsstring := map lit
  ["constructor"; "__defineGetter__"; "__defineSetter__"; "hasOwnProperty";
   "__lookupGetter__"; "__lookupSetter__"; "isPrototypeOf"; "propertyIsEnumerable";
   "toString"; "valueOf"; "__proto__"; "toLocaleString"].

Definition inherited (key : jsstring) : bool := existsb (eqs key) objectPrototypeKeys.

(** Step 2: one round of [relevantChunks.forEach].  For a product id that
    names an inherited property no entry is created, and the statistics are
    written on the inherited value: [productScores] has no new property of
    its own. *)
Definition addChunkScore (productScores : list (jsstring * ProductScore))
    (rc : RetrievedChunk) : list (jsstring * ProductScore) :=
  let id := productId (chunk rc) in
  if inherited id then productScores
  else
    let score :=
      match lookup id productScores with
      | Some score => score
      | None => mkScore zero zero 0 zero
      end in
    let maxSimilarity := Num.max ops (maxSimilarity score) (similarity rc) in
    let totalSimilarity := (totalSimilarity score + similarity rc)%num in
    let chunkCount := S (chunkCount score) in
    assign id
      (mkScore maxSimilarity
         (totalSimilarity / Num.ofQ ops (inject_Z (Z.of_nat chunkCount)))%num
         chunkCount totalSimilarity)
      productScores.

Definition optOr (o : option jsstring) (d : jsstring) : jsstring :=
  match o with
  | Some s => orElse s d
  | None => d
  end.

(** Step 3: one round of the loop over [Object.entries(productScores)]. *)
Definition addMatch (matches : list Match) (entry : jsstring * ProductScore)
  : outcome (list Match) :=
  let '(productId, scores) := entry in
  productMeta <-- getProductMetadata productId ;;
  match productMeta with
  | Some productMeta =>
      if Num.gtb ops (maxSimilarity scores) similarityThreshold
      then Ok (matches ++
                 [ mkMatchRecord (m_productId productMeta) (m_title productMeta)
                     (optOr (m_brand productMeta) []) (m_price productMeta)
                     (m_link productMeta) (m_image productMeta)
                     (m_elementInfo productMeta)
                     (maxSimilarity scores) (avgSimilarity scores)
                     (lit "Semantic similarity: " ++ toFixed3 (maxSimilarity scores)
                      ++ lit " (" ++ natToString (chunkCount scores) ++ lit " chunks)")
                     (maxSimilarity scores) ])
      else Ok matches
  | None => Ok matches
  end.

(** The key under which a match is deduplicated. *)
Definition dedupKey (match_ : Match) : jsstring :=
  let normalizedTitle :=
    trim (replaceAll false notWordSpaceDash []
            (replaceAll false whitespaceRun (lit " ")
               (toLowerCase (optOr (mt_title match_) [])))) in
  substring 0 30 normalizedTitle.

(** One round of [matches.forEach] over the [Map]. *)
Definition dedupStep (deduplicatedMatches : list (jsstring * Match)) (match_ : Match)
  : list (jsstring * Match) :=
  let key := dedupKey match_ in
  match lookup key deduplicatedMatches with
  | None => assign key match_ deduplicatedMatches
  | Some kept =>
      if Num.gtb ops (confidence match_) (confidence kept)
      then assign key match_ deduplicatedMatches
      else deduplicatedMatches
  end.

(** The deduplication step: [Array.from(deduplicatedMatches.values())]. *)
Definition deduplicate (matches : list Match) : list Match :=
  map snd (fold_left dedupStep matches []).

Definition sortByConfidence (matches : list Match) : list Match :=
  sortBy (fun a b => Num.gtb ops (confidence b - confidence a)%num zero) matches.

(** The body of the [try] block of [generateWithRAG]. *)
Definition generateWithRAG_try (query : jsstring) : outcome RAGResult :=
  relevantChunks <-- retrieveRelevantChunks query maxRetrievedChunks ;;
  if List.length relevantChunks =? 0
  then Ok (mkResult [] (lit "No semantically similar products found") 0)
  else
    let productScores := fold_left addChunkScore relevantChunks [] in
    matches <-- forM addMatch (objectEntries productScores) [] ;;
    let finalMatches := sortByConfidence (deduplicate matches) in
    Ok (mkResult finalMatches
          (lit "Found " ++ natToString (List.length finalMatches)
           ++ lit " products via semantic vector search")
          (List.length relevantChunks)).

(** [generateWithRAG]: what the [catch] clause makes of an exception. *)
Definition generateWithRAG (query : jsstring) : RAGResult :=
  match generateWithRAG_try query with
  | Ok result => result
  | Throw error =>
      mkResult [] (lit "RAG generation failed: " ++ message error) 0
  end.

End System.

End RAG.


(* ================================================================== *)
(** * ProductHighlighterEvaluator: feedback statistics (evaluator.js) *)
(* ================================================================== *)

Module Evaluator.

Local Open Scope string_scope.
Local Open Scope list_scope.
Local Open Scope Q_scope.

(** One entry of [metrics.userFeedback].  The score is read with
    [parseFloat] from an attribute; [None] is NaN. *)
Record Feedback : Type := mkFeedback {
  fb_feedback : jsstring;
  fb_productText : jsstring;
  fb_matchScore : option Q;
  fb_url : jsstring;
  fb_userPrompt : jsstring
}.

(** [f.feedback === 'correct'] *)
Definition isCorrect (f : Feedback) : bool := eqs (fb_feedback f) (lit "correct").

Definition calculateAccuracy (feedbackData : list Feedback) : Q :=
  let correct := List.length (filter isCorrect feedbackData) in
  let total := List.length feedbackData in
  if (0 <? total)%nat then Highlighter.ratio correct total else 0.

(** [arr.slice(-n)] *)
Definition sliceLast {A : Type} (n : nat) (arr : list A) : list A :=
  skipn (List.length arr - n) arr.

(** [recordPerformanceMetric]: the new value of [metrics.performanceData]. *)
Definition recordPerformanceMetric {A : Type} (performanceData : list A) (data : A)
  : list A :=
  let performanceData := performanceData ++ [data] in
  if (100 <? List.length performanceData)%nat
  then sliceLast 50 performanceData
  else performanceData.

(** The statistics kept for one word. *)
Record Stats : Type := mkStats { correct : nat; total : nat }.

Record KeywordReport : Type := mkReport {
  word : jsstring;
  accuracy : Q;
  usage : nat
}.

(** [findMisclassifications] *)
Record Misclassification : Type := mkMis {
  mis_text : jsstring;
  mis_score : option Q;
  mis_prompt : jsstring
}.

Definition findMisclassifications (feedbackData : list Feedback) : list Misclassification :=
  map (fun f => mkMis (substring 0 100 (fb_productText f)) (fb_matchScore f)
                      (fb_userPrompt f))
      (filter (fun f => eqs (fb_feedback f) (lit "incorrect")) feedbackData).

Section WithHost.

Variable toLowerCase : jsstring -> jsstring.

(** The body of [words.forEach] in [analyzeKeywords]: the entry of the word
    is created on first sight, then counted. *)
Definition countWord (itemCorrect : bool) (keywordPerformance : list (jsstring * Stats))
    (w : jsstring) : list (jsstring * Stats) :=
  if (2 <? List.length w)%nat then
    let stats :=
      match RAG.lookup w keywordPerformance with
      | Some stats => stats
      | None => mkStats 0 0
      end in
    RAG.assign w
      (mkStats (if itemCorrect then S (correct stats) else correct stats) (S (total stats)))
      keywordPerformance
  else keywordPerformance.

(** The body of [feedbackData.forEach]. *)
Definition countItem (keywordPerformance : list (jsstring * Stats)) (item : Feedback)
  : list (jsstring * Stats) :=
  fold_left (countWord (isCorrect item))
    (split false (Plus (Cls isSpace)) (toLowerCase (fb_userPrompt item)))
    keywordPerformance.

Definition analyzeKeywords (feedbackData : list Feedback) : list KeywordReport :=
  RAG.sortBy (fun a b => negb (Qle_bool (accuracy b) (accuracy a)))
    (map (fun '(w, stats) =>
            mkReport w (Highlighter.ratio (correct stats) (total stats)) (total stats))
         (fold_left countItem feedbackData [])).

End WithHost.

End Evaluator.

(* ================================================================== *)
(** * ProductHighlighter: the page (evaluator.js) *)
(* ================================================================== *)

Module Page.

Local Open Scope string_scope.
Local Open Scope list_scope.
Local Open Scope Q_scope.

(** ** Class lists *)

(** [classList.contains(token)] *)
Definition contains (classList : list jsstring) (token : jsstring) : bool :=
  existsb (eqs token) classList.

(** [classList.add(...tokens)]: a token already there is not added again. *)
Definition addToken (classList : list jsstring) (token : jsstring) : list jsstring :=
  if contains classList token then classList else classList ++ [token].

Definition add (classList tokens : list jsstring) : list jsstring :=
  fold_left addToken tokens classList.

(** [classList.remove(...tokens)] *)
Definition remove (classList tokens : list jsstring) : list jsstring :=
  filter (fun token => negb (contains tokens token)) classList.

(** What the highlighter reads and writes of a DOM element. *)
Record Element : Type := mkElement {
  classList : list jsstring;
  attrs : list (jsstring * jsstring)
}.

Definition highlightClasses : list jsstring :=
  map lit ["product-highlight"; "product-highlight-strong"; "product-highlight-medium"].

(** The [options] of [highlightElement]; a missing field is [None]. *)
Record Options : Type := mkOptions {
  o_reason : option jsstring;
  o_confidence : option Q;
  o_retrievalScore : option Q
}.

(** [a >= b] *)
Definition geb (a b : Q) : bool := Qle_bool b a.

Section Highlighting.

(** [n.toFixed(digits)] *)
Variable toFixed : nat -> Q -> jsstring.

Definition highlightElement (element : Element) (options : Options) : Element :=
  if contains (classList element) (lit "modern-badge") then element
  else
    let classes := remove (classList element) highlightClasses in
    let confidence := match o_confidence options with Some c => c | None => 0 end in
    let highlightClass :=
      if geb confidence (8 # 10) then lit "product-highlight-strong"
      else if geb confidence (6 # 10) then lit "product-highlight-medium"
      else lit "product-highlight" in
    let classes := add classes [highlightClass; lit "modern-badge"] in
    let attrs := RAG.assign (lit "data-match-confidence") (toFixed 3 confidence)
                   (attrs element) in
    let attrs := RAG.assign (lit "data-match-reason")
                   (match o_reason options with Some r => r | None => [] end) attrs in
    mkElement classes attrs.


End Highlighting.

(** ** Rule-based confidence *)

(** What [estimateProductConfidence] reads of an element; a missing text or
    data attribute is the empty string. *)
Record Indicators : Type := mkIndicators {
  textContent : jsstring;
  className : jsstring;
  hasImg : bool;             (* [element.querySelector('img')] *)
  hasLink : bool;            (* [element.querySelector('a')] *)
  dataAsin : jsstring;       (* [element.dataset.asin] *)
  dataProductId : jsstring   (* [element.dataset.productId] *)
}.

(** [/[\$€£]\d+|price/i] *)
Definition priceIndicator : regex :=
  Alt (Cat (Cls Highlighter.isCurrencySymbol) (Plus (Cls isDigit))) (Str (lit "price")).

(** [/product|item|card/i] *)
Definition productClass : regex :=
  Alts [Str (lit "product"); Str (lit "item"); Str (lit "card")].

(** [Math.min]: NaN if either is NaN, and [-0] below [+0]. *)
Definition floatMin (a b : float) : float :=
  if PrimFloat.is_nan a || PrimFloat.is_nan b then PrimFloat.nan
  else if PrimFloat.ltb a b then a
  else if PrimFloat.ltb b a then b
  else if PrimFloat.is_zero a
       then PrimFloat.opp (PrimFloat.add (PrimFloat.opp a) (PrimFloat.opp b))
       else a.

(** The confidence is a double, computed as the engine does. *)
Definition estimateProductConfidence (element : Indicators) : float :=
  let literal := Num.ofQ Num.Double in
  let confidence := literal (5 # 10) in
  let confidence :=
    if test true priceIndicator (textContent element)
    then PrimFloat.add confidence (literal (2 # 10)) else confidence in
  let confidence :=
    if test true productClass (className element)
    then PrimFloat.add confidence (literal (15 # 100)) else confidence in
  let confidence :=
    if hasImg element then PrimFloat.add confidence (literal (1 # 10)) else confidence in
  let confidence :=
    if hasLink element then PrimFloat.add confidence (literal (5 # 100)) else confidence in
  let confidence :=
    if truthy (dataAsin element) || truthy (dataProductId element)
    then PrimFloat.add confidence (literal (1 # 10)) else confidence in
  floatMin confidence (literal 1).

(** ** Thresholds and sentence queries *)

(** [s.split(sep)] for a separator of one code unit. *)
Fixpoint splitOn (sep : N) (s : jsstring) : list jsstring :=
  match s with
  | [] => [[]]
  | c :: s' =>
      if (c =? sep)%N then [] :: splitOn sep s'
      else match splitOn sep s' with
           | piece :: pieces => (c :: piece) :: pieces
           | [] => [[c]]
           end
  end.

(** [this.userPrompt.split(' ').length > 2] *)
Definition isSentence (userPrompt : jsstring) : bool :=
  (2 <? List.length (splitOn 32 userPrompt))%nat.

(** [/\b(white|black|red|blue|green|nike|adidas|under|below|above|\$|€|£)\b/i] *)
Definition specificRequirement : regex :=
  Cat WordB
    (Cat (Grp 1 (Alts [Str (lit "white"); Str (lit "black"); Str (lit "red");
                       Str (lit "blue"); Str (lit "green"); Str (lit "nike");
                       Str (lit "adidas"); Str (lit "under"); Str (lit "below");
                       Str (lit "above"); Chr DOLLAR; Chr EURO; Chr POUND]))
         WordB).

Definition getAdjustedThreshold (threshold : Q) (userPrompt : jsstring) : Q :=
  let baseThreshold := threshold in
  let hasSpecificRequirements := test true specificRequirement userPrompt in
  if isSentence userPrompt && hasSpecificRequirements
  then Qmax (baseThreshold - (1 # 10)) (2 # 10)
  else if negb (isSentence userPrompt)
       then Qmin (baseThreshold + (1 # 10)) (8 # 10)
       else baseThreshold.

Definition stopWords : list jsstring := map lit
  ["i"; "am"; "looking"; "for"; "want"; "need"; "find"; "show"; "me"; "get"; "buy";
   "purchase"; "a"; "an"; "the"; "and"; "or"; "with"; "that"; "have"; "has"; "is";
   "are"; "in"; "on"; "at"; "to"; "from"].

(** [/shoe|sneaker|boot|shirt|dress|jacket|phone|laptop|watch|bag|hat|jean|trouser|skirt/i] *)
Definition productWord : regex :=
  Alts (map (fun w => Str (lit w))
          ["shoe"; "sneaker"; "boot"; "shirt"; "dress"; "jacket"; "phone"; "laptop";
           "watch"; "bag"; "hat"; "jean"; "trouser"; "skirt"]).

Section WithHost.

Variable toLowerCase : jsstring -> jsstring.

(** The words of a sentence that are candidates for keywords. *)
Definition candidateWords (sentence : jsstring) : list jsstring :=
  filter (fun w => negb (Highlighter.allDigits w))
    (filter (fun w => negb (Highlighter.member w stopWords))
       (filter (fun w => (2 <? List.length w)%nat)
          (split false (Plus (Cls isSpace)) (toLowerCase sentence)))).

Definition extractKeywordsFromSentence (sentence : jsstring) : list jsstring :=
  let words := candidateWords sentence in
  let productKeywords := filter (fun w => test true productWord w) words in
  if (0 <? List.length productKeywords)%nat then productKeywords else firstn 3 words.

End WithHost.

(** ** Products already processed *)

(** What [getProductSignature] reads of a product; a missing field is the
    empty string. *)
Record PageProduct : Type := mkPageProduct {
  pp_title : jsstring;
  pp_price : jsstring;
  pp_text : jsstring
}.

Definition getProductSignature (product : PageProduct) : jsstring :=
  let text := substring 0 50 (pp_text product) in
  trim (replaceAll false (Plus (Cls isSpace)) (lit " ")
          (pp_title product ++ lit "|" ++ pp_price product ++ lit "|" ++ text)).

(** [set.add(value)] on a [Set] of strings, in insertion order. *)
Definition setAdd (set : list jsstring) (value : jsstring) : list jsstring :=
  if contains set value then set else set ++ [value].

(** The body of the loop of [detectNewProducts] that filters out the
    products already processed: the new products so far, and
    [this.processedProducts]. *)
Definition noteProduct (state : list PageProduct * list jsstring) (product : PageProduct)
  : list PageProduct * list jsstring :=
  let '(newProducts, processedProducts) := state in
  let productSignature := getProductSignature product in
  if negb (contains processedProducts productSignature)
  then (newProducts ++ [product], setAdd processedProducts productSignature)
  else state.

Definition newProductsOf (currentProducts : list PageProduct)
    (processedProducts : list jsstring) : list PageProduct * list jsstring :=
  fold_left noteProduct currentProducts ([], processedProducts).

End Page.

(* ================================================================== *)
(** * VectorProductSearch: keywords without the language model *)
(* ================================================================== *)

Module VectorSearch.

Local Open Scope string_scope.
Local Open Scope list_scope.

(** The object of keyword lists that [extractSearchKeywords] returns. *)
Record Keywords : Type := mkKeywords {
  k_colors : list jsstring;
  k_types : list jsstring;
  k_brands : list jsstring;
  k_materials : list jsstring;
  k_styles : list jsstring;
  k_sizes : list jsstring;
  k_gender : list jsstring;
  k_other : list jsstring
}.

(** The keys of [patterns], in the order of the object literal. *)
Inductive Category : Type := colors | types | brands | materials | gender | styles.

Definition patterns : list (Category * list jsstring) :=
  [ (colors, map lit ["white"; "black"; "red"; "blue"; "green"; "yellow"; "pink"; "purple";
                      "orange"; "brown"; "grey"; "gray"; "beige"; "navy"]);
    (types, map lit ["sneaker"; "sneakers"; "shoe"; "shoes"; "boot"; "boots"; "sandal";
                     "sandals"; "heel"; "heels"; "trainer"; "trainers"]);
    (brands, map lit ["nike"; "adidas"; "puma"; "converse"; "vans"; "reebok"; "jordan"]);
    (materials, map lit ["leather"; "cotton"; "denim"; "wool"; "canvas"]);
    (gender, map lit ["men"; "women"; "mens"; "womens"; "male"; "female"]);
    (styles, map lit ["casual"; "formal"; "sport"; "athletic"; "vintage"]) ].

(** [result[category].push(word)] *)
Definition push (result : Keywords) (category : Category) (word : jsstring) : Keywords :=
  match category with
  | colors =>
      mkKeywords (k_colors result ++ [word]) (k_types result) (k_brands result)
        (k_materials result) (k_styles result) (k_sizes result) (k_gender result)
        (k_other result)
  | types =>
      mkKeywords (k_colors result) (k_types result ++ [word]) (k_brands result)
        (k_materials result) (k_styles result) (k_sizes result) (k_gender result)
        (k_other result)
  | brands =>
      mkKeywords (k_colors result) (k_types result) (k_brands result ++ [word])
        (k_materials result) (k_styles result) (k_sizes result) (k_gender result)
        (k_other result)
  | materials =>
      mkKeywords (k_colors result) (k_types result) (k_brands result)
        (k_materials result ++ [word]) (k_styles result) (k_sizes result) (k_gender result)
        (k_other result)
  | gender =>
      mkKeywords (k_colors result) (k_types result) (k_brands result)
        (k_materials result) (k_styles result) (k_sizes result) (k_gender result ++ [word])
        (k_other result)
  | styles =>
      mkKeywords (k_colors result) (k_types result) (k_brands result)
        (k_materials result) (k_styles result ++ [word]) (k_sizes result) (k_gender result)
        (k_other result)
  end.

(** [result.other.push(word)] *)
Definition pushOther (result : Keywords) (word : jsstring) : Keywords :=
  mkKeywords (k_colors result) (k_types result) (k_brands result)
    (k_materials result) (k_styles result) (k_sizes result) (k_gender result)
    (k_other result ++ [word]).

(** The body of [Object.entries(patterns).forEach]: the result so far and
    [matched]. *)
Definition matchCategory (word : jsstring) (state : Keywords * bool)
    (entry : Category * list jsstring) : Keywords * bool :=
  let '(result, matched) := state in
  let '(category, categoryWords) := entry in
  if Highlighter.member word categoryWords
  then (push result category word, true)
  else (result, matched).

(** The body of [words.forEach]. *)
Definition placeWord (result : Keywords) (word : jsstring) : Keywords :=
  let '(result, matched) := fold_left (matchCategory word) patterns (result, false) in
  if negb matched then pushOther result word else result.

Definition fallbackKeywordExtraction (toLowerCase : jsstring -> jsstring)
    (query : jsstring) : Keywords :=
  let cleanQuery := toLowerCase query in
  let words := RAG.featureWords cleanQuery in
  fold_left placeWord words (mkKeywords [] [] [] [] [] [] [] []).

End VectorSearch.

(* ================================================================== *)
(** * Vocabulary of the properties *)
(* ================================================================== *)

Module Notions.

Import RAG Highlighter.

Local Open Scope nat_scope.

(** ** Scorer *)

(** No host regular expression: every pattern with syntax characters throws. *)
Definition noHost : jsstring -> option RegExpObj := fun _ => None.

Definition allNonneg (s : Scores) : Prop :=
  (0 <= s_keyword s /\ 0 <= s_exact s /\ 0 <= s_semantic s /\ 0 <= s_price s /\
   0 <= s_brand s /\ 0 <= s_category s /\ 0 <= s_color s /\ 0 <= s_attributes s)%Q.

(** The analysis of the query "white sneakers". *)
Definition whiteSneakers : QueryAnalysis :=
  Eval vm_compute in
    match analyzeQuery asciiLower noHost (lit "white sneakers") with
    | Some queryAnalysis => queryAnalysis
    | None => mkQA [] [] [] [] [] [] [] [] false false false false
    end.

(** The code units of [w] stand in [s] from position [i] on. *)
Fixpoint standsAt (ic : bool) (w s : jsstring) (i : nat) : bool :=
  match w with
  | [] => true
  | c :: w' =>
      match nth_error s i with
      | Some d => chrEq ic c d && standsAt ic w' s (S i)
      | None => false
      end
  end.

(** No upper-case ASCII letter: what [toLowerCase] leaves of a prompt. *)
Definition noUpper (s : jsstring) : bool := forallb (fun c => negb (isUpper c)) s.

(** Lower-case letters and the space: the code units of the price words. *)
Definition lowerOrSpace (c : N) : bool := isLower c || (c =? 32)%N.

(** The least number of code units a match of [r] consumes. *)
Fixpoint minLen (r : regex) : nat :=
  match r with
  | Chr _ | Cls _ => 1
  | Cat r1 r2 => minLen r1 + minLen r2
  | Alt r1 r2 => Nat.min (minLen r1) (minLen r2)
  | Grp _ r1 => minLen r1
  | Opt _ | Star _ | WordB | Bol | Eol => 0
  end.

Section StarLoop.

Variable m : nat -> caps -> (nat -> caps -> option result) -> option result.
Variable k : nat -> caps -> option result.

(** The iteration of [r*] inside [rmatch], with the matcher of [r] as a
    parameter. *)
Fixpoint starLoop (fuel i : nat) (cs : caps) : option result :=
  match fuel with
  | O => k i cs
  | S fuel' =>
      match m i cs (fun j cs' => if j <=? i then None else starLoop fuel' j cs') with
      | Some x => Some x
      | None => k i cs
      end
  end.

End StarLoop.

(** Constraint types by pattern, as the specification words them. *)
Definition typesFollowPatterns (prompt : jsstring) : Prop :=
  (forall c, In c (constraintsOfPattern pricePattern1 prompt) -> pc_type c = Max)
  /\ (forall c, In c (constraintsOfPattern pricePattern2 prompt) -> pc_type c = Min).

(** ** Cosine similarity and embeddings *)

(** What the loop of [cosineSimilarity] keeps true of its three sums. *)
Definition cauchy (acc : R * R * R) : Prop :=
  let '(d, p, q) := acc in (0 <= p /\ 0 <= q /\ d * d <= p * q)%R.

Fixpoint sumsq (l : list R) : R :=
  match l with
  | [] => 0%R
  | x :: l' => (x * x + sumsq l')%R
  end.


Definition ones : list float := [1%float; 1%float; 1%float].

(** A double within [[-1, 1]]. *)
Definition withinUnit (x : float) : Prop :=
  PrimFloat.leb (-1)%float x = true /\ PrimFloat.leb x 1%float = true.

(** The fallback embedding of "white sneakers", in double arithmetic. *)
Definition whiteSneakersEmbedding : list float :=
  generateFallbackEmbedding Num.Double asciiLower (lit "white sneakers").

(** ** Retrieval and generation *)

Definition descending (l : list (RetrievedChunk Num.Exact)) : Prop :=
  StronglySorted
    (fun a b => (similarity Num.Exact b <= similarity Num.Exact a)%R) l.

(** What the [Map] of the deduplication step satisfies throughout: every key
    stands once, and every match is filed under its own key. *)
Definition wellKeyed (ops : Num.Ops) (toLowerCase : jsstring -> jsstring)
    (m : list (jsstring * Match ops)) : Prop :=
  NoDup (map fst m) /\ forall e, In e m -> fst e = dedupKey ops toLowerCase (snd e).

(** The result the [catch] clause builds. *)
Definition failure (ops : Num.Ops) (e : Error) : RAGResult ops :=
  mkResult ops [] (lit "RAG generation failed: " ++ message e) 0.

(** ** Chunking *)

(** The text cut at the [k]-th step of [splitIntoChunks(text, 200)]. *)
Definition window (text : jsstring) (k : nat) : jsstring :=
  substring (160 * k) (160 * k + 200) text.

(** What the [k]-th step pushes: the trimmed window, unless it is blank. *)
Definition piece (text : jsstring) (k : nat) : list jsstring :=
  if truthy (trim (window text k)) then [trim (window text k)] else [].

(** The number of steps: the least [n] with [160 * n >= text.length]. *)
Definition windowCount (text : jsstring) : nat := (List.length text + 159) / 160.

Definition startsNonBlank (text : jsstring) : bool :=
  match text with
  | c :: _ => negb (isSpace c)
  | [] => false
  end.

Definition endsNonBlank (text : jsstring) : bool := startsNonBlank (rev text).

Definition isDescription (ops : Num.Ops) (c : Chunk ops) : bool :=
  match type ops c with description => true | _ => false end.

(** The texts of the description chunks, in order. *)
Definition descriptionTexts (ops : Num.Ops) (chunks : list (Chunk ops)) : list jsstring :=
  map (content ops) (filter (isDescription ops) chunks).

(** [b] begins with the last [n] code units of [a]. *)
Definition overlapBy (n : nat) (a b : jsstring) : Prop :=
  n <= List.length a /\ n <= List.length b
  /\ skipn (List.length a - n) a = firstn n b.

Fixpoint consecutive (P : jsstring -> jsstring -> Prop) (l : list jsstring) : Prop :=
  match l with
  | a :: (b :: _) as l' => P a b /\ consecutive P l'
  | _ => True
  end.

(** Chunking coverage, as the specification words it. *)
Definition chunkingCoverage (ops : Num.Ops) (context : ProductContext)
    (chunks : list (Chunk ops)) : Prop :=
  (title context <> [] -> exists c, In c chunks /\ type ops c = title_brand)
  /\ (chunkSize < List.length (fullText context) ->
      1 < List.length (descriptionTexts ops chunks)
      /\ Forall (fun c => List.length c <= chunkSize) (descriptionTexts ops chunks)
      /\ consecutive (overlapBy (overlapOf chunkSize)) (descriptionTexts ops chunks)).

(** A product whose text is 330 letters long. *)
Definition longProduct : ProductContext :=
  mkContext (lit "Runner") [] [] [] (lit "runner") [] [] [] (lit "unisex")
    (repeat 97%N 330).

End Notions.

(** ** What a match is *)

Module Semantics.

Local Open Scope nat_scope.

(** [matches ic s r i cs j cs']: the pattern [r] matches the code units of
    [s] from position [i] up to position [j], and turns the captures [cs]
    into [cs'].  This is the declarative reading of the matcher: what a
    successful run of [rmatch] has found. *)
Inductive matches (ic : bool) (s : jsstring)
  : regex -> nat -> caps -> nat -> caps -> Prop :=
| MChr c d i cs :
    nth_error s i = Some d -> chrEq ic c d = true ->
    matches ic s (Chr c) i cs (S i) cs
| MCls p d i cs :
    nth_error s i = Some d -> p d = true ->
    matches ic s (Cls p) i cs (S i) cs
| MCat r1 r2 i cs j cs1 j' cs2 :
    matches ic s r1 i cs j cs1 -> matches ic s r2 j cs1 j' cs2 ->
    matches ic s (Cat r1 r2) i cs j' cs2
| MAltL r1 r2 i cs j cs' :
    matches ic s r1 i cs j cs' -> matches ic s (Alt r1 r2) i cs j cs'
| MAltR r1 r2 i cs j cs' :
    matches ic s r2 i cs j cs' -> matches ic s (Alt r1 r2) i cs j cs'
| MOptSome r i cs j cs' :
    matches ic s r i cs j cs' -> i < j -> matches ic s (Opt r) i cs j cs'
| MOptNone r i cs :
    matches ic s (Opt r) i cs i cs
| MStarNil r i cs :
    matches ic s (Star r) i cs i cs
| MStarCons r i cs j cs1 j' cs2 :
    matches ic s r i cs j cs1 -> i < j -> matches ic s (Star r) j cs1 j' cs2 ->
    matches ic s (Star r) i cs j' cs2
| MGrp n r i cs j cs' :
    matches ic s r i cs j cs' ->
    matches ic s (Grp n r) i cs j ((n, substring i j s) :: cs')
| MWordB i cs :
    xorb (wordBefore s i) (wordAt s i) = true -> matches ic s WordB i cs i cs
| MBol cs :
    matches ic s Bol 0 cs 0 cs
| MEol cs :
    matches ic s Eol (List.length s) cs (List.length s) cs.

(** A pattern without capturing groups. *)
Fixpoint groupFree (r : regex) : bool :=
  match r with
  | Cat r1 r2 | Alt r1 r2 => groupFree r1 && groupFree r2
  | Opt r1 | Star r1 => groupFree r1
  | Grp _ _ => false
  | _ => true
  end.

(** Every code unit of [s] at a position in [[i, j)] satisfies [p]. *)
Definition allBetween (p : N -> bool) (s : jsstring) (i j : nat) : Prop :=
  forall t d, i <= t -> t < j -> nth_error s t = Some d -> p d = true.

(** No code unit of [w] satisfies [p]. *)
Definition free (p : N -> bool) (w : jsstring) : bool := forallb (fun c => negb (p c)) w.

End Semantics.

(** ** Vocabulary for the scorer *)

Module ScorerNotions.

Import Highlighter Notions.

Local Open Scope Q_scope.

(** What one pattern of [extractPricesFromText] contributes. *)
Definition pricesOfPattern (pattern : regex) (text : jsstring) : list Q :=
  flat_map (fun m =>
    match parseFloat (replaceFirstStr (lit ",") (lit ".") (orElse (group 2 m) (group 1 m))) with
    | Some value => [value]
    | None => []
    end) (execAll false pattern text).

(** [/(\€|\$|£)\s*(\d+(?:[.,]\d+)?)/g]: the symbol, then the number. *)
Definition symbolFirst : regex := Cat (Grp 1 symbolRe) (Cat spaces (Grp 2 numberRe)).

(** [/(\d+(?:[.,]\d+)?)\s*(\€|\$|£)/g]: the number, then the symbol. *)
Definition numberFirst : regex := Cat (Grp 1 numberRe) (Cat spaces (Grp 2 symbolRe)).

(** The sum of the eight weights. *)
Definition total (w : Scores) : Q :=
  s_keyword w + s_exact w + s_semantic w + s_price w
  + s_brand w + s_category w + s_color w + s_attributes w.

(** The same analysis, had the query named no price. *)
Definition withoutPrice (qa : QueryAnalysis) : QueryAnalysis :=
  mkQA (coreQuery qa) (keywords qa) [] (brands qa) (categories qa) (colors qa)
       (attributes qa) (requiredCriteria qa)
       (hasPrice qa) (hasBrand qa) (hasColor qa) (hasAttributes qa).

(** The first code unit of a currency mark of the price patterns, in either
    case. *)
Definition currencyStart (d : N) : bool :=
  existsb (N.eqb d) [EURO; DOLLAR; POUND; 117; 85; 101; 69; 103; 71]%N.

(** The four checks of [checkCoreRequirements], as one condition. *)
Definition coreOk (toLowerCase : jsstring -> jsstring) (productText : jsstring)
    (qa : QueryAnalysis) : bool :=
  (isEmpty (keywords qa)
   || negb (List.length (filter (keywordMatches (toLowerCase productText)) (keywords qa))
            <? keywordThreshold (List.length (keywords qa)))%nat)
  && (isEmpty (colors qa)
      || existsb (fun color => test true (wordRe color) productText) (colors qa))
  && (isEmpty (brands qa)
      || existsb (fun brand => test true (wordRe brand) productText) (brands qa))
  && (isEmpty (priceConstraints qa)
      || isEmpty (extractPricesFromText productText)
      || somePriceMatches (extractPricesFromText productText) (priceConstraints qa)).

(** The words [analyzeQuery] takes from its own vocabularies hold no pattern
    syntax. *)
Definition plainAnalysis (qa : QueryAnalysis) : Prop :=
  (forall c, In c (colors qa) -> isPlain c = true)
  /\ (forall b, In b (brands qa) -> isPlain b = true)
  /\ (forall a, In a (attributes qa) -> isPlain (attr_value a) = true).

(** The query named no keyword, colour, brand or price: the scorer falls
    back on simple matching. *)
Definition noCriteria (qa : QueryAnalysis) : bool :=
  isEmpty (keywords qa) && isEmpty (colors qa)
  && isEmpty (brands qa) && isEmpty (priceConstraints qa).

(** The allowlist [small] is part of the allowlist [large]. *)
Definition sublist (small large : list jsstring) : Prop :=
  forall k, member k small = true -> member k large = true.

(** The analyses of three queries. *)
Definition analysisOf (prompt : string) : QueryAnalysis :=
  match analyzeQuery asciiLower noHost (lit prompt) with
  | Some queryAnalysis => queryAnalysis
  | None => mkQA [] [] [] [] [] [] [] [] false false false false
  end.

Definition nikeSneakers : QueryAnalysis := Eval vm_compute in analysisOf "nike sneakers".
Definition sneakersUnder50 : QueryAnalysis := Eval vm_compute in analysisOf "sneakers under $50".
Definition tv : QueryAnalysis := Eval vm_compute in analysisOf "tv".

End ScorerNotions.

(** ** Vocabulary for retrieval and generation *)

Module RetrievalNotions.

Import RAG Notions.

(** The three sums of [cosineSimilarity], with the two norms exchanged. *)
Definition swapNorms {A : Type} (acc : A * A * A) : A * A * A :=
  let '(d, p, q) := acc in (d, q, p).

(** Matches in descending order of confidence. *)
Definition byConfidence (l : list (Match Num.Exact)) : Prop :=
  StronglySorted (fun a b => (confidence Num.Exact b <= confidence Num.Exact a)%R) l.

(** What [generateWithRAG] keeps true of the score of every product while
    it adds up the retrieved chunks: the count is positive, the total lies
    between the count times the threshold and the count times the maximum,
    and the average is the total over the count. *)
Definition scoreInvariant (s : ProductScore Num.Exact) : Prop :=
  (0 < chunkCount Num.Exact s)%nat
  /\ (INR (chunkCount Num.Exact s) * / 10 < totalSimilarity Num.Exact s)%R
  /\ (totalSimilarity Num.Exact s
      <= INR (chunkCount Num.Exact s) * maxSimilarity Num.Exact s)%R
  /\ avgSimilarity Num.Exact s
     = (totalSimilarity Num.Exact s / INR (chunkCount Num.Exact s))%R.

(** The chunks of one type. *)
Definition sameType (a b : ChunkType) : bool :=
  match a, b with
  | title_brand, title_brand | attributes, attributes | description, description => true
  | _, _ => false
  end.

Definition ofType (ops : Num.Ops) (t : ChunkType) (chunks : list (Chunk ops))
  : list (Chunk ops) :=
  filter (fun c => sameType (type ops c) t) chunks.

End RetrievalNotions.

(** ** Vocabulary for the evaluator and the page *)

Module PageNotions.

Import Evaluator Page.

Local Open Scope Q_scope.

(** Reports in descending order of accuracy. *)
Definition byAccuracy (l : list KeywordReport) : Prop :=
  StronglySorted (fun a b => accuracy b <= accuracy a) l.

(** What [analyzeKeywords] keeps true of its [Map]: every word stands once,
    is longer than two code units and holds no white space, and it was
    counted at least once, correct no more often than in total. *)
Definition countsInvariant (m : list (jsstring * Stats)) : Prop :=
  NoDup (map fst m)
  /\ forall w stats, In (w, stats) m ->
       (2 < List.length w)%nat /\ Semantics.free isSpace w = true
       /\ (1 <= total stats)%nat /\ (correct stats <= total stats)%nat.

(** The highlight classes among the classes of an element. *)
Definition highlightsOf (element : Element) : list jsstring :=
  filter (contains highlightClasses) (classList element).

(** [toFixed], as far as the examples need it: not at all. *)
Definition noDigits : nat -> Q -> jsstring := fun _ _ => [].

End PageNotions.

(** ** Vocabulary for the keyword extraction *)

Module SearchNotions.

Import VectorSearch.

(** The words of the pattern list of a category. *)
Definition wordsOf (category : Category) : list jsstring :=
  match find (fun entry => match fst entry, category with
                           | colors, colors | types, types | brands, brands
                           | materials, materials | gender, gender | styles, styles => true
                           | _, _ => false
                           end) patterns with
  | Some entry => snd entry
  | None => []
  end.

(** The words of [words] that are in the pattern list of [category]. *)
Definition ofCategory (category : Category) (words : list jsstring) : list jsstring :=
  filter (fun w => Highlighter.member w (wordsOf category)) words.

(** The word is in no pattern list. *)
Definition unknown (w : jsstring) : bool :=
  negb (existsb (fun entry => Highlighter.member w (snd entry)) patterns).

(** The word, if the test holds. *)
Definition sel (b : bool) (w : jsstring) : list jsstring := if b then [w] else [].

(** The number of keywords in all the lists of a result. *)
Definition size (r : Keywords) : nat :=
  List.length (k_colors r) + List.length (k_types r) + List.length (k_brands r)
  + List.length (k_materials r) + List.length (k_styles r) + List.length (k_sizes r)
  + List.length (k_gender r) + List.length (k_other r).

End SearchNotions.


(** ** Vocabulary for double arithmetic *)

Module DoubleNotions.

Import RAG Notions.

(** The sign bit of [f] is [s], or [f] is NaN. *)
Definition signIs (s : bool) (f : spec_float) : Prop :=
  match f with
  | S754_nan => True
  | S754_zero s' | S754_infinity s' | S754_finite s' _ _ => s' = s
  end.

(** The sign bit is clear and the number is not zero. *)
Definition isPositive (f : spec_float) : Prop :=
  match f with
  | S754_finite false _ _ | S754_infinity false => True
  | _ => False
  end.

(** The sign bit of the double is clear, or the double is NaN. *)
Definition clear (x : float) : Prop := signIs false (Prim2SF x).

(** Retrieved chunks in descending order of similarity, as doubles compare. *)
Definition descendingDouble (l : list (RetrievedChunk Num.Double)) : Prop :=
  StronglySorted
    (fun a b => PrimFloat.leb (similarity Num.Double b) (similarity Num.Double a) = true) l.

(** A stored chunk with the given product id and embedding. *)
Definition storedChunk (id : jsstring) (embedding : list float) : Chunk Num.Double :=
  mkChunk Num.Double id title_brand (lit "Sneaker") None
    (MetaTitleBrand (lit "Nike") (lit "Sneaker") (lit "sneaker")) embedding.

(** A chunk store of three chunks. *)
Definition threeChunks : list (Chunk Num.Double) :=
  [storedChunk (lit "1") [0; 1]%float;
   storedChunk (lit "2") [1; 0]%float;
   storedChunk (lit "3") [1; 1]%float].

(** A chunk store in which the second chunk has NaN in its embedding. *)
Definition nanChunks : list (Chunk Num.Double) :=
  [storedChunk (lit "1") [0; 1]%float;
   storedChunk (lit "2") [nan; 1]%float;
   storedChunk (lit "3") [1; 0]%float;
   storedChunk (lit "4") [1; 1]%float].

End DoubleNotions.


(* ================================================================== *)
(** * Properties *)
(* ================================================================== *)

(** ** Doubles *)

Module FloatFacts.

Import DoubleNotions.

Local Open Scope Z_scope.

(** ** The sign of a rounded number *)

Lemma binary_round_aux_sign p em s m e l :
  signIs s (binary_round_aux p em s m e l).
Proof.
  unfold binary_round_aux.
  destruct (shr_fexp p em m e l) as [mrs' e'].
  destruct (shr_fexp p em _ e' loc_Exact) as [mrs'' e''].
  destruct (shr_m mrs''); cbn; auto.
  destruct (e'' <=? em - p); cbn; auto.
Qed.

Lemma binary_round_sign p em s m e : signIs s (binary_round p em s m e).
Proof.
  unfold binary_round. destruct (shl_align _ _ _). apply binary_round_aux_sign.
Qed.




Lemma SFdiv_sign p em x y :
  signIs false x -> signIs false y -> signIs false (SFdiv p em x y).
Proof.
  destruct x as [sx | sx | | sx mx ex], y as [sy | sy | | sy my ey]; cbn;
    intros Hx Hy; subst; cbn; auto.
  destruct (SFdiv_core_binary _ _ _ _ _ _) as [[mz ez] lz].
  apply (binary_round_aux_sign p em false).
Qed.




(** ** Digits and shifts *)

Lemma digits2_pos_bounds m :
  2 ^ (Zpos (digits2_pos m) - 1) <= Zpos m < 2 ^ Zpos (digits2_pos m).
Proof.
  induction m as [m IH | m IH |]; cbn [digits2_pos].
  - rewrite Pos2Z.inj_succ, Pos2Z.inj_xI.
    replace (Z.succ (Zpos (digits2_pos m)) - 1) with (Z.succ (Zpos (digits2_pos m) - 1))
      by lia.
    rewrite !Z.pow_succ_r by lia.
    set (a := 2 ^ (Zpos (digits2_pos m) - 1)) in *.
    set (b := 2 ^ Zpos (digits2_pos m)) in *. clearbody a b. lia.
  - rewrite Pos2Z.inj_succ. change (Zpos m~0) with (2 * Zpos m).
    replace (Z.succ (Zpos (digits2_pos m)) - 1) with (Z.succ (Zpos (digits2_pos m) - 1))
      by lia.
    rewrite !Z.pow_succ_r by lia.
    set (a := 2 ^ (Zpos (digits2_pos m) - 1)) in *.
    set (b := 2 ^ Zpos (digits2_pos m)) in *. clearbody a b. lia.
  - cbn. lia.
Qed.

Lemma iter_xO m d : Zpos (Pos.iter xO m d) = Zpos m * 2 ^ Zpos d.
Proof.
  induction d as [| d IH] using Pos.peano_ind.
  - cbn. lia.
  - rewrite Pos.iter_succ, Pos2Z.inj_xO, IH, Pos2Z.inj_succ, Z.pow_succ_r by lia. lia.
Qed.

(** What [shl_align] returns when it is asked for a smaller exponent. *)
Lemma shl_align_value m e e' :
  e' <= e -> Zpos (fst (shl_align m e e')) = Zpos m * 2 ^ (e - e').
Proof.
  intros H. unfold shl_align. destruct (e' - e) as [| d | d] eqn:E; cbn [fst].
  - replace (e - e') with 0 by lia. lia.
  - lia.
  - rewrite iter_xO. f_equal. f_equal. lia.
Qed.

Lemma shl_align_exponent m e e' :
  snd (shl_align m e e') = e \/ snd (shl_align m e e') = e'.
Proof. unfold shl_align. destruct (e' - e); cbn; auto. Qed.

Lemma shr_1_m mrs : 0 <= shr_m mrs -> shr_m (shr_1 mrs) = shr_m mrs / 2.
Proof.
  destruct mrs as [m r s]. cbn [shr_m]. intros H.
  destruct m as [| [q | q |] | q]; cbn [shr_1 shr_m]; try reflexivity; try lia.
  - apply Z.div_unique with (r := 1); lia.
  - apply Z.div_unique with (r := 0); lia.
Qed.

Lemma iter_pos_shr n : forall mrs,
  0 <= shr_m mrs -> shr_m (iter_pos shr_1 n mrs) = shr_m mrs / 2 ^ Zpos n.
Proof.
  assert (Hpos : forall k, 0 < 2 ^ Zpos k) by (intros k; apply Z.pow_pos_nonneg; lia).
  induction n as [n IH | n IH |]; intros mrs H; cbn [iter_pos].
  - assert (H1 : 0 <= shr_m (shr_1 mrs)).
    { rewrite shr_1_m by assumption. apply Z.div_pos; lia. }
    assert (H2 : 0 <= shr_m (iter_pos shr_1 n (shr_1 mrs))).
    { rewrite IH by assumption. apply Z.div_pos; [lia | apply Hpos]. }
    rewrite IH, IH, shr_1_m by assumption.
    pose proof (Hpos n).
    assert (E : 2 ^ Zpos n~1 = 2 * 2 ^ Zpos n * 2 ^ Zpos n).
    { replace (Zpos n~1) with (1 + Zpos n + Zpos n) by lia.
      rewrite !Z.pow_add_r by lia. reflexivity. }
    rewrite E, !Z.div_div by lia. f_equal. ring.
  - assert (H2 : 0 <= shr_m (iter_pos shr_1 n mrs)).
    { rewrite IH by assumption. apply Z.div_pos; [lia | apply Hpos]. }
    rewrite IH, IH by assumption.
    pose proof (Hpos n).
    assert (E : 2 ^ Zpos n~0 = 2 ^ Zpos n * 2 ^ Zpos n).
    { replace (Zpos n~0) with (Zpos n + Zpos n) by lia.
      rewrite Z.pow_add_r by lia. reflexivity. }
    rewrite E, Z.div_div by lia. reflexivity.
  - rewrite shr_1_m by assumption. reflexivity.
Qed.

Lemma shr_record_of_loc_m m l : shr_m (shr_record_of_loc m l) = m.
Proof. destruct l as [| []]; reflexivity. Qed.

(** ** A positive number is not rounded to zero *)

Section Rounding.

Variables p em : Z.
Hypothesis p_pos : 1 <= p.

Lemma fexp_ge e : SpecFloat.emin p em <= fexp p em e.
Proof. unfold fexp. lia. Qed.

Lemma shr_fexp_pos m e l :
  0 < m -> SpecFloat.emin p em <= e ->
  0 < shr_m (fst (shr_fexp p em m e l))
  /\ SpecFloat.emin p em <= snd (shr_fexp p em m e l).
Proof.
  intros Hm He. unfold shr_fexp, shr.
  destruct m as [| q | q]; try lia. cbn [Zdigits2].
  pose proof (digits2_pos_bounds q) as [Hlo _].
  set (d := Zpos (digits2_pos q)) in *.
  destruct (fexp p em (d + e) - e) as [| n | n] eqn:E; cbn [fst snd];
    rewrite ?shr_record_of_loc_m; try (split; lia).
  assert (Hn : Zpos n <= d - 1) by (unfold fexp in E; lia).
  rewrite iter_pos_shr by (rewrite shr_record_of_loc_m; lia).
  rewrite shr_record_of_loc_m. split; [| lia].
  apply Z.div_str_pos. split; [apply Z.pow_pos_nonneg; lia |].
  etransitivity; [| exact Hlo]. apply Z.pow_le_mono_r; lia.
Qed.

Lemma binary_round_aux_pos m e l :
  0 < m -> SpecFloat.emin p em <= e -> isPositive (binary_round_aux p em false m e l).
Proof.
  intros Hm He. unfold binary_round_aux.
  destruct (shr_fexp_pos m e l Hm He) as [H1 H1e].
  destruct (shr_fexp p em m e l) as [mrs' e']. cbn [fst snd] in *.
  assert (H2 : 0 < round_nearest_even (shr_m mrs') (loc_of_shr_record mrs')).
  { unfold round_nearest_even. destruct (loc_of_shr_record mrs') as [| []]; try lia.
    destruct (Z.even _); lia. }
  destruct (shr_fexp_pos _ e' loc_Exact H2 H1e) as [H3 _].
  destruct (shr_fexp p em _ e' loc_Exact) as [mrs'' e'']. cbn [fst] in H3.
  destruct (shr_m mrs''); try lia.
  destruct (e'' <=? em - p); exact I.
Qed.

Lemma binary_round_pos m e :
  SpecFloat.emin p em <= e -> isPositive (binary_round p em false m e).
Proof.
  intros He. unfold binary_round.
  pose proof (shl_align_exponent m e (fexp p em (Zpos (digits2_pos m) + e))) as Hs.
  pose proof (fexp_ge (Zpos (digits2_pos m) + e)).
  destruct (shl_align _ _ _) as [mz ez]. cbn [snd] in Hs.
  apply binary_round_aux_pos; [lia | destruct Hs; lia].
Qed.

(** The sign of what [binary_normalize] returns is the sign of the number
    it is given. *)
Lemma binary_normalize_positive D e :
  SpecFloat.emin p em <= e ->
  (SFltb (S754_zero false) (binary_normalize p em D e false) = true <-> 0 < D).
Proof.
  intros He. destruct D as [| d | d]; cbn [binary_normalize].
  - cbn. split; [discriminate | lia].
  - pose proof (binary_round_pos d e He) as H.
    destruct (binary_round p em false d e) as [s | [] | | [] m' e']; cbn in H; try tauto;
      cbn; split; auto; lia.
  - pose proof (binary_round_sign p em true d e) as H.
    destruct (binary_round p em true d e) as [s | s | | s m' e']; cbn in H; subst;
      cbn; split; try discriminate; lia.
Qed.

(** ** The order of canonical numbers *)

Lemma canonical_exponent m e :
  canonical_mantissa p em m e = true ->
  SpecFloat.emin p em <= e
  /\ Zpos m < 2 ^ p * 2 ^ (e - e)
  /\ (SpecFloat.emin p em < e -> 2 ^ (p - 1) <= Zpos m).
Proof.
  unfold canonical_mantissa, fexp. intros H. apply Z.eqb_eq in H.
  pose proof (digits2_pos_bounds m) as [Hlo Hhi].
  set (d := Zpos (digits2_pos m)) in *.
  replace (e - e) with 0 by lia. rewrite Z.mul_1_r.
  split; [lia |]. split.
  - eapply Z.lt_le_trans; [exact Hhi |]. apply Z.pow_le_mono_r; lia.
  - intros He. assert (d = p) by lia. subst p. exact Hlo.
Qed.

(** Two canonical numbers put on their smaller exponent compare as their
    exponents and mantissas do. *)
Lemma aligned_lt mx ex my ey :
  canonical_mantissa p em mx ex = true -> canonical_mantissa p em my ey = true ->
  (Zpos (fst (shl_align mx ex (Z.min ex ey))) < Zpos (fst (shl_align my ey (Z.min ex ey)))
   <-> ex < ey \/ (ex = ey /\ (mx < my)%positive)).
Proof.
  intros Cx Cy.
  destruct (canonical_exponent mx ex Cx) as (Ex & Hx & Nx).
  destruct (canonical_exponent my ey Cy) as (Ey & Hy & Ny).
  replace (ex - ex) with 0 in Hx by lia. replace (ey - ey) with 0 in Hy by lia.
  rewrite Z.mul_1_r in Hx, Hy.
  rewrite !shl_align_value by lia.
  assert (P2 : 2 ^ p = 2 * 2 ^ (p - 1)).
  { replace p with (Z.succ (p - 1)) at 1 by lia. apply Z.pow_succ_r. lia. }
  destruct (Z.lt_trichotomy ex ey) as [L | [-> | G]].
  - rewrite Z.min_l by lia. replace (ex - ex) with 0 by lia. rewrite Z.mul_1_r.
    split; [auto |]. intros _.
    specialize (Ny ltac:(lia)).
    assert (2 <= 2 ^ (ey - ex)).
    { change 2 with (2 ^ 1) at 1. apply Z.pow_le_mono_r; lia. }
    nia.
  - rewrite Z.min_id. replace (ey - ey) with 0 by lia. rewrite !Z.mul_1_r.
    split; [intros H; right; split; [reflexivity | exact H] | intros [H | [_ H]]; [lia | exact H]].
  - rewrite Z.min_r by lia. replace (ey - ey) with 0 by lia. rewrite Z.mul_1_r.
    split; [| intros [H | [H _]]; lia]. intros H. exfalso.
    specialize (Nx ltac:(lia)).
    assert (2 <= 2 ^ (ex - ey)).
    { change 2 with (2 ^ 1) at 1. apply Z.pow_le_mono_r; lia. }
    nia.
Qed.

End Rounding.

(** ** The order of doubles *)

Lemma SFcompare_antisym x y :
  SFcompare y x = option_map CompOpp (SFcompare x y).
Proof.
  destruct x as [sx | sx | | sx mx ex], y as [sy | sy | | sy my ey];
    try destruct sx; try destruct sy; cbn; try reflexivity;
    rewrite (Z.compare_antisym ex ey);
    destruct (ex ?= ey); cbn; try reflexivity;
    change (Pos.compare_cont Eq my mx) with (my ?= mx)%positive;
    change (Pos.compare_cont Eq mx my) with (mx ?= my)%positive;
    rewrite (Pos.compare_antisym mx my); destruct (mx ?= my)%positive; reflexivity.
Qed.

Lemma SFcompare_some x y :
  x <> S754_nan -> y <> S754_nan -> exists c, SFcompare x y = Some c.
Proof.
  destruct x as [sx | sx | | sx mx ex], y as [sy | sy | | sy my ey];
    intros Hx Hy; try congruence; cbn; eauto.
Qed.

Lemma SFleb_total x y :
  x <> S754_nan -> y <> S754_nan -> SFltb x y = false -> SFleb y x = true.
Proof.
  intros Hx Hy. unfold SFltb, SFleb. rewrite (SFcompare_antisym x y).
  destruct (SFcompare_some x y Hx Hy) as [c ->]. destruct c; cbn; congruence.
Qed.

Lemma SFltb_leb x y : SFltb x y = true -> SFleb x y = true.
Proof. unfold SFltb, SFleb. destruct (SFcompare x y) as [[] |]; congruence. Qed.

Lemma SFleb_notNan x y : SFleb x y = true -> x <> S754_nan /\ y <> S754_nan.
Proof.
  destruct x as [sx | sx | | sx mx ex], y as [sy | sy | | sy my ey]; cbn;
    try discriminate; split; discriminate.
Qed.

Ltac order_cases :=
  repeat match goal with
  | H : context [(?a ?= ?b)%Z] |- _ => destruct (Z.compare_spec a b)
  | |- context [(?a ?= ?b)%Z] => destruct (Z.compare_spec a b)
  | H : context [Pos.compare_cont Eq ?a ?b] |- _ =>
      change (Pos.compare_cont Eq a b) with (a ?= b)%positive in *;
      destruct (Pos.compare_spec a b)
  | |- context [Pos.compare_cont Eq ?a ?b] =>
      change (Pos.compare_cont Eq a b) with (a ?= b)%positive in *;
      destruct (Pos.compare_spec a b)
  end.

Lemma SFleb_trans x y z :
  SFleb x y = true -> SFleb y z = true -> SFleb x z = true.
Proof.
  unfold SFleb.
  destruct x as [sx | sx | | sx mx ex], y as [sy | sy | | sy my ey],
           z as [sz | sz | | sz mz ez];
    try destruct sx; try destruct sy; try destruct sz; cbn;
    try reflexivity; try discriminate;
    intros Hxy Hyz; order_cases; cbn in *; subst;
    try reflexivity; try discriminate; try lia.
Qed.

(** ** The sign of a difference *)

Section Difference.

Variables p em : Z.
Hypothesis p_pos : 1 <= p.

Lemma SFsub_ltb x y :
  valid_binary p em x = true -> valid_binary p em y = true ->
  x <> S754_nan -> y <> S754_nan ->
  SFltb (S754_zero false) (SFsub p em y x) = SFltb x y.
Proof.
  destruct x as [sx | sx | | sx mx ex], y as [sy | sy | | sy my ey];
    intros Vx Vy Hx Hy; try congruence;
    try (destruct sx; try destruct sy; reflexivity);
    try (destruct sy; try destruct sx; reflexivity).
  cbn [valid_binary] in Vx, Vy. unfold bounded in Vx, Vy.
  apply andb_true_iff in Vx, Vy. destruct Vx as [Cx _], Vy as [Cy _].
  destruct (canonical_exponent p em p_pos mx ex Cx) as (Ex & _).
  destruct (canonical_exponent p em p_pos my ey Cy) as (Ey & _).
  apply eq_true_iff_eq. unfold SFsub.
  rewrite (binary_normalize_positive p em p_pos) by lia.
  unfold SFltb. cbn [SFcompare].
  destruct sx, sy; cbv beta iota delta [cond_Zopp].
  - pose proof (aligned_lt p em p_pos my ey mx ex Cy Cx) as A.
    destruct (Z.compare_spec ex ey) as [E | L | G].
    + subst. change (Pos.compare_cont Eq mx my) with (mx ?= my)%positive.
      destruct (Pos.compare_spec mx my) as [Em | Lm | Gm]; cbv beta iota; split; intros K;
        try discriminate; try lia; try reflexivity.
    + cbv beta iota. split; [lia | discriminate].
    + cbv beta iota. split; [reflexivity | lia].
  - split; [reflexivity | lia].
  - split; [lia | discriminate].
  - pose proof (aligned_lt p em p_pos mx ex my ey Cx Cy) as A.
    rewrite (Z.min_comm ex ey) in A.
    destruct (Z.compare_spec ex ey) as [E | L | G].
    + subst. change (Pos.compare_cont Eq mx my) with (mx ?= my)%positive.
      destruct (Pos.compare_spec mx my) as [Em | Lm | Gm]; cbv beta iota; split; intros K;
        try discriminate; try lia; try reflexivity.
    + cbv beta iota. split; [reflexivity | lia].
    + cbv beta iota. split; [lia | discriminate].
Qed.

End Difference.

(** ** Primitive doubles *)

Lemma notNan_spec a : PrimFloat.is_nan a = false -> Prim2SF a <> S754_nan.
Proof.
  unfold PrimFloat.is_nan. rewrite FloatAxioms.eqb_spec. intros H E. rewrite E in H. discriminate.
Qed.

Lemma isNan_spec a : Prim2SF a <> S754_nan -> PrimFloat.is_nan a = false.
Proof.
  unfold PrimFloat.is_nan. rewrite FloatAxioms.eqb_spec. intros H. unfold SFeqb.
  destruct (Prim2SF a) as [s | s | | s m e]; try congruence; try (destruct s; reflexivity).
  cbn. destruct s; rewrite Z.compare_refl;
    change (Pos.compare_cont Eq m m) with (m ?= m)%positive;
    rewrite Pos.compare_refl; reflexivity.
Qed.

(** [b - a > 0] exactly when [a < b], for doubles that are not NaN. *)
Lemma sub_ltb a b :
  PrimFloat.is_nan a = false -> PrimFloat.is_nan b = false ->
  PrimFloat.ltb 0 (PrimFloat.sub b a) = PrimFloat.ltb a b.
Proof.
  intros Ha Hb. rewrite !FloatAxioms.ltb_spec, FloatAxioms.sub_spec.
  change (Prim2SF 0) with (S754_zero false).
  apply (SFsub_ltb prec emax); try apply Prim2SF_valid; try now apply notNan_spec.
  unfold prec. lia.
Qed.

Lemma leb_total a b :
  PrimFloat.is_nan a = false -> PrimFloat.is_nan b = false ->
  PrimFloat.ltb a b = false -> PrimFloat.leb b a = true.
Proof.
  intros Ha Hb. rewrite FloatAxioms.ltb_spec, FloatAxioms.leb_spec.
  apply SFleb_total; now apply notNan_spec.
Qed.

Lemma ltb_leb a b : PrimFloat.ltb a b = true -> PrimFloat.leb a b = true.
Proof. rewrite FloatAxioms.ltb_spec, FloatAxioms.leb_spec. apply SFltb_leb. Qed.

Lemma leb_trans a b c :
  PrimFloat.leb a b = true -> PrimFloat.leb b c = true -> PrimFloat.leb a c = true.
Proof. rewrite !FloatAxioms.leb_spec. apply SFleb_trans. Qed.

End FloatFacts.

(** ** The matcher *)

Module RegExpFacts.

Import Highlighter Notions.

Local Open Scope nat_scope.

Lemma rmatch_Star ic r s i cs k :
  rmatch ic (Star r) s i cs k
  = starLoop (fun i cs k => rmatch ic r s i cs k) k (S (List.length s)) i cs.
Proof. reflexivity. Qed.

(** A successful match hands its continuation a position at least
    [minLen r] further on, and inside the string. *)
Lemma rmatch_bounds ic r s : forall i cs k x,
  i <= List.length s ->
  rmatch ic r s i cs k = Some x ->
  exists j cs', i + minLen r <= j /\ j <= List.length s /\ k j cs' = Some x.
Proof.
  induction r as [c | p | r1 IH1 r2 IH2 | r1 IH1 r2 IH2 | r1 IH1 | r1 IH1 | n r1 IH1 | | |];
    intros i cs k x Hi H;
    try rewrite rmatch_Star in H; cbn [rmatch minLen] in *.
  - destruct (nth_error s i) as [d |] eqn:E; [| discriminate].
    destruct (chrEq ic c d); [| discriminate].
    assert (i < List.length s) by (apply nth_error_Some; congruence).
    exists (S i), cs. repeat split; auto; lia.
  - destruct (nth_error s i) as [d |] eqn:E; [| discriminate].
    destruct (p d); [| discriminate].
    assert (i < List.length s) by (apply nth_error_Some; congruence).
    exists (S i), cs. repeat split; auto; lia.
  - apply IH1 in H; auto. destruct H as (j & cs' & Hj & Hl & H).
    apply IH2 in H; auto. destruct H as (j' & cs'' & Hj' & Hl' & H).
    exists j', cs''. repeat split; auto; lia.
  - destruct (rmatch ic r1 s i cs k) as [y |] eqn:E.
    + inversion H; subst. apply IH1 in E; auto.
      destruct E as (j & cs' & Hj & Hl & E). exists j, cs'. repeat split; auto; lia.
    + apply IH2 in H; auto.
      destruct H as (j & cs' & Hj & Hl & E'). exists j, cs'. repeat split; auto; lia.
  - destruct (rmatch ic r1 s i cs _) as [y |] eqn:E.
    + inversion H; subst. apply IH1 in E; auto.
      destruct E as (j & cs' & Hj & Hl & E).
      destruct (j <=? i); [discriminate |]. exists j, cs'. repeat split; auto; lia.
    + exists i, cs. repeat split; auto; lia.
  - revert i cs x Hi H. generalize (S (List.length s)). intros fuel.
    induction fuel as [| fuel IHf]; intros i cs x Hi H; cbn [starLoop] in H.
    + exists i, cs. repeat split; auto; lia.
    + destruct (rmatch ic r1 s i cs _) as [y |] eqn:E.
      * inversion H; subst. apply IH1 in E; auto.
        destruct E as (j & cs' & Hj & Hl & E).
        destruct (j <=? i) eqn:Ej; [discriminate |].
        apply IHf in E; auto. destruct E as (j' & cs'' & Hj' & Hl' & E).
        exists j', cs''. repeat split; auto; lia.
      * exists i, cs. repeat split; auto; lia.
  - apply IH1 in H; auto. destruct H as (j & cs' & Hj & Hl & H).
    eexists j, _. repeat split; eauto.
  - destruct (xorb _ _); [| discriminate]. exists i, cs. repeat split; auto; lia.
  - destruct (i =? 0); [| discriminate]. exists i, cs. repeat split; auto; lia.
  - destruct (i =? List.length s); [| discriminate]. exists i, cs. repeat split; auto; lia.
Qed.

(** The result depends on the continuation only at the positions a match
    can end at. *)
Lemma rmatch_ext ic r s : forall i cs k1 k2,
  i <= List.length s ->
  (forall j cs', i + minLen r <= j -> j <= List.length s -> k1 j cs' = k2 j cs') ->
  rmatch ic r s i cs k1 = rmatch ic r s i cs k2.
Proof.
  induction r as [c | p | r1 IH1 r2 IH2 | r1 IH1 r2 IH2 | r1 IH1 | r1 IH1 | n r1 IH1 | | |];
    intros i cs k1 k2 Hi H;
    try rewrite !rmatch_Star; cbn [rmatch minLen] in *.
  - destruct (nth_error s i) as [d |] eqn:E; auto.
    assert (i < List.length s) by (apply nth_error_Some; congruence).
    destruct (chrEq ic c d); auto. apply H; lia.
  - destruct (nth_error s i) as [d |] eqn:E; auto.
    assert (i < List.length s) by (apply nth_error_Some; congruence).
    destruct (p d); auto. apply H; lia.
  - apply IH1; auto. intros j cs' Hj Hl. apply IH2; auto.
    intros j' cs'' Hj' Hl'. apply H; lia.
  - rewrite (IH1 i cs k1 k2), (IH2 i cs k1 k2); auto; intros j cs' Hj Hl; apply H; lia.
  - rewrite (IH1 i cs _ (fun j cs' => if j <=? i then None else k2 j cs')); auto.
    + rewrite (H i cs); auto; lia.
    + intros j cs' Hj Hl. destruct (j <=? i); auto. apply H; lia.
  - revert i cs Hi H. generalize (S (List.length s)). intros fuel.
    induction fuel as [| fuel IHf]; intros i cs Hi H; cbn [starLoop].
    + apply H; lia.
    + rewrite (IH1 i cs _ (fun j cs' => if j <=? i then None
                                        else starLoop (fun i cs k => rmatch ic r1 s i cs k)
                                               k2 fuel j cs')); auto.
      * rewrite (H i cs); auto; lia.
      * intros j cs' Hj Hl. destruct (j <=? i) eqn:Ej; auto.
        apply Nat.leb_gt in Ej. apply IHf; auto.
        intros j' cs'' Hj' Hl'. apply H; lia.
  - apply IH1; auto.
  - destruct (xorb _ _); auto. apply H; lia.
  - destruct (i =? 0); auto. apply H; lia.
  - destruct (i =? List.length s); auto. apply H; lia.
Qed.

(** The rounds allotted to [r*] are enough: each round consumes something,
    so more rounds change nothing. *)
Lemma starLoop_enough ic r s k : forall fuel i cs extra,
  i <= List.length s -> List.length s < i + fuel ->
  starLoop (fun i cs k => rmatch ic r s i cs k) k (fuel + extra) i cs
  = starLoop (fun i cs k => rmatch ic r s i cs k) k fuel i cs.
Proof.
  induction fuel as [| fuel IH]; intros i cs extra Hi H; [lia |].
  cbn [starLoop Nat.add].
  rewrite (rmatch_ext ic r s i cs _
             (fun j cs' => if j <=? i then None
                           else starLoop (fun i cs k => rmatch ic r s i cs k) k fuel j cs'));
    auto.
  intros j cs' Hj Hl. destruct (j <=? i) eqn:Ej; auto.
  apply Nat.leb_gt in Ej. apply IH; lia.
Qed.

Lemma rmatch_Star_enough ic r s i cs k extra :
  i <= List.length s ->
  starLoop (fun i cs k => rmatch ic r s i cs k) k (S (List.length s) + extra) i cs
  = rmatch ic (Star r) s i cs k.
Proof. intros Hi. rewrite rmatch_Star. apply starLoop_enough; lia. Qed.

Lemma matchAt_bounds ic r s i j cs :
  i <= List.length s -> matchAt ic r s i = Some (j, cs) ->
  i + minLen r <= j /\ j <= List.length s.
Proof.
  intros Hi H. unfold matchAt in H. apply rmatch_bounds in H; auto.
  destruct H as (j' & cs' & Hj & Hl & E). inversion E; subst. auto.
Qed.

Lemma search_bounds ic r s : forall n i m,
  i + n <= List.length s -> search ic r s n i = Some m ->
  i <= mstart m /\ mstart m + minLen r <= mend m /\ mend m <= List.length s.
Proof.
  induction n as [| n IH]; intros i m Hi H; cbn in H;
    destruct (matchAt ic r s i) as [[j cs] |] eqn:E.
  - inversion H; subst; cbn. apply matchAt_bounds in E; lia.
  - discriminate.
  - inversion H; subst; cbn. apply matchAt_bounds in E; lia.
  - apply IH in H; lia.
Qed.

Lemma exec_bounds ic r s from m :
  exec ic r s from = Some m ->
  from <= mstart m /\ mstart m + minLen r <= mend m /\ mend m <= List.length s.
Proof.
  unfold exec. destruct (List.length s <? from) eqn:E; [discriminate |].
  apply Nat.ltb_ge in E. intros H. apply search_bounds in H; lia.
Qed.

(** The [exec] loop ends because [exec] finds nothing more: more rounds
    change nothing. *)
Lemma execAllFrom_enough ic r s : 1 <= minLen r ->
  forall fuel from extra,
  List.length s < from + fuel ->
  execAllFrom (fuel + extra) ic r s from = execAllFrom fuel ic r s from.
Proof.
  intros Hr. induction fuel as [| fuel IH]; intros from extra H.
  - destruct extra as [| extra]; cbn; auto.
    unfold exec. replace (List.length s <? from) with true; auto.
    symmetry. apply Nat.ltb_lt. lia.
  - cbn. destruct (exec ic r s from) as [m |] eqn:E; auto.
    apply exec_bounds in E. rewrite IH by lia. reflexivity.
Qed.

Lemma execAll_enough ic r s extra : 1 <= minLen r ->
  execAllFrom (S (List.length s) + extra) ic r s 0 = execAll ic r s.
Proof. intros Hr. apply execAllFrom_enough; auto. Qed.

Lemma pricePatterns_consume :
  Forall (fun r => 1 <= minLen r) (pricePatterns ++ textPricePatterns).
Proof. repeat constructor. Qed.

(** [replace] with a [g] pattern: the search position grows in every round. *)
Lemma replaceFrom_enough ic r repl s :
  forall fuel copied from extra,
  List.length s < from + fuel ->
  replaceFrom (fuel + extra) ic r repl s copied from
  = replaceFrom fuel ic r repl s copied from.
Proof.
  induction fuel as [| fuel IH]; intros copied from extra H.
  - destruct extra as [| extra]; cbn; auto.
    unfold exec. replace (List.length s <? from) with true; auto.
    symmetry. apply Nat.ltb_lt. lia.
  - cbn. destruct (exec ic r s from) as [m |] eqn:E; auto.
    apply exec_bounds in E. rewrite IH; auto.
    destruct (mend m <=? mstart m) eqn:Em; [| apply Nat.leb_gt in Em]; lia.
Qed.

(** [split] on a pattern that consumes something: the position grows in
    every round. *)
Lemma splitLoop_enough ic r s : 1 <= minLen r ->
  forall fuel p q extra,
  List.length s < q + fuel ->
  splitLoop (fuel + extra) ic r s p q = splitLoop fuel ic r s p q.
Proof.
  intros Hr. induction fuel as [| fuel IH]; intros p q extra H.
  - destruct extra as [| extra]; cbn [splitLoop Nat.add]; auto.
    replace (q <? List.length s) with false; auto.
    symmetry. apply Nat.ltb_ge. lia.
  - cbn [splitLoop Nat.add]. destruct (q <? List.length s) eqn:Eq; auto.
    apply Nat.ltb_lt in Eq.
    destruct (matchAt ic r s q) as [[e cs] |] eqn:E.
    + apply matchAt_bounds in E; [| lia].
      replace (Nat.min e (List.length s)) with e by lia.
      destruct (e =? p); [apply IH; lia |].
      f_equal. apply IH. lia.
    + apply IH. lia.
Qed.

End RegExpFacts.

(** ** The price patterns *)

Module PriceFacts.

Import Highlighter Notions.

Local Open Scope nat_scope.

Lemma rmatch_Str ic w s : forall i cs k,
  w <> [] ->
  rmatch ic (Str w) s i cs k =
  if standsAt ic w s i then k (i + List.length w) cs else None.
Proof.
  induction w as [| c w IH]; intros i cs k Hw; [congruence |].
  destruct w as [| c' w'].
  - cbn. destruct (nth_error s i) as [d |]; auto.
    rewrite andb_true_r, Nat.add_1_r. reflexivity.
  - change (Str (c :: c' :: w')) with (Cat (Chr c) (Str (c' :: w'))).
    cbn [rmatch standsAt].
    destruct (nth_error s i) as [d |]; auto.
    destruct (chrEq ic c d); cbn [andb]; auto.
    rewrite IH by discriminate.
    replace (S i + List.length (c' :: w')) with (i + List.length (c :: c' :: w'))
      by (cbn; lia).
    reflexivity.
Qed.

Lemma chrEq_lower c d :
  lowerOrSpace c = true -> isUpper d = false -> chrEq true c d = true -> c = d.
Proof.
  unfold lowerOrSpace, chrEq, upper, isLower, isUpper, between.
  intros Hc Hd H.
  destruct ((97 <=? c)%N && (c <=? 122)%N) eqn:Ec;
    destruct ((97 <=? d)%N && (d <=? 122)%N) eqn:Ed;
    rewrite ?andb_true_iff, ?andb_false_iff, ?orb_true_iff,
      ?N.leb_le, ?N.leb_gt, ?N.eqb_eq in *; lia.
Qed.

Lemma standsAt_startsWith w : forall s i,
  forallb lowerOrSpace w = true -> noUpper s = true ->
  standsAt true w s i = true -> startsWith w (skipn i s) = true.
Proof.
  induction w as [| c w IH]; intros s i Hw Hs H; cbn in *.
  - destruct (skipn i s); reflexivity.
  - apply andb_true_iff in Hw. destruct Hw as [Hc Hw].
    destruct (nth_error s i) as [d |] eqn:E; [| discriminate].
    apply andb_true_iff in H. destruct H as [Hcd H].
    assert (Hd : isUpper d = false).
    { unfold noUpper in Hs. rewrite forallb_forall in Hs.
      apply nth_error_In in E. apply Hs in E. now apply negb_true_iff in E. }
    apply (chrEq_lower c d Hc Hd) in Hcd. subst d.
    assert (Es : skipn i s = c :: skipn (S i) s).
    { clear - E. revert s E. induction i as [| i IHi]; intros [| a s] E; cbn in *;
        try discriminate.
      - now inversion E.
      - now apply IHi. }
    rewrite Es. cbn [startsWith]. rewrite N.eqb_refl. cbn [andb]. now apply IH.
Qed.

Lemma includes_skipn p s : forall i,
  startsWith p (skipn i s) = true -> includes s p = true.
Proof.
  induction s as [| a s IH]; intros i H.
  - rewrite skipn_nil in H. cbn. now rewrite H.
  - destruct i as [| i]; cbn in *.
    + now rewrite H.
    + rewrite (IH i H). apply orb_true_r.
Qed.

Lemma startsWith_app p q : forall s,
  startsWith (p ++ q) s = true -> startsWith p s = true.
Proof.
  induction p as [| a p IH]; intros [| b s] H; cbn in *; auto; try discriminate.
  apply andb_true_iff in H. destruct H as [-> H]. cbn. now apply IH.
Qed.

Lemma includes_prefix p q : forall s,
  includes s (p ++ q) = true -> includes s p = true.
Proof.
  induction s as [| a s IH]; cbn; intros H.
  - apply orb_true_iff in H. destruct H as [H | H]; [| discriminate].
    apply startsWith_app in H. now rewrite H.
  - apply orb_true_iff in H. destruct H as [H | H].
    + apply startsWith_app in H. now rewrite H.
    + rewrite (IH H). apply orb_true_r.
Qed.

(** Every match found by the [exec] loop is a match at its start. *)
Lemma search_matchAt ic r s : forall n i m,
  search ic r s n i = Some m ->
  matchAt ic r s (mstart m) = Some (mend m, mcaps m).
Proof.
  induction n as [| n IH]; intros i m; cbn;
    destruct (matchAt ic r s i) as [[j cs] |] eqn:E; intros H;
    try (inversion H; subst; cbn; assumption); try discriminate.
  now apply IH in H.
Qed.

Lemma execAllFrom_matchAt ic r s : forall fuel from m,
  In m (execAllFrom fuel ic r s from) ->
  matchAt ic r s (mstart m) = Some (mend m, mcaps m).
Proof.
  induction fuel as [| fuel IH]; intros from m H; cbn in H; [contradiction |].
  destruct (exec ic r s from) as [m0 |] eqn:E; [| contradiction].
  destruct H as [<- | H].
  - unfold exec in E. destruct (List.length s <? from); [discriminate |].
    now apply search_matchAt in E.
  - now apply IH in H.
Qed.

(** A match of the first pattern begins with one of its words. *)
Lemma pricePattern1_word s i x :
  matchAt true pricePattern1 s i = Some x ->
  exists w, In w (map lit ["under"; "below"; "less than"; "max"; "maximum"]%string)
            /\ standsAt true w s i = true.
Proof.
  unfold matchAt, pricePattern1, maxWordsRe. cbn [Alts rmatch].
  rewrite !rmatch_Str by discriminate.
  intros H.
  repeat match type of H with
  | context [standsAt true ?w s i] =>
      destruct (standsAt true w s i) eqn:?;
      [ exists w; split; [cbn; tauto | assumption] | ]
  end.
  discriminate.
Qed.

Lemma maxWord_constraintType w s i :
  In w (map lit ["under"; "below"; "less than"; "max"; "maximum"]%string) ->
  noUpper s = true -> standsAt true w s i = true ->
  constraintType s = Max.
Proof.
  intros Hw Hs H.
  assert (Hinc : includes s w = true).
  { apply includes_skipn with i. apply standsAt_startsWith; auto.
    cbn in Hw. repeat (destruct Hw as [<- | Hw]; [reflexivity |]). contradiction. }
  unfold constraintType.
  cbn [map In] in Hw. destruct Hw as [<- | [<- | [<- | [<- | [<- | []]]]]].
  - now rewrite Hinc.
  - rewrite Hinc. now rewrite orb_true_r.
  - change (lit "less than") with (lit "less" ++ lit " than") in Hinc.
    apply includes_prefix in Hinc. rewrite Hinc. now rewrite !orb_true_r.
  - rewrite Hinc. now rewrite !orb_true_r.
  - change (lit "maximum") with (lit "max" ++ lit "imum") in Hinc.
    apply includes_prefix in Hinc. rewrite Hinc. now rewrite !orb_true_r.
Qed.

Lemma constraintOfMatch_type prompt m c :
  In c (constraintOfMatch prompt m) -> pc_type c = constraintType prompt.
Proof.
  unfold constraintOfMatch.
  destruct (parseFloat _); cbn; intros H; [| contradiction].
  destruct H as [<- | []]. reflexivity.
Qed.

Lemma constraintsOfPattern_type pattern prompt c :
  In c (constraintsOfPattern pattern prompt) -> pc_type c = constraintType prompt.
Proof.
  unfold constraintsOfPattern. intros H. apply in_flat_map in H.
  destruct H as (m & _ & H). now apply constraintOfMatch_type in H.
Qed.

Lemma extractPriceConstraints_type prompt c :
  In c (extractPriceConstraints prompt) -> pc_type c = constraintType prompt.
Proof.
  unfold extractPriceConstraints. intros H. apply in_flat_map in H.
  destruct H as (p & _ & H). now apply constraintsOfPattern_type in H.
Qed.

(** ASCII lower-casing leaves no upper-case ASCII letter. *)
Lemma asciiLower_noUpper s : noUpper (asciiLower s) = true.
Proof.
  unfold noUpper, asciiLower. rewrite forallb_forall. intros c Hc.
  apply in_map_iff in Hc. destruct Hc as (d & <- & _).
  unfold isUpper, between.
  destruct ((65 <=? d)%N && (d <=? 90)%N) eqn:E.
  - apply negb_true_iff, andb_false_iff. right. apply N.leb_gt.
    apply andb_true_iff in E. destruct E as [E1 E2]. apply N.leb_le in E1. lia.
  - now rewrite E.
Qed.

Lemma pattern1_max prompt c :
  noUpper prompt = true ->
  In c (constraintsOfPattern pricePattern1 prompt) -> pc_type c = Max.
Proof.
  intros Hs H. rewrite (constraintsOfPattern_type _ _ _ H).
  unfold constraintsOfPattern in H. apply in_flat_map in H.
  destruct H as (m & Hm & _).
  apply execAllFrom_matchAt in Hm. apply pricePattern1_word in Hm.
  destruct Hm as (w & Hw & Hst).
  now apply (maxWord_constraintType w prompt (mstart m)).
Qed.

End PriceFacts.

(** ** The scorer *)

Module ScorerFacts.

Import Highlighter Notions.

Local Open Scope Q_scope.

Section WithHost.

Variable toLowerCase : jsstring -> jsstring.
Variable hostRegExp : jsstring -> option RegExpObj.
Variable highPerformingKeywords : list jsstring.

Local Abbreviation wordTest := (wordTest hostRegExp).
Local Abbreviation analyzeQuery := (analyzeQuery toLowerCase hostRegExp).
Local Abbreviation checkCoreRequirements := (checkCoreRequirements toLowerCase hostRegExp).
Local Abbreviation calculateMatchScore :=
  (calculateMatchScore toLowerCase hostRegExp highPerformingKeywords).
Local Abbreviation calculateMatchScore_try :=
  (calculateMatchScore_try toLowerCase hostRegExp highPerformingKeywords).
Local Abbreviation subScores := (subScores toLowerCase hostRegExp).

Lemma wordTest_plain w text :
  isPlain w = true -> wordTest w text = Some (test true (wordRe w) text).
Proof. intros H. unfold Highlighter.wordTest, newWordRegExp. now rewrite H. Qed.

Lemma colorVocabulary_plain : forallb isPlain colorVocabulary = true.
Proof. vm_compute. reflexivity. Qed.

Lemma extractColors_plain prompt c :
  In c (extractColors prompt) -> isPlain c = true.
Proof.
  unfold extractColors. intros H. apply filter_In in H. destruct H as [H _].
  pose proof colorVocabulary_plain as P. rewrite forallb_forall in P. now apply P.
Qed.

Lemma analyzeQuery_colors userPrompt qa :
  analyzeQuery userPrompt = Some qa ->
  colors qa = extractColors (toLowerCase userPrompt).
Proof.
  unfold Highlighter.analyzeQuery, bind.
  destruct (cleanQuery _ _ _ _ _ _); intros H; inversion H; reflexivity.
Qed.

(** When no colour of the query stands in the text as a word, [some] finds
    none. *)
Lemma someM_colors text cs :
  (forall c, In c cs -> isPlain c = true /\ test true (wordRe c) text = false) ->
  someM (fun color => wordTest color text) cs = Some false.
Proof.
  induction cs as [| c cs IH]; intros H; cbn; auto.
  destruct (H c (or_introl eq_refl)) as [Hp Ht].
  rewrite (wordTest_plain c text Hp), Ht. cbn.
  apply IH. intros c' Hc'. apply H. now right.
Qed.

Lemma checkCoreRequirements_colors productText qa :
  colors qa <> [] ->
  (forall c, In c (colors qa) ->
     isPlain c = true /\ test true (wordRe c) productText = false) ->
  checkCoreRequirements productText qa = Some false.
Proof.
  intros Hne H. unfold Highlighter.checkCoreRequirements.
  match goal with |- context [if ?c then _ else _] => destruct c end; auto.
  destruct (colors qa) as [| c cs] eqn:E; [congruence |].
  cbn [isEmpty]. rewrite someM_colors by assumption. reflexivity.
Qed.

Lemma colour_gate productText userPrompt :
  extractColors (toLowerCase userPrompt) <> [] ->
  (forall c, In c (extractColors (toLowerCase userPrompt)) ->
     test true (wordRe c) productText = false) ->
  calculateMatchScore productText userPrompt = 0.
Proof.
  intros Hne Hno.
  unfold Highlighter.calculateMatchScore, Highlighter.calculateMatchScore_try, bind.
  destruct (analyzeQuery userPrompt) as [qa |] eqn:Eqa; [| reflexivity].
  pose proof (analyzeQuery_colors _ _ Eqa) as Ec.
  destruct (checkAllRequiredCriteria _ _ _ _) as [criteria |]; [| reflexivity].
  assert (Hemp : isEmpty (colors qa) = false).
  { rewrite Ec. destruct (extractColors _); [congruence | reflexivity]. }
  rewrite Hemp, andb_false_r. cbn [andb].
  rewrite checkCoreRequirements_colors; [reflexivity | now rewrite Ec |].
  rewrite Ec. intros c Hc. split; [now apply extractColors_plain in Hc | now apply Hno].
Qed.

(** *** [analyzeQuery] never throws *)

Lemma foldM_removeWord ws :
  (forall w, In w ws -> isPlain w = true) ->
  forall s, exists s', foldM (removeWord hostRegExp) ws s = Some s'.
Proof.
  induction ws as [| w ws IH]; intros H s; cbn; eauto.
  unfold removeWord at 1, newWordRegExp. rewrite (H w (or_introl eq_refl)). cbn.
  apply IH. intros w' Hw'. apply H. now right.
Qed.

Lemma forallb_In {A : Type} (f : A -> bool) l x :
  forallb f l = true -> In x l -> f x = true.
Proof. intros H. rewrite forallb_forall in H. apply H. Qed.

Lemma extractBrands_plain prompt b : In b (extractBrands prompt) -> isPlain b = true.
Proof.
  unfold extractBrands. intros H. apply filter_In in H. destruct H as [H _].
  revert H. apply forallb_In. vm_compute. reflexivity.
Qed.

Lemma extractAttributes_plain prompt a :
  In a (extractAttributes prompt) -> isPlain (attr_value a) = true.
Proof.
  unfold extractAttributes. intros H. apply in_flat_map in H.
  destruct H as ([ty ws] & Ht & H). apply in_flat_map in H.
  destruct H as (w & Hw & H).
  destruct (includes prompt w); [| contradiction]. destruct H as [<- | []]. cbn.
  assert (P : forallb (fun e => forallb isPlain (snd e)) attributeTable = true)
    by (vm_compute; reflexivity).
  apply (forallb_In _ _ _ P) in Ht. cbn in Ht. now apply (forallb_In _ _ _ Ht).
Qed.

Lemma analyzeQuery_total userPrompt : exists qa, analyzeQuery userPrompt = Some qa.
Proof.
  unfold Highlighter.analyzeQuery, cleanQuery, bind.
  set (prompt := toLowerCase userPrompt).
  destruct (foldM_removeWord priceWords) with (s := prompt) as (s1 & ->).
  { intros w. apply forallb_In. vm_compute. reflexivity. }
  match goal with |- context [foldM _ (extractBrands prompt) ?t] =>
    destruct (foldM_removeWord (extractBrands prompt)
                (fun w => extractBrands_plain prompt w) t) as (s2 & ->) end.
  destruct (foldM_removeWord (extractColors prompt)) with (s := s2) as (s3 & ->).
  { intros w. apply extractColors_plain. }
  destruct (foldM_removeWord (map attr_value (extractAttributes prompt))) with (s := s3)
    as (s4 & ->).
  { intros w Hw. apply in_map_iff in Hw. destruct Hw as (a & <- & Ha).
    now apply extractAttributes_plain in Ha. }
  destruct (foldM_removeWord filterWords) with (s := s4) as (s5 & ->).
  { intros w. apply forallb_In. vm_compute. reflexivity. }
  eauto.
Qed.

(** *** Bounds *)

Lemma ratio_nonneg m n : 0 <= ratio m n.
Proof.
  unfold ratio. destruct n as [| n].
  - cbn. unfold Qdiv, Qinv. cbn. rewrite Qmult_0_r. apply Qle_refl.
  - apply Qle_shift_div_l.
    + unfold Qlt; cbn. lia.
    + rewrite Qmult_0_l. unfold Qle; cbn. lia.
Qed.

Lemma ratio_le_1 m n : (m <= n)%nat -> (0 < n)%nat -> ratio m n <= 1.
Proof.
  intros Hm Hn. unfold ratio. apply Qle_shift_div_r.
  - unfold Qlt; cbn. lia.
  - rewrite Qmult_1_l. unfold Qle; cbn. lia.
Qed.

Lemma calculateExactScore_nonneg text kws q :
  calculateExactScore hostRegExp text kws = Some q -> 0 <= q.
Proof.
  unfold calculateExactScore, bind. destruct (isEmpty kws).
  - intros H; inversion H. apply Qle_refl.
  - destruct (filterM _ _); intros H; inversion H. apply ratio_nonneg.
Qed.

Lemma calculateColorScore_nonneg text cs q :
  calculateColorScore hostRegExp text cs = Some q -> 0 <= q.
Proof.
  unfold calculateColorScore, bind. destruct (isEmpty cs).
  - intros H; inversion H. discriminate.
  - destruct (filterM _ _); intros H; inversion H. apply ratio_nonneg.
Qed.

Lemma calculateAttributeScore_nonneg text ats q :
  calculateAttributeScore hostRegExp text ats = Some q -> 0 <= q.
Proof.
  unfold calculateAttributeScore, bind. destruct (isEmpty ats).
  - intros H; inversion H. discriminate.
  - destruct (filterM _ _); intros H; inversion H. apply ratio_nonneg.
Qed.

Lemma Qsum_nonneg a b : 0 <= a -> 0 <= b -> 0 <= a + b.
Proof.
  intros Ha Hb. setoid_replace 0 with (0 + 0) by reflexivity.
  now apply Qplus_le_compat.
Qed.

Lemma subScores_nonneg productText qa sc :
  subScores productText qa = Some sc -> allNonneg sc.
Proof.
  unfold Highlighter.subScores, bind.
  destruct (calculateExactScore _ _ _) as [ex |] eqn:Ex; [| discriminate].
  destruct (calculateColorScore _ _ _) as [co |] eqn:Eco; [| discriminate].
  destruct (calculateAttributeScore _ _ _) as [at_ |] eqn:Eat; [| discriminate].
  intros H; inversion H; subst; clear H. unfold allNonneg; cbn.
  repeat split.
  - unfold calculateKeywordScore. destruct (isEmpty _); [apply Qle_refl | apply ratio_nonneg].
  - eapply calculateExactScore_nonneg; eassumption.
  - unfold calculateSemanticSimilarity. apply ratio_nonneg.
  - unfold calculatePriceScore.
    repeat match goal with |- context [if ?c then _ else _] => destruct c end; discriminate.
  - unfold calculateBrandScore. destruct (isEmpty _); [discriminate | apply ratio_nonneg].
  - unfold calculateCategoryScore. destruct (isEmpty _); discriminate.
  - eapply calculateColorScore_nonneg; eassumption.
  - eapply calculateAttributeScore_nonneg; eassumption.
Qed.

Lemma weights_nonneg qa : allNonneg (getAdaptiveWeights qa).
Proof.
  unfold getAdaptiveWeights.
  destruct (hasPrice qa), (hasBrand qa), (hasColor qa), (hasAttributes qa);
    vm_compute; repeat split; discriminate.
Qed.

Lemma combineScores_nonneg sc w :
  allNonneg sc -> allNonneg w -> 0 <= combineScores sc w.
Proof.
  unfold allNonneg, combineScores, entries.
  intros (H1 & H2 & H3 & H4 & H5 & H6 & H7 & H8) (W1 & W2 & W3 & W4 & W5 & W6 & W7 & W8).
  cbn.
  repeat (apply Qsum_nonneg; [| now apply Qmult_le_0_compat]).
  apply Qle_refl.
Qed.

Lemma boost_nonneg kws :
  0 <= calculateHighPerformingBoost highPerformingKeywords kws.
Proof.
  unfold calculateHighPerformingBoost. apply Qmult_le_0_compat; [| discriminate].
  unfold Qle; cbn. lia.
Qed.

Lemma simpleMatch_range productLower userPrompt :
  0 <= simpleMatch toLowerCase productLower userPrompt <= 1.
Proof.
  unfold simpleMatch.
  match goal with |- context [ratio ?m ?n] =>
    assert (H0 : 0 <= ratio m n) by apply ratio_nonneg;
    assert (H1 : ratio m n <= 1)
  end.
  { apply ratio_le_1; [| lia].
    etransitivity; [apply filter_length_le | apply Nat.le_max_l]. }
  destruct (Qlt_le_dec _ _); split; auto; discriminate.
Qed.

Lemma score_range productText userPrompt :
  0 <= calculateMatchScore productText userPrompt <= 1.
Proof.
  unfold Highlighter.calculateMatchScore, Highlighter.calculateMatchScore_try, bind.
  destruct (analyzeQuery userPrompt) as [qa |]; [| split; discriminate].
  destruct (checkAllRequiredCriteria _ _ _ _) as [criteria |]; [| split; discriminate].
  match goal with |- context [if ?c then _ else _] => destruct c end.
  - apply simpleMatch_range.
  - destruct (checkCoreRequirements _ _) as [[|] |]; cbn [negb]; try (split; discriminate).
    destruct (subScores _ _) as [sc |] eqn:Es; [| split; discriminate].
    split.
    + apply Q.min_glb; [| discriminate].
      apply Qsum_nonneg; [| apply boost_nonneg].
      apply combineScores_nonneg; [eapply subScores_nonneg; eassumption | apply weights_nonneg].
    + apply Q.le_min_r.
Qed.

End WithHost.

End ScorerFacts.

(** ** Claims about the scorer *)

Module ScorerClaims.

Import Highlighter Notions.

Local Open Scope Q_scope.

(** C1.  Whenever the analysis of the query holds at least one colour and
    none of its colours stands in the product text as a whole word (the
    test [\bcolour\b], case-insensitive), [calculateMatchScore] returns 0,
    whatever the keywords do. *)
Theorem C1_missing_colour_scores_zero
    (toLowerCase : jsstring -> jsstring) (hostRegExp : jsstring -> option RegExpObj)
    (highPerformingKeywords : list jsstring)
    (productText userPrompt : jsstring) (queryAnalysis : QueryAnalysis) :
  analyzeQuery toLowerCase hostRegExp userPrompt = Some queryAnalysis ->
  colors queryAnalysis <> [] ->
  (forall c, In c (colors queryAnalysis) -> test true (wordRe c) productText = false) ->
  calculateMatchScore toLowerCase hostRegExp highPerformingKeywords productText userPrompt = 0.
Proof.
  intros Eqa Hne Hno.
  rewrite (ScorerFacts.analyzeQuery_colors _ _ _ _ Eqa) in Hne, Hno.
  now apply ScorerFacts.colour_gate.
Qed.

(** Scenario B of the specification: "white sneakers" against a grey
    sneaker. *)
Lemma C1_witness :
  analyzeQuery asciiLower noHost (lit "white sneakers") = Some whiteSneakers
  /\ colors whiteSneakers <> []
  /\ calculateMatchScore asciiLower noHost []
       (lit "PULL&BEAR - Sneaker low - grey") (lit "white sneakers") = 0.
Proof.
  assert (E : analyzeQuery asciiLower noHost (lit "white sneakers") = Some whiteSneakers)
    by (vm_compute; reflexivity).
  assert (N : colors whiteSneakers <> []) by (vm_compute; discriminate).
  split; [exact E | split; [exact N |]].
  apply (C1_missing_colour_scores_zero asciiLower noHost []
           (lit "PULL&BEAR - Sneaker low - grey") (lit "white sneakers") whiteSneakers E N).
  intros c Hc. vm_compute in Hc. destruct Hc as [<- | []]. vm_compute. reflexivity.
Defined.

(** Scenario A of the specification: the same query against a white
    sneaker passes the requirements and scores above 0. *)
Example white_sneaker_scores :
  calculateMatchScore asciiLower noHost []
    (lit "Nike - Sneaker low - white") (lit "white sneakers") == 45 # 100.
Proof. vm_compute. reflexivity. Qed.

(** A keyword with pattern syntax makes [new RegExp] throw in
    [calculateExactScore]; the [catch] clause answers 0. *)
Example syntax_error_scores_zero :
  calculateMatchScore asciiLower noHost [] (lit "c++ book") (lit "c++ book") = 0.
Proof. vm_compute. reflexivity. Qed.

(** C6.  [calculateMatchScore] returns a number in [[0, 1]]; each of the
    eight sub-scores is non-negative; the weighted sum plus the boost is cut
    at 1; and an exception inside the [try] block gives 0. *)
Theorem C6_score_in_unit_interval
    (toLowerCase : jsstring -> jsstring) (hostRegExp : jsstring -> option RegExpObj)
    (highPerformingKeywords : list jsstring)
    (productText userPrompt : jsstring) (queryAnalysis : QueryAnalysis) :
  0 <= calculateMatchScore toLowerCase hostRegExp highPerformingKeywords productText userPrompt <= 1
  /\ match subScores toLowerCase hostRegExp productText queryAnalysis with
     | Some scores =>
         allNonneg scores
         /\ Qmin (combineScores scores (getAdaptiveWeights queryAnalysis)
                  + calculateHighPerformingBoost highPerformingKeywords
                      (keywords queryAnalysis)) 1 <= 1
     | None => True
     end
  /\ match calculateMatchScore_try toLowerCase hostRegExp highPerformingKeywords
             productText userPrompt with
     | Some score =>
         calculateMatchScore toLowerCase hostRegExp highPerformingKeywords
           productText userPrompt = score
     | None =>
         calculateMatchScore toLowerCase hostRegExp highPerformingKeywords
           productText userPrompt = 0
     end.
Proof.
  split; [apply ScorerFacts.score_range |]. split.
  - destruct (subScores _ _ _ _) as [scores |] eqn:E; [| exact I].
    split; [now apply ScorerFacts.subScores_nonneg in E | apply Q.le_min_r].
  - unfold calculateMatchScore.
    destruct (calculateMatchScore_try _ _ _ _ _); reflexivity.
Qed.

(** Where the code types a constraint as the specification says: a
    constraint read by the "under/below/less than/max" pattern from a
    lower-cased prompt has type [max]; a constraint read by the
    "above/over/more than/min" pattern has type [min] when the prompt
    contains none of "under", "below", "less" and "max". *)
Lemma types_on_unmixed_prompts (prompt : jsstring) (c : PriceConstraint) :
  (noUpper prompt = true ->
   In c (constraintsOfPattern pricePattern1 prompt) -> pc_type c = Max)
  /\ (includes prompt (lit "under") || includes prompt (lit "below")
        || includes prompt (lit "less") || includes prompt (lit "max") = false ->
      In c (constraintsOfPattern pricePattern2 prompt) -> pc_type c = Min).
Proof.
  split.
  - intros Hs H1. now apply PriceFacts.pattern1_max with prompt.
  - intros Hn H2. rewrite (PriceFacts.constraintsOfPattern_type _ _ _ H2).
    unfold constraintType. now rewrite Hn.
Qed.

Example types_of_under_and_above :
  constraintsOfPattern pricePattern1 (lit "shoes under $100")
  = [mkConstraint Max 100 (lit "$")]
  /\ constraintsOfPattern pricePattern2 (lit "sneakers above 50")
     = [mkConstraint Min 50 (lit "50")].
Proof. split; vm_compute; reflexivity. Qed.

(** C8.  At the prompt "sneakers over 50 under 100" the constraint that the
    "above/over/more than/min" pattern reads from "over 50" has type [max]:
    [extractPriceConstraints] looks for the words of the "under" pattern in
    the whole prompt instead of the phrase matched, and returns two upper
    bounds, 100 and 50. *)
Theorem C8_over_is_typed_max :
  constraintsOfPattern pricePattern2 (lit "sneakers over 50 under 100")
  = [mkConstraint Max 50 (lit "50")]
  /\ extractPriceConstraints (lit "sneakers over 50 under 100")
     = [mkConstraint Max 100 (lit "100"); mkConstraint Max 50 (lit "50")]
  /\ ~ typesFollowPatterns (lit "sneakers over 50 under 100").
Proof.
  assert (E : constraintsOfPattern pricePattern2 (lit "sneakers over 50 under 100")
              = [mkConstraint Max 50 (lit "50")]) by (vm_compute; reflexivity).
  split; [exact E |]. split; [vm_compute; reflexivity |].
  intros [_ H].
  specialize (H (mkConstraint Max 50 (lit "50"))).
  rewrite E in H. specialize (H (or_introl eq_refl)). discriminate.
Qed.

End ScorerClaims.

(** ** Exact arithmetic *)

Module ExactFacts.

Import RAG Notions.

Local Open Scope R_scope.

Lemma Q2R_zero : Q2R 0 = 0.
Proof. unfold Q2R; cbn; lra. Qed.

Lemma zero_exact : zero Num.Exact = 0.
Proof. exact Q2R_zero. Qed.

Lemma cauchy_product d p q a b :
  0 <= p -> 0 <= q -> d * d <= p * q ->
  (d + a * b) * (d + a * b) <= (p + a * a) * (q + b * b).
Proof.
  intros Hp Hq Hd.
  destruct (Req_dec p 0) as [Hp0 | Hp0].
  - subst p. assert (d = 0) by nra. subst d. nra.
  - assert (0 < p) by lra.
    assert (HX : 0 <= p * (p * (b * b) + q * (a * a) - 2 * d * (a * b))).
    { replace (p * (p * (b * b) + q * (a * a) - 2 * d * (a * b)))
        with ((p * b - d * a) * (p * b - d * a) + (p * q - d * d) * (a * a))
        by ring.
      pose proof (Rle_0_sqr (p * b - d * a)) as H1. unfold Rsqr in H1.
      assert (0 <= (p * q - d * d) * (a * a)).
      { apply Rmult_le_pos; [lra | ].
        pose proof (Rle_0_sqr a) as H2. unfold Rsqr in H2. lra. }
      lra. }
    assert (0 <= p * (b * b) + q * (a * a) - 2 * d * (a * b)).
    { apply Rmult_le_reg_l with p; [assumption | lra]. }
    lra.
Qed.

Lemma cauchy_step d p q a b :
  cauchy (d, p, q) -> cauchy (d + a * b, p + a * a, q + b * b).
Proof.
  unfold cauchy; intros (Hp & Hq & Hd).
  pose proof (Rle_0_sqr a) as Ha. pose proof (Rle_0_sqr b) as Hb.
  unfold Rsqr in Ha, Hb.
  repeat split; try lra.
  now apply cauchy_product.
Qed.

Lemma cosineLoop_cauchy v1 : forall v2 acc,
  cauchy acc -> cauchy (cosineLoop Num.Exact v1 v2 acc).
Proof.
  induction v1 as [| a v1 IH]; intros [| b v2] [[d p] q] H; cbn; auto.
  apply IH. now apply cauchy_step.
Qed.

Lemma cosineOfSums_range acc :
  cauchy acc -> -1 <= cosineOfSums Num.Exact acc <= 1.
Proof.
  destruct acc as [[d p] q]; intros (Hp & Hq & Hd).
  unfold cosineOfSums; cbn.
  destruct (Req_dec_T (R_sqrt.sqrt p) 0) as [E1 | N1]; cbn; [rewrite Q2R_zero; lra |].
  destruct (Req_dec_T (R_sqrt.sqrt q) 0) as [E2 | N2]; cbn; [rewrite Q2R_zero; lra |].
  pose proof (sqrt_pos p) as Sp. pose proof (sqrt_pos q) as Sq.
  pose proof (sqrt_sqrt p Hp) as Ep. pose proof (sqrt_sqrt q Hq) as Eq.
  set (x := R_sqrt.sqrt p) in *. set (y := R_sqrt.sqrt q) in *.
  assert (0 < x * y) by nra.
  assert (d * d <= (x * y) * (x * y)) by nra.
  split.
  - apply Rmult_le_reg_r with (x * y); [assumption |].
    unfold Rdiv. rewrite Rmult_assoc, Rinv_l by lra. nra.
  - apply Rmult_le_reg_r with (x * y); [assumption |].
    unfold Rdiv. rewrite Rmult_assoc, Rinv_l by lra. nra.
Qed.

Lemma cosineLoop_self v : forall s,
  exists t, cosineLoop Num.Exact v v (s, s, s) = (t, t, t) /\ s <= t
            /\ (0 <= s -> Exists (fun x => x <> 0) v -> 0 < t).
Proof.
  induction v as [| a v IH]; intros s; cbn.
  - exists s. repeat split; try lra. intros _ H; inversion H.
  - destruct (IH (s + a * a)) as (t & E & L & P).
    exists t. repeat split; auto; try nra.
    intros Hs H. inversion H; subst.
    + assert (0 < a * a) by nra. lra.
    + apply P; auto. nra.
Qed.

Lemma cosineLoop_zero v : forall z acc,
  Forall (fun x => x = 0) z ->
  snd (cosineLoop Num.Exact v z acc) = snd acc.
Proof.
  induction v as [| a v IH]; intros [| b z] [[d p] q] H; cbn; auto.
  inversion H; subst. rewrite IH by assumption. cbn. lra.
Qed.

(** Range, self-similarity and similarity to a zero vector, in exact
    arithmetic. *)
Lemma cosine_range v1 v2 : -1 <= cosineSimilarity Num.Exact v1 v2 <= 1.
Proof.
  unfold cosineSimilarity. apply cosineOfSums_range, cosineLoop_cauchy.
  rewrite zero_exact. cbn. lra.
Qed.

Lemma cosine_self v :
  Exists (fun x => x <> 0) v -> cosineSimilarity Num.Exact v v = 1.
Proof.
  intros H. unfold cosineSimilarity.
  destruct (cosineLoop_self v (zero Num.Exact)) as (t & E & _ & P).
  rewrite E. rewrite zero_exact in P. specialize (P (Rle_refl 0) H).
  unfold cosineOfSums; cbn.
  assert (0 < R_sqrt.sqrt t) by now apply sqrt_lt_R0.
  destruct (Req_dec_T (R_sqrt.sqrt t) 0) as [E0 | _]; [lra |]. cbn.
  rewrite sqrt_sqrt by lra. field. lra.
Qed.

Lemma cosine_zero v z :
  Forall (fun x => x = 0) z -> cosineSimilarity Num.Exact v z = 0.
Proof.
  intros H. unfold cosineSimilarity.
  pose proof (cosineLoop_zero v z (zero Num.Exact, zero Num.Exact, zero Num.Exact) H) as E.
  destruct (cosineLoop Num.Exact v z _) as [[d p] q]. cbn in E. subst q.
  unfold cosineOfSums; cbn. rewrite Q2R_zero, sqrt_0.
  destruct (Req_dec_T 0 0) as [_ | N]; [| lra].
  rewrite orb_true_r. reflexivity.
Qed.

(** *** The fallback embedding *)

Lemma fold_sumsq l : forall a,
  fold_left (fun sum val => Num.add Num.Exact sum (Num.mul Num.Exact val val)) l a
  = a + sumsq l.
Proof.
  induction l as [| x l IH]; intros a; cbn.
  - lra.
  - rewrite IH. cbn. lra.
Qed.

Lemma l2norm_exact l : l2norm Num.Exact l = R_sqrt.sqrt (sumsq l).
Proof.
  unfold l2norm. rewrite fold_sumsq. cbn. rewrite Q2R_zero. f_equal. lra.
Qed.

Lemma sumsq_nonneg l : 0 <= sumsq l.
Proof.
  induction l as [| x l IH]; cbn; [lra |].
  pose proof (Rle_0_sqr x) as H. unfold Rsqr in H. lra.
Qed.

Lemma sumsq_pos l : Exists (fun x => x <> 0) l -> 0 < sumsq l.
Proof.
  induction 1 as [x l H | x l _ IH]; cbn.
  - pose proof (sumsq_nonneg l). assert (0 < x * x) by nra. lra.
  - pose proof (Rle_0_sqr x) as H. unfold Rsqr in H. lra.
Qed.

Lemma sumsq_zero l : Forall (fun x => x = 0) l -> sumsq l = 0.
Proof. induction 1 as [| x l H _ IH]; cbn; [| subst; rewrite IH]; lra. Qed.

Lemma sumsq_scale c l : sumsq (map (fun x => x / c) l) = sumsq l / (c * c).
Proof.
  destruct (Req_dec c 0) as [-> | Hc].
  - induction l as [| x l IH]; cbn.
    + unfold Rdiv. lra.
    + rewrite IH. unfold Rdiv. rewrite Rmult_0_l, Rinv_0. lra.
  - induction l as [| x l IH]; cbn.
    + unfold Rdiv. lra.
    + rewrite IH. field. assumption.
Qed.

(** Normalisation in exact arithmetic. *)
Lemma normalize_exact l :
  normalize Num.Exact l =
  if Rlt_dec 0 (R_sqrt.sqrt (sumsq l))
  then map (fun x => x / R_sqrt.sqrt (sumsq l)) l else l.
Proof.
  unfold normalize. rewrite l2norm_exact. unfold zero. cbn. rewrite Q2R_zero.
  destruct (Rlt_dec 0 (R_sqrt.sqrt (sumsq l))); reflexivity.
Qed.

Lemma normalize_unit l :
  Exists (fun x => x <> 0) l -> l2norm Num.Exact (normalize Num.Exact l) = 1.
Proof.
  intros H. pose proof (sumsq_pos l H) as Hp.
  assert (Hs : 0 < R_sqrt.sqrt (sumsq l)) by now apply sqrt_lt_R0.
  rewrite normalize_exact.
  destruct (Rlt_dec 0 (R_sqrt.sqrt (sumsq l))) as [_ | N]; [| lra].
  rewrite l2norm_exact, sumsq_scale, sqrt_sqrt by lra.
  replace (sumsq l / sumsq l) with 1 by (field; lra).
  apply sqrt_1.
Qed.

Lemma normalize_zero l :
  Forall (fun x => x = 0) l -> normalize Num.Exact l = l.
Proof.
  intros H. rewrite normalize_exact, (sumsq_zero l H), sqrt_0.
  destruct (Rlt_dec 0 0) as [N | _]; [lra | reflexivity].
Qed.

(** *** Components are never negative *)

Lemma setAt_length {A : Type} (v : A) arr : forall i,
  List.length (setAt i v arr) = List.length arr.
Proof.
  induction arr as [| a arr IH]; intros [| i]; cbn; auto.
Qed.


Lemma Q2R_nat i : Q2R (inject_Z (Z.of_nat i)) = INR i.
Proof.
  unfold Q2R; cbn. rewrite INR_IZR_INZ. lra.
Qed.












End ExactFacts.

(** ** The shape of the embedding *)

Module LengthFacts.

Import RAG Notions.

Section AnyArithmetic.

Variable ops : Num.Ops.
Variable toLowerCase : jsstring -> jsstring.

Lemma scoreCategory_length cleanText st category :
  List.length (fst (scoreCategory ops cleanText st category)) = List.length (fst st).
Proof.
  unfold scoreCategory. generalize (seq 0 10) as is_. intros is_. revert st.
  induction is_ as [| i is_ IH]; intros [emb idx]; cbn [fold_left]; auto.
  rewrite IH. match goal with |- context [if ?c then _ else _] => destruct c end;
    cbn [fst]; auto. apply ExactFacts.setAt_length.
Qed.

Lemma addWord_length index embedding word :
  List.length (addWord ops index embedding word) = List.length embedding.
Proof.
  unfold addWord. match goal with |- context [if ?c then _ else _] => destruct c end; auto.
  apply ExactFacts.setAt_length.
Qed.

(** The vector has 300 components whatever the text. *)
Lemma rawEmbedding_length text :
  List.length (rawEmbedding ops toLowerCase text) = 300%nat.
Proof.
  unfold rawEmbedding.
  assert (G : forall cats st,
            List.length (fst (fold_left (scoreCategory ops (toLowerCase text)) cats st))
            = List.length (fst st)).
  { induction cats as [| c cats IH]; intros st; cbn [fold_left]; auto.
    rewrite IH. apply scoreCategory_length. }
  specialize (G categories (repeat (zero ops) 300, 0%nat)).
  destruct (fold_left (scoreCategory ops (toLowerCase text)) categories _) as [emb idx].
  cbn [fst] in G. rewrite repeat_length in G. rewrite <- G. clear G.
  generalize (featureWords (toLowerCase text)) as ws. intros ws. revert emb.
  induction ws as [| w ws IH]; intros emb; cbn [fold_left]; auto.
  rewrite IH. apply addWord_length.
Qed.

Lemma fallback_length text :
  List.length (generateFallbackEmbedding ops toLowerCase text) = 300%nat.
Proof.
  unfold generateFallbackEmbedding, normalize.
  destruct (Num.gtb ops _ _); [rewrite length_map |]; apply rawEmbedding_length.
Qed.

End AnyArithmetic.

Local Open Scope R_scope.

Lemma normalize_nonzero l :
  Exists (fun x => x <> 0) (normalize Num.Exact l) -> Exists (fun x => x <> 0) l.
Proof.
  intros H.
  destruct (Forall_Exists_dec (fun x => x = 0) (fun x => Req_dec_T x 0) l) as [F | E]; auto.
  rewrite (ExactFacts.normalize_zero l F) in H. exact H.
Qed.

Lemma all_zero l n :
  Forall (fun x : R => x = 0) l -> List.length l = n -> l = repeat 0 n.
Proof.
  intros H. revert n. induction H as [| x l Hx _ IH]; intros [| n] E; cbn in *;
    try discriminate; auto.
  subst x. f_equal. apply IH. lia.
Qed.

End LengthFacts.

(** ** Double arithmetic *)

Module DoubleFacts.

Import RAG Notions.

Local Open Scope float_scope.

Lemma zero_double : zero Num.Double = 0.
Proof. reflexivity. Qed.

Lemma cosineLoop_zero_double v : forall n d p,
  exists d' p', cosineLoop Num.Double v (repeat 0 n) (d, p, 0) = (d', p', 0).
Proof.
  induction v as [| a v IH]; intros [| n] d p; cbn [repeat cosineLoop]; eauto.
Qed.

Lemma cosine_zero_double v n : cosineSimilarity Num.Double v (repeat 0 n) = 0.
Proof.
  unfold cosineSimilarity.
  destruct (cosineLoop_zero_double v n 0 0) as (d & p & E).
  match goal with
  | |- context [cosineLoop ?o ?a ?b ?c] =>
      replace (cosineLoop o a b c) with (d, p, 0) by (symmetry; exact E)
  end.
  unfold cosineOfSums.
  change (Num.isZero Num.Double (Num.sqrt Num.Double 0)) with true.
  rewrite orb_true_r. reflexivity.
Qed.

Lemma zero_cases x : PrimFloat.eqb x 0 = true -> x = 0 \/ x = (-0)%float.
Proof.
  rewrite FloatAxioms.eqb_spec. intros H.
  rewrite <- (SF2Prim_Prim2SF x).
  destruct (Prim2SF x) as [[] | [] | | [] m e]; try discriminate.
  - now right.
  - now left.
Qed.

Lemma cosineLoop_zero_signed v : forall z d p,
  Forall (fun x => PrimFloat.eqb x 0 = true) z ->
  exists d' p', cosineLoop Num.Double v z (d, p, 0) = (d', p', 0).
Proof.
  induction v as [| a v IH]; intros [| b z] d p H; cbn [cosineLoop]; eauto.
  inversion H as [| ? ? Hb Hz]; subst.
  replace (Num.add Num.Double 0 (Num.mul Num.Double b b)) with 0%float.
  - now apply IH.
  - destruct (zero_cases b Hb) as [-> | ->]; reflexivity.
Qed.

(** The similarity with a vector of zeros, of either sign, is 0. *)
Lemma cosine_zero_signed v z :
  Forall (fun x => PrimFloat.eqb x 0 = true) z ->
  cosineSimilarity Num.Double v z = 0.
Proof.
  intros H. unfold cosineSimilarity.
  destruct (cosineLoop_zero_signed v z 0 0 H) as (d & p & E).
  match goal with
  | |- context [cosineLoop ?o ?a ?b ?c] =>
      replace (cosineLoop o a b c) with (d, p, 0) by (symmetry; exact E)
  end.
  unfold cosineOfSums.
  change (Num.isZero Num.Double (Num.sqrt Num.Double 0)) with true.
  rewrite orb_true_r. reflexivity.
Qed.

End DoubleFacts.

(** ** The sign of what the code computes *)

Module DoubleSign.

Import RAG Notions DoubleNotions.










(** *** The fallback embedding *)











(** *** The cosine similarity *)



(** *** The zero vector *)

Lemma l2norm_zeros l :
  Forall (fun x => x = 0%float) l -> l2norm Num.Double l = 0%float.
Proof.
  intros H. unfold l2norm.
  assert (G : fold_left (fun sum val => Num.add Num.Double sum (Num.mul Num.Double val val))
                l 0%float = 0%float).
  { induction H as [| x l Hx _ IH]; cbn [fold_left]; [reflexivity |]. subst x. exact IH. }
  change (zero Num.Double) with 0%float. rewrite G. reflexivity.
Qed.

Lemma zeros_repeat (l : list float) n :
  Forall (fun x => x = 0%float) l -> List.length l = n -> l = repeat 0%float n.
Proof.
  intros H. revert n. induction H as [| x l Hx _ IH]; intros [| n] E; cbn in *;
    try discriminate; auto.
  subst x. f_equal. apply IH. lia.
Qed.

(** The normalisation step leaves a zero vector as it is. *)
Lemma normalize_zeros l :
  Forall (fun x => x = 0%float) l -> normalize Num.Double l = l.
Proof.
  intros H. unfold normalize. rewrite (l2norm_zeros l H). reflexivity.
Qed.

End DoubleSign.

(** ** Claims about similarity and embeddings *)

Module SimilarityClaims.

Import RAG Notions.

Local Open Scope R_scope.



(** C5, in exact arithmetic and in the arithmetic of the code.  In exact
    arithmetic the cosine similarity of any two vectors lies in [[-1, 1]],
    that of a non-zero vector with itself is 1, and that of any vector with
    a zero vector is 0; this holds for [ProductRAGSystem.cosineSimilarity],
    and for [VectorProductSearch.cosineSimilarity] whenever it returns a
    number (its second vector is at least as long as the first).  In double
    arithmetic the similarity of any vector, whatever it holds, with a
    vector of zeros of either sign is exactly 0. *)
Theorem C5_cosine_similarity :
  (forall v1 v2 : list R, -1 <= cosineSimilarity Num.Exact v1 v2 <= 1)
  /\ (forall v : list R,
        Exists (fun x => x <> 0) v -> cosineSimilarity Num.Exact v v = 1)
  /\ (forall v z : list R,
        Forall (fun x => x = 0) z -> cosineSimilarity Num.Exact v z = 0)
  /\ (forall v z : list float,
        Forall (fun x => PrimFloat.eqb x 0%float = true) z ->
        cosineSimilarity Num.Double v z = 0%float)
  /\ (forall (v1 v2 : list R) (r : R),
        vectorSearchCosineSimilarity Num.Exact v1 v2 = Some r -> -1 <= r <= 1)
  /\ (forall v : list R,
        Exists (fun x => x <> 0) v ->
        vectorSearchCosineSimilarity Num.Exact v v = Some 1)
  /\ (forall v z : list R,
        Forall (fun x => x = 0) z -> (List.length v <= List.length z)%nat ->
        vectorSearchCosineSimilarity Num.Exact v z = Some 0).
Proof.
  split; [exact ExactFacts.cosine_range |].
  split; [exact ExactFacts.cosine_self |].
  split; [exact ExactFacts.cosine_zero |].
  split; [exact DoubleFacts.cosine_zero_signed |].
  split; [| split].
  - intros v1 v2 r. unfold vectorSearchCosineSimilarity.
    match goal with |- context [if ?c then _ else _] => destruct c end.
    + destruct (Num.isZero Num.Exact _); intros H; [| discriminate].
      injection H as <-. unfold zero; cbn. rewrite ExactFacts.Q2R_zero. lra.
    + intros H. injection H as <-. apply ExactFacts.cosine_range.
  - intros v H. unfold vectorSearchCosineSimilarity.
    match goal with |- context [if ?c then _ else _] => replace c with false end.
    + f_equal. now apply ExactFacts.cosine_self.
    + symmetry. apply Nat.ltb_irrefl.
  - intros v z H L. unfold vectorSearchCosineSimilarity.
    match goal with |- context [if ?c then _ else _] => replace c with false end.
    + f_equal. now apply ExactFacts.cosine_zero.
    + symmetry. now apply Nat.ltb_ge.
Qed.

Lemma C5_witness :
  cosineSimilarity Num.Exact [3; 4] [3; 4] = 1
  /\ cosineSimilarity Num.Exact [3; 4] [0; 0] = 0.
Proof.
  destruct C5_cosine_similarity as (_ & Hself & Hzero & _).
  split.
  - apply Hself. constructor. lra.
  - apply Hzero. repeat constructor.
Defined.

(** In the arithmetic of the code the similarity of [[1, 1, 1]] with itself
    is [3 / (sqrt(3) * sqrt(3)) = 3 / 2.9999999999999996], the double next
    above 1; that of [[2^700, 2^700]] with itself is NaN, the squares being
    infinite; and that of [[2^-700]] with itself is 0, the square being 0. *)
Lemma C5_counterexample :
  ~ withinUnit (cosineSimilarity Num.Double ones ones)
  /\ cosineSimilarity Num.Double ones ones <> 1%float
  /\ PrimFloat.is_nan
       (cosineSimilarity Num.Double [0x1p700; 0x1p700]%float [0x1p700; 0x1p700]%float)
     = true
  /\ ~ withinUnit
       (cosineSimilarity Num.Double [0x1p700; 0x1p700]%float [0x1p700; 0x1p700]%float)
  /\ cosineSimilarity Num.Double [0x1p-700]%float [0x1p-700]%float = 0%float.
Proof.
  split; [| split; [| split; [| split]]].
  - intros [_ H]. vm_compute in H. discriminate.
  - intros H. vm_compute in H. discriminate.
  - vm_compute. reflexivity.
  - intros [H _]. vm_compute in H. discriminate.
  - vm_compute. reflexivity.
Qed.

(** In exact arithmetic the vector returned by [generateFallbackEmbedding]
    has L2 norm 1 whenever it has a non-zero component, which is whenever
    the vector built before the normalisation step has one; when every
    component built is zero the normalisation step changes nothing and the
    zero vector of 300 components is returned. *)
Lemma exact_norm_is_one
    (toLowerCase : jsstring -> jsstring) (text : jsstring) :
  (Exists (fun x => x <> 0) (rawEmbedding Num.Exact toLowerCase text)
   \/ Exists (fun x => x <> 0) (generateFallbackEmbedding Num.Exact toLowerCase text) ->
   l2norm Num.Exact (generateFallbackEmbedding Num.Exact toLowerCase text) = 1)
  /\ (Forall (fun x => x = 0) (rawEmbedding Num.Exact toLowerCase text) ->
      generateFallbackEmbedding Num.Exact toLowerCase text
      = rawEmbedding Num.Exact toLowerCase text
      /\ generateFallbackEmbedding Num.Exact toLowerCase text = repeat 0 300).
Proof.
  unfold generateFallbackEmbedding. split.
  - intros [H | H]; [| apply LengthFacts.normalize_nonzero in H];
      now apply ExactFacts.normalize_unit.
  - intros H. rewrite (ExactFacts.normalize_zero _ H). split; [reflexivity |].
    apply LengthFacts.all_zero; [exact H |].
    exact (LengthFacts.rawEmbedding_length Num.Exact toLowerCase text).
Qed.

End SimilarityClaims.

Module EmbeddingClaims.

Import RAG Notions.

Local Open Scope R_scope.

Example white_sneakers_exact_norm :
  l2norm Num.Exact (generateFallbackEmbedding Num.Exact asciiLower (lit "white sneakers")) = 1.
Proof.
  apply (proj1 (SimilarityClaims.exact_norm_is_one asciiLower (lit "white sneakers"))).
  left. vm_compute. apply Exists_cons_hd. lra.
Qed.

(** In double arithmetic the normalisation step is skipped when every
    component built is zero: the vector built is returned as it is. *)
Lemma zero_embedding_unchanged (toLowerCase : jsstring -> jsstring) (text : jsstring) :
  Forall (fun x => x = 0%float) (rawEmbedding Num.Double toLowerCase text) ->
  generateFallbackEmbedding Num.Double toLowerCase text
  = rawEmbedding Num.Double toLowerCase text
  /\ generateFallbackEmbedding Num.Double toLowerCase text = repeat 0%float 300.
Proof.
  intros H. unfold generateFallbackEmbedding.
  rewrite (DoubleSign.normalize_zeros _ H). split; [reflexivity |].
  apply DoubleSign.zeros_repeat; [exact H |].
  exact (LengthFacts.rawEmbedding_length Num.Double toLowerCase text).
Qed.

(** In double arithmetic the norm of the same embedding is 1 within the
    rounding of the [Float32Array]. *)
Example white_sneakers_norm :
  PrimFloat.ltb
    (PrimFloat.abs (PrimFloat.sub (l2norm Num.Double whiteSneakersEmbedding) 1%float))
    0x1p-23%float = true.
Proof. vm_compute. reflexivity. Qed.



End EmbeddingClaims.

(** ** Sorting *)

Module SortFacts.

Import RAG.

Section Sorting.

Variable A : Type.
Variable after : A -> A -> bool.
Variable R : A -> A -> Prop.

Hypothesis R_trans : forall x y z, R x y -> R y z -> R x z.
Hypothesis after_true : forall x y, after x y = true -> R y x.
Hypothesis after_false : forall x y, after x y = false -> R x y.

Lemma insertSorted_perm x l : Permutation (x :: l) (insertSorted after x l).
Proof.
  induction l as [| y l IH]; cbn; auto.
  destruct (after x y); auto.
  etransitivity; [apply perm_swap |]. now constructor.
Qed.

Lemma sortBy_perm l : Permutation l (sortBy after l).
Proof.
  induction l as [| x l IH]; cbn; auto.
  etransitivity; [| apply insertSorted_perm]. now constructor.
Qed.

Lemma insertSorted_sorted x l :
  StronglySorted R l -> StronglySorted R (insertSorted after x l).
Proof.
  induction 1 as [| y l Hs IH Hy]; cbn.
  - repeat constructor.
  - destruct (after x y) eqn:E.
    + constructor; auto.
      apply Forall_forall. intros z Hz.
      apply (Permutation_in _ (Permutation_sym (insertSorted_perm x l))) in Hz.
      destruct Hz as [<- | Hz]; [now apply after_true |].
      rewrite Forall_forall in Hy. now apply Hy.
    + constructor; [now constructor |].
      constructor; [now apply after_false |].
      apply Forall_forall. intros z Hz. rewrite Forall_forall in Hy.
      apply R_trans with y; [now apply after_false | now apply Hy].
Qed.

Lemma sortBy_sorted l : StronglySorted R (sortBy after l).
Proof.
  induction l as [| x l IH]; cbn; [constructor | now apply insertSorted_sorted].
Qed.

End Sorting.

Lemma StronglySorted_filter {A : Type} (R : A -> A -> Prop) (f : A -> bool) l :
  StronglySorted R l -> StronglySorted R (filter f l).
Proof.
  induction 1 as [| x l Hs IH Hx]; cbn; [constructor |].
  destruct (f x); auto. constructor; auto.
  rewrite Forall_forall in *. intros y Hy. apply filter_In in Hy. now apply Hx.
Qed.

Lemma StronglySorted_firstn {A : Type} (R : A -> A -> Prop) l : forall n,
  StronglySorted R l -> StronglySorted R (firstn n l).
Proof.
  induction l as [| x l IH]; intros [| n] H; cbn; try constructor.
  - apply IH. now inversion H.
  - inversion H; subst. rewrite Forall_forall in *. intros y Hy.
    apply H3. revert Hy. clear. revert n.
    induction l as [| a l IHl]; intros [| n]; cbn; try tauto.
    intros [-> | Hy]; [now left | right; eauto].
Qed.

End SortFacts.

(** ** Retrieval *)

Module RetrievalFacts.

Import RAG Notions SortFacts.

Local Open Scope R_scope.

Lemma threshold_exact : similarityThreshold Num.Exact = / 10.
Proof. unfold similarityThreshold. cbn. unfold Q2R; cbn. lra. Qed.

Lemma retrieval_result lower model getAllChunks query maxChunks chunks :
  getAllChunks = Ok chunks ->
  exists result,
    retrieveRelevantChunks Num.Exact lower model getAllChunks query maxChunks = Ok result
    /\ Forall (fun rc =>
         In (chunk Num.Exact rc) chunks
         /\ similarity Num.Exact rc =
            cosineSimilarity Num.Exact (generateEmbedding Num.Exact lower model query)
              (embedding Num.Exact (chunk Num.Exact rc))
         /\ ~ similarity Num.Exact rc < similarityThreshold Num.Exact) result
    /\ descending result
    /\ (List.length result <= maxChunks)%nat.
Proof.
  intros E. unfold retrieveRelevantChunks. rewrite E. cbn [obind].
  eexists; split; [reflexivity |].
  set (qe := generateEmbedding Num.Exact lower model query).
  set (sims := map _ chunks).
  set (after := fun a b : RetrievedChunk Num.Exact => Num.gtb _ _ _).
  set (keep := fun c : RetrievedChunk Num.Exact => Num.gtb _ _ _).
  repeat split.
  - apply Forall_forall. intros rc Hrc.
    apply (In_nth_error) in Hrc. destruct Hrc as (n & Hn).
    assert (Hin : In rc (filter keep (sortBy after sims))).
    { apply nth_error_In in Hn. revert Hn. generalize (filter keep (sortBy after sims)).
      clear. intros l. revert maxChunks.
      induction l as [| a l IHl]; intros [| m]; cbn; try tauto.
      intros [-> | H]; [now left | right; eauto]. }
    apply filter_In in Hin. destruct Hin as [Hin Hk].
    apply (Permutation_in _ (Permutation_sym (sortBy_perm _ after sims))) in Hin.
    unfold sims in Hin. apply in_map_iff in Hin. destruct Hin as (c & <- & Hc).
    cbn. repeat split; auto.
    unfold keep in Hk. cbn in Hk.
    match type of Hk with (if ?d then _ else _) = _ => destruct d as [L | L] end;
      [| discriminate].
    unfold similarityThreshold. cbn. lra.
  - apply StronglySorted_firstn, StronglySorted_filter.
    apply sortBy_sorted.
    + intros x y z Hxy Hyz. lra.
    + intros x y H. unfold after in H. cbn in H. rewrite ExactFacts.Q2R_zero in H.
      destruct (Rlt_dec 0 _) as [L | L]; [lra | discriminate].
    + intros x y H. unfold after in H. cbn in H. rewrite ExactFacts.Q2R_zero in H.
      destruct (Rlt_dec 0 _) as [L | L]; [discriminate | lra].
  - rewrite length_firstn. apply Nat.le_min_l.
Qed.

End RetrievalFacts.

(** ** Sorting part of an array's values *)

Module SortOn.

Import RAG.

Section Sorting.

Variable A : Type.
Variable after : A -> A -> bool.
Variable R : A -> A -> Prop.
Variable P : A -> Prop.

Hypothesis R_trans : forall x y z, P x -> P y -> P z -> R x y -> R y z -> R x z.
Hypothesis after_true : forall x y, P x -> P y -> after x y = true -> R y x.
Hypothesis after_false : forall x y, P x -> P y -> after x y = false -> R x y.

Lemma insertSorted_on x l :
  P x -> Forall P l -> StronglySorted R l ->
  Forall P (insertSorted after x l) /\ StronglySorted R (insertSorted after x l).
Proof.
  intros Px Pl Hs. split.
  { eapply Permutation_Forall; [apply SortFacts.insertSorted_perm |]. now constructor. }
  revert Pl. induction Hs as [| y l Hs IH Hy]; intros Pl; cbn.
  - repeat constructor.
  - inversion Pl as [| ? ? Py Pl']; subst.
    destruct (after x y) eqn:E.
    + constructor; auto.
      apply Forall_forall. intros z Hz.
      apply (Permutation_in _ (Permutation_sym (SortFacts.insertSorted_perm _ after x l)))
        in Hz.
      destruct Hz as [<- | Hz]; [now apply after_true |].
      rewrite Forall_forall in Hy. now apply Hy.
    + constructor; [now constructor |].
      constructor; [now apply after_false |].
      apply Forall_forall. intros z Hz. rewrite Forall_forall in Hy, Pl'.
      assert (Pz : P z) by now apply Pl'.
      assert (Ryz : R y z) by now apply Hy.
      apply R_trans with y; auto.
Qed.

Lemma sortBy_on l :
  Forall P l -> Forall P (sortBy after l) /\ StronglySorted R (sortBy after l).
Proof.
  induction 1 as [| x l Px Pl IH]; cbn; [split; constructor |].
  destruct IH as [IH1 IH2]. now apply insertSorted_on.
Qed.

End Sorting.

End SortOn.

(** ** Retrieval in any arithmetic, and in doubles *)

Module RetrievalMore.

Import RAG Notions DoubleNotions.

Lemma firstn_sub {A : Type} (x : A) l : forall n, In x (firstn n l) -> In x l.
Proof.
  induction l as [| a l IH]; intros [| n]; cbn; try tauto.
  intros [-> | H]; [now left | right; eauto].
Qed.

(** What is retrieved is stored, carries its similarity and passed the
    threshold test; and no more than [maxChunks] chunks are retrieved. *)
Lemma retrieval_members (ops : Num.Ops) lower model getAllChunks query maxChunks chunks :
  getAllChunks = Ok chunks ->
  exists result,
    retrieveRelevantChunks ops lower model getAllChunks query maxChunks = Ok result
    /\ Forall (fun rc =>
         In (chunk ops rc) chunks
         /\ similarity ops rc =
            cosineSimilarity ops (generateEmbedding ops lower model query)
              (embedding ops (chunk ops rc))
         /\ Num.gtb ops (similarity ops rc) (similarityThreshold ops) = true) result
    /\ (List.length result <= maxChunks)%nat.
Proof.
  intros E. unfold retrieveRelevantChunks. rewrite E. cbn [obind].
  eexists; split; [reflexivity |].
  set (qe := generateEmbedding ops lower model query).
  set (sims := map _ chunks).
  set (after := fun a b : RetrievedChunk ops => Num.gtb _ _ _).
  set (keep := fun c : RetrievedChunk ops => Num.gtb _ _ _).
  split.
  - apply Forall_forall. intros rc Hrc.
    apply firstn_sub in Hrc. apply filter_In in Hrc. destruct Hrc as [Hin Hk].
    apply (Permutation_in _ (Permutation_sym (SortFacts.sortBy_perm _ after sims))) in Hin.
    unfold sims in Hin. apply in_map_iff in Hin. destruct Hin as (c & <- & Hc).
    cbn. repeat split; auto.
  - rewrite length_firstn. apply Nat.le_min_l.
Qed.

(** In doubles the retrieved chunks are in descending order when no stored
    chunk has NaN for its similarity. *)
Lemma retrieval_descending lower model getAllChunks query maxChunks chunks result :
  getAllChunks = Ok chunks ->
  Forall (fun c =>
    PrimFloat.is_nan
      (cosineSimilarity Num.Double (generateEmbedding Num.Double lower model query)
         (embedding Num.Double c)) = false) chunks ->
  retrieveRelevantChunks Num.Double lower model getAllChunks query maxChunks = Ok result ->
  descendingDouble result.
Proof.
  intros E Hn. unfold retrieveRelevantChunks. rewrite E. cbn [obind].
  intros Er. injection Er as <-.
  apply SortFacts.StronglySorted_firstn, SortFacts.StronglySorted_filter.
  apply (SortOn.sortBy_on _ _ _
           (fun rc => PrimFloat.is_nan (similarity Num.Double rc) = false)).
  - intros x y z Hx Hy Hz Hxy Hyz. now apply FloatFacts.leb_trans with (similarity Num.Double y).
  - intros x y Hx Hy H. cbn in H.
    change (Num.floatOfZ 0 / Num.floatOfZ 1)%float with 0%float in H.
    rewrite FloatFacts.sub_ltb in H by assumption.
    now apply FloatFacts.ltb_leb.
  - intros x y Hx Hy H. cbn in H.
    change (Num.floatOfZ 0 / Num.floatOfZ 1)%float with 0%float in H.
    rewrite FloatFacts.sub_ltb in H by assumption.
    now apply FloatFacts.leb_total.
  - apply Forall_forall. intros rc Hrc. apply in_map_iff in Hrc.
    destruct Hrc as (c & <- & Hc). cbn. rewrite Forall_forall in Hn. now apply Hn.
Qed.

Lemma descendingDouble_similarities l :
  descendingDouble l ->
  StronglySorted (fun x y => PrimFloat.leb y x = true) (map (similarity Num.Double) l).
Proof.
  induction 1 as [| rc l Hs IH Hall]; cbn; constructor; auto.
  rewrite Forall_forall in *. intros y Hy. apply in_map_iff in Hy.
  destruct Hy as (rc' & <- & Hin). now apply Hall.
Qed.

End RetrievalMore.

(** ** Deduplication *)

Module DedupFacts.

Import RAG Notions.

Lemma eqs_true a b : eqs a b = true <-> a = b.
Proof. unfold eqs. destruct (list_eq_dec N.eq_dec a b); split; congruence. Qed.

Lemma eqs_false a b : eqs a b = false <-> a <> b.
Proof. unfold eqs. destruct (list_eq_dec N.eq_dec a b); split; congruence. Qed.

Section Maps.

Variable V : Type.

Lemma lookup_None key (m : list (jsstring * V)) :
  lookup key m = None <-> ~ In key (map fst m).
Proof.
  induction m as [| [k v] m IH]; cbn; [tauto |].
  destruct (eqs k key) eqn:E.
  - apply eqs_true in E. subst. split; [discriminate | tauto].
  - apply eqs_false in E. rewrite IH. tauto.
Qed.

Lemma lookup_Some key v (m : list (jsstring * V)) :
  lookup key m = Some v -> In key (map fst m).
Proof.
  intros H. destruct (in_dec (list_eq_dec N.eq_dec) key (map fst m)) as [Hin | Hn]; auto.
  apply lookup_None in Hn. congruence.
Qed.

Lemma assign_absent key v (m : list (jsstring * V)) :
  ~ In key (map fst m) -> assign key v m = m ++ [(key, v)].
Proof.
  induction m as [| [k w] m IH]; cbn; intros H; auto.
  destruct (eqs k key) eqn:E.
  - apply eqs_true in E. tauto.
  - rewrite IH by tauto. reflexivity.
Qed.

Lemma assign_present_keys key v (m : list (jsstring * V)) :
  In key (map fst m) -> map fst (assign key v m) = map fst m.
Proof.
  induction m as [| [k w] m IH]; cbn; intros H; [contradiction |].
  destruct (eqs k key) eqn:E; cbn; auto.
  apply eqs_false in E. rewrite IH; [reflexivity | tauto].
Qed.

Lemma assign_In key v (m : list (jsstring * V)) e :
  In e (assign key v m) -> e = (key, v) \/ In e m.
Proof.
  induction m as [| [k w] m IH]; cbn.
  - intros [<- | []]. now left.
  - destruct (eqs k key) eqn:E; cbn.
    + apply eqs_true in E. subst. intros [<- | H]; auto.
    + intros [<- | H]; [tauto |]. apply IH in H. tauto.
Qed.

End Maps.

Section Dedup.

Variable ops : Num.Ops.
Variable toLowerCase : jsstring -> jsstring.

Local Abbreviation key := (dedupKey ops toLowerCase).
Local Abbreviation step := (dedupStep ops toLowerCase).

Lemma wellKeyed_step m x : wellKeyed ops toLowerCase m -> wellKeyed ops toLowerCase (step m x).
Proof.
  intros [Hnd Hk]. unfold dedupStep.
  destruct (lookup (key x) m) as [kept |] eqn:E.
  - destruct (Num.gtb ops _ _); [| now split].
    apply lookup_Some in E. split.
    + now rewrite assign_present_keys.
    + intros e He. apply assign_In in He. destruct He as [-> | He]; auto.
  - apply lookup_None in E. rewrite assign_absent by assumption. split.
    + rewrite map_app. cbn. apply NoDup_app; auto.
      * repeat constructor. tauto.
      * intros k Hin [<- | []]. tauto.
    + intros e He. apply in_app_iff in He. destruct He as [He | [<- | []]]; auto.
Qed.

Lemma wellKeyed_fold ms : forall m, wellKeyed ops toLowerCase m -> wellKeyed ops toLowerCase (fold_left step ms m).
Proof.
  induction ms as [| x ms IH]; intros m H; cbn; auto.
  apply IH. now apply wellKeyed_step.
Qed.

(** Matches with pairwise different keys, none of them in the map yet, are
    appended one by one. *)
Lemma fold_fresh ms : forall m,
  NoDup (map fst m ++ map key ms) ->
  fold_left step ms m = m ++ map (fun x => (key x, x)) ms.
Proof.
  induction ms as [| x ms IH]; intros m H; cbn.
  - now rewrite app_nil_r.
  - assert (Hx : ~ In (key x) (map fst m)).
    { intros Hin. apply NoDup_remove_2 in H. apply H. apply in_app_iff. now left. }
    unfold dedupStep at 2. rewrite (proj2 (lookup_None _ _ _) Hx).
    rewrite assign_absent by assumption.
    rewrite IH.
    + rewrite <- app_assoc. reflexivity.
    + rewrite map_app. cbn. rewrite <- app_assoc. cbn.
      apply NoDup_remove_1 in H as H1. apply NoDup_remove_2 in H as H2.
      clear - H H1 H2.
      apply (Permutation.Permutation_NoDup (l := key x :: (map fst m ++ map key ms))).
      * apply Permutation.Permutation_middle.
      * constructor; assumption.
Qed.

Lemma deduplicate_distinct ms :
  NoDup (map key ms) -> deduplicate ops toLowerCase ms = ms.
Proof.
  intros H. unfold deduplicate. rewrite fold_fresh by assumption.
  cbn. rewrite map_map. cbn. apply map_id.
Qed.

Lemma deduplicate_keys ms : NoDup (map key (deduplicate ops toLowerCase ms)).
Proof.
  unfold deduplicate.
  destruct (wellKeyed_fold ms []) as [Hnd Hk].
  { split; [constructor | intros e []]. }
  rewrite map_map.
  erewrite map_ext_in; [exact Hnd |].
  intros e He. symmetry. now apply Hk.
Qed.

Lemma deduplicate_idempotent ms :
  deduplicate ops toLowerCase (deduplicate ops toLowerCase ms)
  = deduplicate ops toLowerCase ms.
Proof. apply deduplicate_distinct, deduplicate_keys. Qed.

End Dedup.

End DedupFacts.

(** ** Generation *)

Module GenerationFacts.

Import RAG Notions.

Section Generation.

Variable ops : Num.Ops.
Variable toLowerCase : jsstring -> jsstring.
Variable model : option (jsstring -> option (list (Num.num ops))).
Variable getAllChunks : outcome (list (Chunk ops)).
Variable getProductMetadata : jsstring -> outcome (option ProductMeta).
Variable toFixed3 : Num.num ops -> jsstring.

Local Abbreviation generateWithRAG :=
  (generateWithRAG ops toLowerCase model getAllChunks getProductMetadata toFixed3).
Local Abbreviation generateWithRAG_try :=
  (generateWithRAG_try ops toLowerCase model getAllChunks getProductMetadata toFixed3).

Lemma caught query e :
  generateWithRAG_try query = Throw e -> generateWithRAG query = failure ops e.
Proof. unfold RAG.generateWithRAG. now intros ->. Qed.

Lemma returned query r :
  generateWithRAG_try query = Ok r -> generateWithRAG query = r.
Proof. unfold RAG.generateWithRAG. now intros ->. Qed.

Lemma store_rejects query e :
  getAllChunks = Throw e -> generateWithRAG_try query = Throw e.
Proof.
  intros E. unfold RAG.generateWithRAG_try, retrieveRelevantChunks. rewrite E. reflexivity.
Qed.

Lemma assign_nonempty {V : Type} k (v : V) m : assign k v m <> [].
Proof. destruct m as [| [k' w] m]; cbn; [| destruct (eqs k' k)]; discriminate. Qed.

Lemma addChunkScore_fold rcs : forall m,
  m <> [] -> fold_left (addChunkScore ops) rcs m <> [].
Proof.
  induction rcs as [| rc rcs IH]; intros m H; cbn [fold_left]; [assumption |].
  apply IH. unfold addChunkScore. destruct (inherited _); [assumption |].
  apply assign_nonempty.
Qed.

Lemma objectEntries_length {V : Type} (obj : list (jsstring * V)) :
  List.length (objectEntries obj) = List.length obj.
Proof.
  unfold objectEntries. rewrite length_app.
  rewrite <- (Permutation_length (SortFacts.sortBy_perm _ _ _)).
  apply filter_length.
Qed.

Lemma objectEntries_nonempty {V : Type} (obj : list (jsstring * V)) :
  obj <> [] -> objectEntries obj <> [].
Proof.
  intros H E. apply H. apply length_zero_iff_nil.
  rewrite <- objectEntries_length, E. reflexivity.
Qed.

Lemma metadata_rejects query e chunks :
  getAllChunks = Ok chunks ->
  (forall id, getProductMetadata id = Throw e) ->
  generateWithRAG_try query = Throw e
  \/ generateWithRAG_try query =
     Ok (mkResult ops [] (lit "No semantically similar products found") 0)
  \/ exists rel,
       retrieveRelevantChunks ops toLowerCase model getAllChunks query maxRetrievedChunks
       = Ok rel
       /\ Forall (fun rc => inherited (productId ops (chunk ops rc)) = true) rel
       /\ generateWithRAG_try query
          = Ok (mkResult ops [] (lit "Found 0 products via semantic vector search")
                  (List.length rel)).
Proof.
  intros E Hm. unfold RAG.generateWithRAG_try.
  destruct (retrieveRelevantChunks _ _ _ _ _ _) as [rel | e'] eqn:Er.
  2:{ unfold retrieveRelevantChunks in Er. rewrite E in Er. discriminate. }
  cbn [obind]. destruct rel as [| rc rel]; [right; now left |].
  cbn [List.length Nat.eqb].
  destruct (forallb (fun rc => inherited (productId ops (chunk ops rc))) (rc :: rel)) eqn:Ei.
  - right. right. exists (rc :: rel). split; [reflexivity |].
    rewrite forallb_forall in Ei. split; [now apply Forall_forall |].
    assert (En : fold_left (addChunkScore ops) (rc :: rel) [] = []).
    { assert (G : forall l m, (forall x, In x l -> inherited (productId ops (chunk ops x)) = true) ->
                  fold_left (addChunkScore ops) l m = m).
      { induction l as [| x l IH]; intros m H; cbn [fold_left]; [reflexivity |].
        unfold addChunkScore at 2. rewrite (H x (or_introl eq_refl)).
        apply IH. intros y Hy. apply H. now right. }
      now apply G. }
    rewrite En. reflexivity.
  - left.
    destruct (objectEntries (fold_left (addChunkScore ops) (rc :: rel) []))
      as [| [id sc] es] eqn:Ee.
    { exfalso. revert Ee. apply objectEntries_nonempty.
      assert (G : forall l m,
                forallb (fun rc => inherited (productId ops (chunk ops rc))) l = false ->
                fold_left (addChunkScore ops) l m <> []).
      { induction l as [| x l IH]; intros m H; [discriminate |].
        cbn [forallb] in H. cbn [fold_left].
        destruct (inherited (productId ops (chunk ops x))) eqn:Ex.
        - unfold addChunkScore at 2. rewrite Ex. apply IH. exact H.
        - apply addChunkScore_fold. unfold addChunkScore. rewrite Ex.
          apply assign_nonempty. }
      now apply G. }
    cbn [forM]. unfold addMatch at 1. rewrite Hm. reflexivity.
Qed.

End Generation.

End GenerationFacts.

(** ** Chunking *)

Module ChunkFacts.

Import RAG Notions.

Local Open Scope nat_scope.

Lemma windowCount_spec text k : 160 * k < List.length text <-> k < windowCount text.
Proof.
  unfold windowCount.
  pose proof (Nat.div_mod_eq (List.length text + 159) 160) as E.
  pose proof (Nat.mod_upper_bound (List.length text + 159) 160) as U.
  lia.
Qed.

Lemma splitFrom_windows text : forall fuel k,
  windowCount text - k <= fuel ->
  splitFrom fuel text 200 40 (160 * k)
  = flat_map (piece text) (seq k (windowCount text - k)).
Proof.
  induction fuel as [| fuel IH]; intros k H.
  - replace (windowCount text - k) with 0 by lia. reflexivity.
  - cbn [splitFrom].
    destruct (160 * k <? List.length text) eqn:E.
    + apply Nat.ltb_lt in E. apply windowCount_spec in E.
      replace (windowCount text - k) with (S (windowCount text - S k)) by lia.
      cbn [seq flat_map].
      replace (160 * k + (200 - 40)) with (160 * S k) by lia.
      rewrite IH by lia. reflexivity.
    + apply Nat.ltb_ge in E.
      assert (~ k < windowCount text) by (rewrite <- windowCount_spec; lia).
      replace (windowCount text - k) with 0 by lia. reflexivity.
Qed.

Lemma windowCount_le text : windowCount text <= List.length text.
Proof.
  unfold windowCount.
  pose proof (Nat.div_mod_eq (List.length text + 159) 160) as E.
  pose proof (Nat.mod_upper_bound (List.length text + 159) 160) as U.
  lia.
Qed.

(** [splitIntoChunks(text, 200)] is the list of its non-blank trimmed
    windows; the rounds allotted to the loop are enough. *)
Lemma splitIntoChunks_windows text :
  splitIntoChunks text chunkSize = flat_map (piece text) (seq 0 (windowCount text)).
Proof.
  change (splitFrom (List.length text) text 200 40 (160 * 0)
          = flat_map (piece text) (seq 0 (windowCount text))).
  rewrite splitFrom_windows by (pose proof (windowCount_le text); lia).
  now rewrite Nat.sub_0_r.
Qed.

(** More rounds change nothing. *)
Lemma splitFrom_enough text fuel :
  List.length text <= fuel ->
  splitFrom fuel text 200 40 0 = splitIntoChunks text chunkSize.
Proof.
  intros H. rewrite splitIntoChunks_windows.
  change (splitFrom fuel text 200 40 (160 * 0)
          = flat_map (piece text) (seq 0 (windowCount text))).
  rewrite splitFrom_windows by (pose proof (windowCount_le text); lia).
  now rewrite Nat.sub_0_r.
Qed.

Lemma trimStart_length s : List.length (trimStart s) <= List.length s.
Proof.
  induction s as [| c s IH]; cbn; auto. destruct (isSpace c); cbn; lia.
Qed.

Lemma trim_length s : List.length (trim s) <= List.length s.
Proof.
  unfold trim, trimEnd. rewrite length_rev.
  etransitivity; [apply trimStart_length |]. rewrite length_rev. apply trimStart_length.
Qed.

Lemma window_length text k : List.length (window text k) <= 200.
Proof.
  unfold window, substring. rewrite length_firstn. lia.
Qed.

Lemma trimStart_In c s : In c s -> isSpace c = false -> In c (trimStart s).
Proof.
  induction s as [| a s IH]; cbn; auto.
  intros [-> | H] Hc.
  - rewrite Hc. now left.
  - destruct (isSpace a); [now apply IH | now right].
Qed.

Lemma trim_In c s : In c s -> isSpace c = false -> In c (trim s).
Proof.
  intros H Hc. unfold trim, trimEnd.
  apply in_rev. rewrite rev_involutive.
  apply trimStart_In; auto. apply -> in_rev. now apply trimStart_In.
Qed.

Lemma piece_nonblank text k c :
  In c (window text k) -> isSpace c = false -> List.length (piece text k) = 1.
Proof.
  intros H Hc. unfold piece.
  pose proof (trim_In c _ H Hc) as Hin.
  destruct (trim (window text k)); [contradiction | reflexivity].
Qed.

Lemma piece_length text k c : In c (piece text k) -> List.length c <= 200.
Proof.
  unfold piece. destruct (truthy _); [| contradiction].
  intros [<- | []]. etransitivity; [apply trim_length | apply window_length].
Qed.

(** Consecutive windows: what follows the first 160 code units of one is
    what the next begins with. *)
Lemma window_overlap text k :
  skipn 160 (window text k) = firstn 40 (window text (S k)).
Proof.
  unfold window, substring.
  replace (160 * k + 200 - 160 * k) with 200 by lia.
  replace (160 * S k + 200 - 160 * S k) with 200 by lia.
  replace (160 * S k) with (160 + 160 * k) by lia.
  rewrite <- skipn_skipn.
  generalize (skipn (160 * k) text) as X. intros X.
  rewrite firstn_firstn. change (Nat.min 40 200) with 40.
  change 200 with (160 + 40) at 1.
  rewrite skipn_firstn_comm. reflexivity.
Qed.

Lemma first_piece text :
  startsNonBlank text = true -> List.length (piece text 0) = 1.
Proof.
  destruct text as [| c0 rest]; [discriminate |]. cbn [startsNonBlank]. intros H.
  apply negb_true_iff in H.
  apply piece_nonblank with c0; auto. cbn. now left.
Qed.

Lemma last_piece text :
  endsNonBlank text = true -> text <> [] ->
  List.length (piece text (windowCount text - 1)) = 1.
Proof.
  unfold endsNonBlank. intros H Hne.
  destruct (rev text) as [| cl r] eqn:Er; [discriminate |].
  cbn in H. apply negb_true_iff in H.
  assert (Et : text = rev r ++ [cl]).
  { rewrite <- (rev_involutive text), Er. reflexivity. }
  assert (Hlen : List.length text = S (List.length r)).
  { rewrite Et, length_app, length_rev. cbn. lia. }
  set (k := windowCount text - 1).
  assert (Hk : k < windowCount text).
  { assert (0 < windowCount text) by (apply windowCount_spec; lia). lia. }
  assert (Hk' : ~ S k < windowCount text) by lia.
  rewrite <- windowCount_spec in Hk, Hk'.
  apply piece_nonblank with cl; auto.
  unfold window, substring.
  rewrite firstn_all2 by (rewrite length_skipn; lia).
  rewrite Et, skipn_app. apply in_or_app. right.
  rewrite length_rev.
  replace (160 * k - List.length r) with 0 by lia. cbn. now left.
Qed.

Lemma flat_map_length_seq (f : nat -> list jsstring) n :
  2 <= n -> List.length (f 0) = 1 -> List.length (f (n - 1)) = 1 ->
  2 <= List.length (flat_map f (seq 0 n)).
Proof.
  intros Hn H0 Hl. destruct n as [| [| m]]; try lia.
  change (seq 0 (S (S m))) with (0 :: seq 1 (S m)).
  rewrite seq_S. cbn [flat_map]. rewrite flat_map_app. cbn [flat_map].
  rewrite app_nil_r, !length_app.
  replace (S (S m) - 1) with (1 + m) in Hl by lia. rewrite H0, Hl. lia.
Qed.

Lemma two_chunks text :
  200 < List.length text -> startsNonBlank text = true -> endsNonBlank text = true ->
  2 <= List.length (splitIntoChunks text chunkSize).
Proof.
  intros Hlen Hs He. rewrite splitIntoChunks_windows.
  apply flat_map_length_seq.
  - assert (1 < windowCount text) by (apply windowCount_spec; lia). lia.
  - now apply first_piece.
  - apply last_piece; auto. destruct text; [cbn in Hlen; lia | discriminate].
Qed.

Section Chunking.

Variable ops : Num.Ops.
Variable toLowerCase : jsstring -> jsstring.
Variable model : option (jsstring -> option (list (Num.num ops))).

Lemma indexed_texts (l : list jsstring) productId : forall n,
  map (content ops)
    (filter (isDescription ops)
       (map (fun '(type, content, chunkIndex, metadata) =>
               mkChunk ops productId type content chunkIndex metadata
                 (generateEmbedding ops toLowerCase model content))
            (map (fun '(index, chunk) => (description, chunk, Some index, MetaDescription))
                 (indexed n l)))) = l.
Proof.
  induction l as [| a l IH]; intros n; cbn; auto. now rewrite IH.
Qed.

Lemma description_texts context productId :
  descriptionTexts ops (chunkProductInfo ops toLowerCase model context productId) =
  if truthy (fullText context) && (chunkSize <? List.length (fullText context))
  then splitIntoChunks (fullText context) chunkSize
  else if truthy (fullText context) then [fullText context] else [].
Proof.
  unfold descriptionTexts, chunkProductInfo.
  rewrite !map_app, !filter_app, !map_app.
  assert (E1 : forall l, l = titleBrandChunk context \/ l = attributesChunk context ->
     map (content ops) (filter (isDescription ops)
       (map (fun '(type, content, chunkIndex, metadata) =>
               mkChunk ops productId type content chunkIndex metadata
                 (generateEmbedding ops toLowerCase model content)) l)) = []).
  { intros l [-> | ->].
    - unfold titleBrandChunk. destruct (_ || _); reflexivity.
    - unfold attributesChunk. destruct (_ <? _); reflexivity. }
  rewrite !E1 by auto. cbn [app].
  unfold descriptionChunks.
  destruct (truthy (fullText context) && _).
  - apply indexed_texts.
  - destruct (truthy (fullText context)); reflexivity.
Qed.

Lemma title_chunk context productId :
  title context <> [] ->
  exists c, In c (chunkProductInfo ops toLowerCase model context productId)
            /\ type ops c = title_brand.
Proof.
  intros H. unfold chunkProductInfo, titleBrandChunk.
  destruct (title context) as [| t ts] eqn:E; [congruence |].
  cbn [truthy orb app map].
  eexists. split; [left; reflexivity | reflexivity].
Qed.

End Chunking.

End ChunkFacts.

(** ** Claims about retrieval, generation and chunking *)

Module RetrievalClaims.

Import RAG Notions DoubleNotions.

Local Open Scope nat_scope.

(** C3.  When the chunk store answers, [retrieveRelevantChunks] returns a
    list of at most [maxChunks] stored chunks, each with its cosine
    similarity to the query embedding and each above the similarity
    threshold (0.1), in whatever arithmetic.  The list is in descending
    order of similarity in exact arithmetic, and in double arithmetic when
    no stored chunk has NaN for its similarity to the query. *)
Theorem C3_retrieval_filtered_sorted_bounded :
  (forall (ops : Num.Ops) (toLowerCase : jsstring -> jsstring)
          (model : option (jsstring -> option (list (Num.num ops))))
          (getAllChunks : outcome (list (Chunk ops)))
          (query : jsstring) (maxChunks : nat) (chunks : list (Chunk ops)),
     getAllChunks = Ok chunks ->
     exists result,
       retrieveRelevantChunks ops toLowerCase model getAllChunks query maxChunks
       = Ok result
       /\ Forall (fun rc =>
            In (chunk ops rc) chunks
            /\ similarity ops rc =
               cosineSimilarity ops (generateEmbedding ops toLowerCase model query)
                 (embedding ops (chunk ops rc))
            /\ Num.gtb ops (similarity ops rc) (similarityThreshold ops) = true) result
       /\ List.length result <= maxChunks)
  /\ (forall (toLowerCase : jsstring -> jsstring)
             (model : option (jsstring -> option (list R)))
             (getAllChunks : outcome (list (Chunk Num.Exact)))
             (query : jsstring) (maxChunks : nat) (result : list (RetrievedChunk Num.Exact)),
        retrieveRelevantChunks Num.Exact toLowerCase model getAllChunks query maxChunks
        = Ok result ->
        Forall (fun rc => (/ 10 < similarity Num.Exact rc)%R) result
        /\ descending result)
  /\ (forall (toLowerCase : jsstring -> jsstring)
             (model : option (jsstring -> option (list float)))
             (getAllChunks : outcome (list (Chunk Num.Double)))
             (query : jsstring) (maxChunks : nat) (chunks : list (Chunk Num.Double))
             (result : list (RetrievedChunk Num.Double)),
        getAllChunks = Ok chunks ->
        Forall (fun c =>
          PrimFloat.is_nan
            (cosineSimilarity Num.Double
               (generateEmbedding Num.Double toLowerCase model query)
               (embedding Num.Double c)) = false) chunks ->
        retrieveRelevantChunks Num.Double toLowerCase model getAllChunks query maxChunks
        = Ok result ->
        descendingDouble result).
Proof.
  split; [| split].
  - intros. now apply RetrievalMore.retrieval_members.
  - intros lower model getAllChunks query maxChunks result Er.
    destruct getAllChunks as [chunks | e] eqn:E; [| discriminate].
    destruct (RetrievalFacts.retrieval_result lower model (Ok chunks) query
                maxChunks chunks eq_refl) as (result' & Er' & Hall & Hd & Hl).
    rewrite Er in Er'. injection Er' as <-. split; [| exact Hd].
    rewrite <- RetrievalFacts.threshold_exact.
    destruct (RetrievalMore.retrieval_members Num.Exact lower model (Ok chunks) query
                maxChunks chunks eq_refl) as (result' & Er' & Hm & _).
    rewrite Er in Er'. injection Er' as <-.
    eapply Forall_impl; [| exact Hm]. cbn. intros rc (_ & _ & H).
    destruct (Rlt_dec _ _) as [L | L]; [exact L | discriminate].
  - intros. eapply RetrievalMore.retrieval_descending; eauto.
Qed.

Lemma C3_witness :
  exists result,
    retrieveRelevantChunks Num.Double asciiLower None (Ok threeChunks)
      (lit "white sneakers") 100 = Ok result
    /\ List.length result = 3
    /\ descendingDouble result.
Proof.
  eexists. split; [reflexivity |]. split; [vm_compute; reflexivity |].
  destruct C3_retrieval_filtered_sorted_bounded as (_ & _ & H).
  apply (H asciiLower None (Ok threeChunks) (lit "white sneakers") 100 threeChunks).
  - reflexivity.
  - repeat constructor; vm_compute; reflexivity.
  - reflexivity.
Defined.

(** With a NaN in one stored embedding the retrieved chunks are out of
    order: the similarities of the result are about 0.669, 0.999 and 0.743,
    in this order. *)
Lemma C3_counterexample :
  exists result,
    retrieveRelevantChunks Num.Double asciiLower None (Ok nanChunks)
      (lit "white sneakers") 100 = Ok result
    /\ map (similarity Num.Double) result
       = [0x1.56828b98fdde9p-1; 0x1.ff4ad60c5f0c0p-1; 0x1.7c910ce2e1302p-1]%float
    /\ ~ descendingDouble result.
Proof.
  eexists. split; [reflexivity |].
  assert (E : map (similarity Num.Double)
                (match retrieveRelevantChunks Num.Double asciiLower None (Ok nanChunks)
                         (lit "white sneakers") 100 with
                 | Ok result => result
                 | Throw _ => []
                 end)
              = [0x1.56828b98fdde9p-1; 0x1.ff4ad60c5f0c0p-1; 0x1.7c910ce2e1302p-1]%float).
  { vm_compute. reflexivity. }
  split; [exact E |].
  intros H. apply RetrievalMore.descendingDouble_similarities in H.
  change (StronglySorted (fun x y => PrimFloat.leb y x = true)
            (map (similarity Num.Double)
               (match retrieveRelevantChunks Num.Double asciiLower None (Ok nanChunks)
                        (lit "white sneakers") 100 with
                | Ok result => result
                | Throw _ => []
                end))) in H.
  rewrite E in H. inversion H as [| ? ? _ Hall]; subst.
  inversion Hall as [| ? ? Hab _]; subst.
  vm_compute in Hab. discriminate.
Qed.

(** C9.  The deduplication step of [generateWithRAG] is idempotent: run on
    its own output it returns that output, as a list; and so it does on
    the output sorted by confidence, which is what [generateWithRAG]
    returns. *)
Theorem C9_deduplication_idempotent
    (ops : Num.Ops) (toLowerCase : jsstring -> jsstring) (matches : list (Match ops)) :
  deduplicate ops toLowerCase (deduplicate ops toLowerCase matches)
  = deduplicate ops toLowerCase matches
  /\ deduplicate ops toLowerCase
       (sortByConfidence ops (deduplicate ops toLowerCase matches))
     = sortByConfidence ops (deduplicate ops toLowerCase matches).
Proof.
  split; [apply DedupFacts.deduplicate_idempotent |].
  apply DedupFacts.deduplicate_distinct.
  pose proof (DedupFacts.deduplicate_keys ops toLowerCase matches) as H.
  unfold sortByConfidence.
  eapply Permutation_NoDup; [| exact H].
  apply Permutation_map. apply SortFacts.sortBy_perm.
Qed.

(** C2.  [generateWithRAG] always returns a result.  When the body of its
    [try] block throws, a rejected read of the chunk store or of the
    metadata store included, the result has no matches, a reasoning string
    that ends with the message of the exception, and a retrieved-chunk
    count of 0; when the body returns, its result is returned.  A rejecting
    metadata store is never read only when nothing was retrieved, or when
    every retrieved chunk has a product id that names an inherited property
    and so leaves [productScores] without entries. *)
Theorem C2_generate_never_throws
    (ops : Num.Ops) (toLowerCase : jsstring -> jsstring)
    (model : option (jsstring -> option (list (Num.num ops))))
    (getAllChunks : outcome (list (Chunk ops)))
    (getProductMetadata : jsstring -> outcome (option ProductMeta))
    (toFixed3 : Num.num ops -> jsstring) (query : jsstring) :
  match generateWithRAG_try ops toLowerCase model getAllChunks getProductMetadata
          toFixed3 query with
  | Throw error =>
      generateWithRAG ops toLowerCase model getAllChunks getProductMetadata toFixed3 query
      = mkResult ops [] (lit "RAG generation failed: " ++ message error) 0
  | Ok result =>
      generateWithRAG ops toLowerCase model getAllChunks getProductMetadata toFixed3 query
      = result
  end
  /\ match getAllChunks with
     | Throw error =>
         generateWithRAG ops toLowerCase model getAllChunks getProductMetadata toFixed3 query
         = mkResult ops [] (lit "RAG generation failed: " ++ message error) 0
     | Ok chunks =>
         forall error, (forall id, getProductMetadata id = Throw error) ->
         generateWithRAG ops toLowerCase model getAllChunks getProductMetadata toFixed3 query
         = mkResult ops [] (lit "RAG generation failed: " ++ message error) 0
         \/ generateWithRAG ops toLowerCase model getAllChunks getProductMetadata toFixed3
              query
            = mkResult ops [] (lit "No semantically similar products found") 0
         \/ exists relevantChunks,
              retrieveRelevantChunks ops toLowerCase model getAllChunks query
                maxRetrievedChunks = Ok relevantChunks
              /\ Forall (fun rc => inherited (productId ops (chunk ops rc)) = true)
                        relevantChunks
              /\ generateWithRAG ops toLowerCase model getAllChunks getProductMetadata
                   toFixed3 query
                 = mkResult ops [] (lit "Found 0 products via semantic vector search")
                     (List.length relevantChunks)
     end.
Proof.
  split.
  - unfold generateWithRAG. destruct (generateWithRAG_try _ _ _ _ _ _ _); reflexivity.
  - destruct getAllChunks as [chunks | error] eqn:E.
    + intros error Hm.
      destruct (GenerationFacts.metadata_rejects ops toLowerCase model (Ok chunks)
                  getProductMetadata toFixed3 query error chunks eq_refl Hm)
        as [H | [H | (rel & Er & Hi & H)]].
      * left. now apply GenerationFacts.caught.
      * right. left. now apply GenerationFacts.returned.
      * right. right. exists rel. split; [exact Er |]. split; [exact Hi |].
        now apply GenerationFacts.returned.
    + apply GenerationFacts.caught. now apply GenerationFacts.store_rejects.
Qed.

(** Scenario C of the specification: with nothing indexed, no chunk is
    retrieved and the result has no matches and a reasoning string. *)
Example empty_store :
  generateWithRAG Num.Double asciiLower None (Ok []) (fun _ => Ok None) (fun _ => [])
    (lit "white sneakers")
  = mkResult Num.Double [] (lit "No semantically similar products found") 0.
Proof.
  unfold generateWithRAG, generateWithRAG_try, retrieveRelevantChunks.
  cbn [obind map sortBy fold_right filter firstn List.length Nat.eqb].
  reflexivity.
Qed.

Lemma C2_witness :
  generateWithRAG Num.Double asciiLower None (Throw (mkError (lit "store closed")))
    (fun _ => Ok None) (fun _ => []) (lit "white sneakers")
  = mkResult Num.Double [] (lit "RAG generation failed: store closed") 0.
Proof.
  exact (proj2 (C2_generate_never_throws Num.Double asciiLower None
                  (Throw (mkError (lit "store closed")))
                  (fun _ => Ok None) (fun _ => []) (lit "white sneakers"))).
Defined.

End RetrievalClaims.

Module ChunkClaims.

Import RAG Notions.

Local Open Scope nat_scope.

(** C7, as the code has it.  [chunkProductInfo] emits a [title_brand] chunk
    whenever the title is non-empty.  When the full text is longer than 200
    code units, its description chunks are the trimmed windows
    [text[160k, 160k + 200)], [k = 0, 1, ...] while [160k < text.length],
    blank windows left out; every description chunk is at most 200 code
    units long; what follows the first 160 code units of a window is what
    the next window begins with, 40 code units (20% of 200) unless the text
    ends before; and when the text begins and ends with a non-blank code
    unit, there is more than one description chunk. *)
Theorem C7_chunking
    (ops : Num.Ops) (toLowerCase : jsstring -> jsstring)
    (model : option (jsstring -> option (list (Num.num ops))))
    (context : ProductContext) (productId : jsstring) :
  (title context <> [] ->
   exists c, In c (chunkProductInfo ops toLowerCase model context productId)
             /\ type ops c = title_brand)
  /\ (chunkSize < List.length (fullText context) ->
      descriptionTexts ops (chunkProductInfo ops toLowerCase model context productId)
      = flat_map (piece (fullText context)) (seq 0 (windowCount (fullText context)))
      /\ Forall (fun c => List.length c <= chunkSize)
           (descriptionTexts ops (chunkProductInfo ops toLowerCase model context productId))
      /\ (forall k, skipn 160 (window (fullText context) k)
                    = firstn 40 (window (fullText context) (S k)))
      /\ (startsNonBlank (fullText context) = true ->
          endsNonBlank (fullText context) = true ->
          1 < List.length
                (descriptionTexts ops
                   (chunkProductInfo ops toLowerCase model context productId)))).
Proof.
  split; [apply ChunkFacts.title_chunk |].
  intros Hlen.
  assert (E : descriptionTexts ops (chunkProductInfo ops toLowerCase model context productId)
              = splitIntoChunks (fullText context) chunkSize).
  { rewrite ChunkFacts.description_texts.
    apply Nat.ltb_lt in Hlen. rewrite Hlen.
    destruct (fullText context); [discriminate | reflexivity]. }
  rewrite E. repeat split.
  - apply ChunkFacts.splitIntoChunks_windows.
  - rewrite ChunkFacts.splitIntoChunks_windows. apply Forall_forall.
    intros c Hc. apply in_flat_map in Hc. destruct Hc as (k & _ & Hc).
    now apply ChunkFacts.piece_length in Hc.
  - apply ChunkFacts.window_overlap.
  - intros Hs He. now apply ChunkFacts.two_chunks.
Qed.

Lemma C7_witness :
  (exists c, In c (chunkProductInfo Num.Double asciiLower None longProduct (lit "1"))
             /\ type Num.Double c = title_brand)
  /\ descriptionTexts Num.Double
       (chunkProductInfo Num.Double asciiLower None longProduct (lit "1"))
     = [repeat 97%N 200; repeat 97%N 170; repeat 97%N 10].
Proof.
  destruct (C7_chunking Num.Double asciiLower None longProduct (lit "1")) as [Ht Hd].
  split.
  - apply Ht. discriminate.
  - destruct Hd as (E & _); [vm_compute; lia |]. rewrite E. vm_compute. reflexivity.
Defined.

(** A text of 330 letters is cut into chunks of 200, 170 and 10 letters:
    the last one is shorter than the overlap. *)
Lemma C7_counterexample :
  ~ chunkingCoverage Num.Double longProduct
      (chunkProductInfo Num.Double asciiLower None longProduct (lit "1")).
Proof.
  intros [_ H].
  destruct H as (_ & _ & H); [vm_compute; lia |].
  rewrite ChunkFacts.description_texts in H. vm_compute in H.
  destruct H as (_ & (_ & H & _) & _). lia.
Qed.

End ChunkClaims.

(** ** The matcher finds matches *)

Module MatcherFacts.

Import Highlighter Notions Semantics.

Local Open Scope nat_scope.

(** Whatever [rmatch] answers, it answers through its continuation, at the
    end of a match. *)
Lemma rmatch_sound ic r s : forall i cs k x,
  rmatch ic r s i cs k = Some x ->
  exists j cs', matches ic s r i cs j cs' /\ k j cs' = Some x.
Proof.
  induction r as [c | p | r1 IH1 r2 IH2 | r1 IH1 r2 IH2 | r1 IH1 | r1 IH1 | n r1 IH1 | | |];
    intros i cs k x H;
    try rewrite RegExpFacts.rmatch_Star in H; cbn [rmatch] in *.
  - destruct (nth_error s i) as [d |] eqn:E; [| discriminate].
    destruct (chrEq ic c d) eqn:Ec; [| discriminate].
    exists (S i), cs. split; [econstructor; eauto | assumption].
  - destruct (nth_error s i) as [d |] eqn:E; [| discriminate].
    destruct (p d) eqn:Ep; [| discriminate].
    exists (S i), cs. split; [econstructor; eauto | assumption].
  - apply IH1 in H. destruct H as (j & cs1 & M1 & H).
    apply IH2 in H. destruct H as (j' & cs2 & M2 & H).
    exists j', cs2. split; [econstructor; eauto | assumption].
  - destruct (rmatch ic r1 s i cs k) as [y |] eqn:E.
    + inversion H; subst. apply IH1 in E. destruct E as (j & cs' & M & E).
      exists j, cs'. split; [now apply MAltL | assumption].
    + apply IH2 in H. destruct H as (j & cs' & M & E').
      exists j, cs'. split; [now apply MAltR | assumption].
  - destruct (rmatch ic r1 s i cs _) as [y |] eqn:E.
    + inversion H; subst. apply IH1 in E. destruct E as (j & cs' & M & E).
      destruct (j <=? i) eqn:Ej; [discriminate |]. apply Nat.leb_gt in Ej.
      exists j, cs'. split; [now apply MOptSome | assumption].
    + exists i, cs. split; [apply MOptNone | assumption].
  - revert i cs x H. generalize (S (List.length s)). intros fuel.
    induction fuel as [| fuel IHf]; intros i cs x H; cbn [starLoop] in H.
    + exists i, cs. split; [apply MStarNil | assumption].
    + destruct (rmatch ic r1 s i cs _) as [y |] eqn:E.
      * inversion H; subst. apply IH1 in E. destruct E as (j & cs1 & M & E).
        destruct (j <=? i) eqn:Ej; [discriminate |]. apply Nat.leb_gt in Ej.
        apply IHf in E. destruct E as (j' & cs2 & M' & E).
        exists j', cs2. split; [eapply MStarCons; eauto | assumption].
      * exists i, cs. split; [apply MStarNil | assumption].
  - apply IH1 in H. destruct H as (j & cs' & M & H).
    eexists j, _. split; [apply MGrp; eassumption | assumption].
  - destruct (xorb _ _) eqn:E; [| discriminate].
    exists i, cs. split; [now apply MWordB | assumption].
  - destruct (i =? 0) eqn:E; [| discriminate]. apply Nat.eqb_eq in E. subst i.
    exists 0, cs. split; [apply MBol | assumption].
  - destruct (i =? List.length s) eqn:E; [| discriminate]. apply Nat.eqb_eq in E. subst i.
    exists (List.length s), cs. split; [apply MEol | assumption].
Qed.

Lemma matchAt_sound ic r s i j cs :
  matchAt ic r s i = Some (j, cs) -> matches ic s r i [] j cs.
Proof.
  unfold matchAt. intros H. apply rmatch_sound in H.
  destruct H as (j' & cs' & M & E). now inversion E; subst.
Qed.

(** Every match the [exec] loop reports is a match. *)
Lemma execAll_sound ic r s m :
  In m (execAll ic r s) -> matches ic s r (mstart m) [] (mend m) (mcaps m).
Proof.
  intros H. apply PriceFacts.execAllFrom_matchAt in H. now apply matchAt_sound.
Qed.

(** A match goes forward and stays inside the string. *)
Lemma matches_bounds ic s r i cs j cs' :
  matches ic s r i cs j cs' -> i <= List.length s -> i <= j /\ j <= List.length s.
Proof.
  induction 1; intros Hi;
    repeat match goal with
    | E : nth_error s ?i = Some _ |- _ =>
        assert (i < List.length s) by (apply nth_error_Some; congruence); clear E
    | IH : ?a <= List.length s -> _ |- _ =>
        let H := fresh in assert (H : a <= List.length s) by lia; specialize (IH H)
    end; lia.
Qed.

(** A pattern without groups leaves the captures alone. *)
Lemma matches_groupFree ic s r i cs j cs' :
  matches ic s r i cs j cs' -> groupFree r = true -> cs' = cs.
Proof.
  induction 1; cbn [groupFree]; intros G; auto; try discriminate.
  - apply andb_true_iff in G. destruct G as [G1 G2].
    rewrite (IHmatches2 G2). now apply IHmatches1.
  - apply andb_true_iff in G. now apply IHmatches.
  - apply andb_true_iff in G. now apply IHmatches.
  - rewrite (IHmatches2 G). now apply IHmatches1.
Qed.

(** What a run of a class has matched. *)
Lemma matches_star_class ic s p i cs j cs' :
  matches ic s (Star (Cls p)) i cs j cs' -> cs' = cs /\ i <= j /\ allBetween p s i j.
Proof.
  remember (Star (Cls p)) as r eqn:Er. induction 1; try discriminate.
  - repeat split; auto. intros t d Ha Hb. lia.
  - inversion Er; subst. clear IHmatches1.
    destruct (IHmatches2 eq_refl) as (-> & Hle & Hall).
    match goal with M : matches _ _ (Cls _) _ _ _ _ |- _ => inversion M; subst end.
    split; [reflexivity |]. split; [lia |].
    intros t d' Ha Hb Ht.
    destruct (Nat.eq_dec t i) as [-> | Hne].
    + congruence.
    + apply (Hall t d'); auto; lia.
Qed.

Lemma matches_plus_class ic s p i cs j cs' :
  matches ic s (Plus (Cls p)) i cs j cs' -> cs' = cs /\ i < j /\ allBetween p s i j.
Proof.
  unfold Plus. intros H. inversion H; subst.
  match goal with M : matches _ _ (Cls _) _ _ _ _ |- _ => inversion M; subst end.
  match goal with M : matches _ _ (Star _) _ _ _ _ |- _ =>
    apply matches_star_class in M; destruct M as (-> & Hle & Hall) end.
  split; [reflexivity |]. split; [lia |].
  intros t d' Ha Hb Ht.
  destruct (Nat.eq_dec t i) as [-> | Hne]; [congruence |].
  apply (Hall t d'); auto; lia.
Qed.

(** [r*] and [r+] succeed whenever what follows them cannot fail. *)
Lemma starLoop_total m (k : nat -> caps -> option result) :
  (forall j cs, k j cs <> None) ->
  forall fuel i cs, starLoop m k fuel i cs <> None.
Proof.
  intros Hk. induction fuel as [| fuel IH]; intros i cs; cbn [starLoop]; auto.
  destruct (m i cs _); [discriminate | auto].
Qed.

(** [/p+/] fails at a position only if the code unit there is not in [p]. *)
Lemma matchAt_plus_None ic p s q d :
  matchAt ic (Plus (Cls p)) s q = None -> nth_error s q = Some d -> p d = false.
Proof.
  unfold matchAt, Plus. intros H E.
  change (rmatch ic (Cat (Cls p) (Star (Cls p))) s q [] (fun j cs => Some (j, cs)))
    with (match nth_error s q with
          | Some d =>
              if p d
              then rmatch ic (Star (Cls p)) s (S q) [] (fun j cs => Some (j, cs))
              else None
          | None => None
          end) in H.
  rewrite E in H. destruct (p d); auto. exfalso. revert H.
  rewrite RegExpFacts.rmatch_Star. apply starLoop_total. discriminate.
Qed.

(** The pieces [split] cuts on [/p+/] hold no code unit of [p]. *)
Lemma splitLoop_free ic p s : forall fuel a q,
  a <= q -> List.length s < q + fuel ->
  (forall t d, a <= t -> t < q -> nth_error s t = Some d -> p d = false) ->
  Forall (fun w => free p w = true) (splitLoop fuel ic (Plus (Cls p)) s a q).
Proof.
  assert (Hpiece : forall a q,
    (forall t d, a <= t -> t < q -> nth_error s t = Some d -> p d = false) ->
    free p (substring a q s) = true).
  { intros a q H. unfold free, substring. apply forallb_forall. intros c Hc.
    apply In_nth_error in Hc. destruct Hc as (n & Hn).
    assert (Hlt : n < q - a).
    { assert (L : n < List.length (firstn (q - a) (skipn a s)))
        by (apply nth_error_Some; congruence).
      rewrite length_firstn in L. lia. }
    rewrite nth_error_firstn in Hn.
    replace (n <? q - a) with true in Hn by (symmetry; now apply Nat.ltb_lt).
    rewrite nth_error_skipn in Hn.
    rewrite (H (a + n) c); auto; lia. }
  assert (Hlast : forall a q,
    List.length s <= q ->
    (forall t d, a <= t -> t < q -> nth_error s t = Some d -> p d = false) ->
    free p (skipn a s) = true).
  { intros a q Hq H. unfold free. apply forallb_forall. intros c Hc.
    apply In_nth_error in Hc. destruct Hc as (n & Hn).
    rewrite nth_error_skipn in Hn.
    assert (a + n < List.length s) by (apply nth_error_Some; congruence).
    rewrite (H (a + n) c); auto; lia. }
  induction fuel as [| fuel IH]; intros a q Haq Hf H; cbn [splitLoop].
  - constructor; [| constructor]. apply (Hlast a q); auto; lia.
  - destruct (q <? List.length s) eqn:Eq.
    + apply Nat.ltb_lt in Eq.
      destruct (matchAt ic (Plus (Cls p)) s q) as [[e cs] |] eqn:E.
      * apply RegExpFacts.matchAt_bounds in E; [| lia]. cbn [minLen Plus Nat.add] in E.
        replace (Nat.min e (List.length s)) with e by lia.
        replace (e =? a) with false by (symmetry; apply Nat.eqb_neq; lia).
        constructor; [now apply Hpiece |].
        apply IH; [lia | lia |]. intros t d Ha Hb. lia.
      * apply IH; [lia | lia |].
        intros t d Ha Hb Ht.
        destruct (Nat.eq_dec t q) as [-> | Hne].
        -- now apply (matchAt_plus_None ic p s q d).
        -- apply (H t d); auto; lia.
    + apply Nat.ltb_ge in Eq. constructor; [| constructor]. now apply (Hlast a q).
Qed.

Lemma split_free ic p s :
  Forall (fun w => free p w = true) (split ic (Plus (Cls p)) s).
Proof.
  unfold split. destruct s as [| c s'].
  - destruct (matchAt ic _ [] 0); repeat constructor.
  - apply splitLoop_free; [lia | cbn; lia |]. intros t d Ha Hb. lia.
Qed.

End MatcherFacts.

(** ** Prices *)

Module PriceMore.

Import Highlighter Notions Semantics ScorerNotions.

Local Open Scope nat_scope.

Lemma digitsVal_nonneg ds : forall acc, (0 <= acc)%Z -> (0 <= digitsVal acc ds)%Z.
Proof.
  induction ds as [| d ds IH]; intros acc H; cbn [digitsVal]; auto.
  apply IH. unfold digitVal. lia.
Qed.

Lemma digits_nonneg ds : (0 <= digitsVal 0 ds)%Z.
Proof. apply digitsVal_nonneg. lia. Qed.

Lemma inject_nonneg z : (0 <= z)%Z -> (0 <= inject_Z z)%Q.
Proof. intros H. unfold Qle; cbn. lia. Qed.

(** A double whose sign bit is clear is not negative. *)
Lemma SF2Q_nonneg f : DoubleNotions.signIs false f -> (0 <= SF2Q f)%Q.
Proof.
  destruct f as [s | s | | s m e]; cbn [DoubleNotions.signIs SF2Q]; intros H; subst;
    try discriminate.
  rewrite Qred_correct. destruct e as [| p | p].
  - apply inject_nonneg. lia.
  - apply inject_nonneg. apply Z.mul_nonneg_nonneg; [lia |]. apply Z.pow_nonneg. lia.
  - unfold Qle; cbn. lia.
Qed.

Lemma nearestDouble_nonneg n k : (0 <= nearestDouble n k)%Q.
Proof.
  unfold nearestDouble. destruct n as [| m | m]; try discriminate.
  apply SF2Q_nonneg. apply (FloatFacts.SFdiv_sign prec emax); reflexivity.
Qed.

(** [parseFloat] never reads a sign: what it returns is not negative. *)
Lemma parseFloat_nonneg s q : parseFloat s = Some q -> (0 <= q)%Q.
Proof.
  unfold parseFloat.
  destruct (takeWhile isDigit (trimStart s)) as [| c ip] eqn:E; [discriminate |].
  destruct (dropWhile isDigit (trimStart s)) as [| d rest];
    [intros H; injection H as <-; apply nearestDouble_nonneg |].
  destruct (N.eq_dec d 46) as [-> | Hd].
  - intros H; injection H as <-. apply nearestDouble_nonneg.
  - assert (G : forall (X : option Q),
        match d with 46%N => X | _ => Some (nearestDouble (digitsVal 0 (c :: ip)) 0) end
        = Some q ->
        (0 <= q)%Q).
    { intros X. destruct d as [| d];
        [intros H; injection H as <-; apply nearestDouble_nonneg |].
      repeat (destruct d as [d | d |];
              try (intros H; injection H as <-; apply nearestDouble_nonneg)).
      congruence. }
    apply G.
Qed.

(** A string that begins with neither a blank nor a digit is not a number. *)
Lemma parseFloat_nostart d rest :
  isSpace d = false -> isDigit d = false -> parseFloat (d :: rest) = None.
Proof.
  intros Hs Hd. unfold parseFloat. cbn [trimStart]. rewrite Hs.
  cbn [takeWhile]. now rewrite Hd.
Qed.

Lemma skipn_nth (s : jsstring) : forall i d,
  nth_error s i = Some d -> skipn i s = d :: skipn (S i) s.
Proof.
  induction s as [| a s IH]; intros [| i] d E; cbn in *; try discriminate.
  - now inversion E.
  - now apply IH.
Qed.

Lemma substring_cons (s : jsstring) i j d :
  nth_error s i = Some d -> i < j -> substring i j s = d :: substring (S i) j s.
Proof.
  intros E H. unfold substring. rewrite (skipn_nth s i d E).
  destruct (j - i) as [| n] eqn:En; [lia |].
  cbn [firstn]. f_equal. f_equal. lia.
Qed.

Lemma substring_one (s : jsstring) i d :
  nth_error s i = Some d -> substring i (S i) s = [d].
Proof.
  intros E. rewrite (substring_cons s i (S i) d E) by lia.
  unfold substring. now rewrite Nat.sub_diag.
Qed.

Lemma flat_map_nil {A B : Type} (f : A -> list B) l :
  (forall x, In x l -> f x = []) -> flat_map f l = [].
Proof.
  induction l as [| a l IH]; intros H; cbn; auto.
  rewrite (H a (or_introl eq_refl)). apply IH. intros x Hx. apply H. now right.
Qed.

(** Under the [i] flag a code unit equals a pattern unit up to ASCII case. *)
Lemma chrEq_fold p d :
  chrEq true p d = true -> d = upper p \/ (d = (upper p + 32)%N /\ isLower d = true).
Proof.
  unfold chrEq. intros H. apply N.eqb_eq in H. revert H.
  unfold upper at 2. destruct (isLower d) eqn:E; intros H.
  - right. split; auto. unfold isLower, between in E.
    apply andb_true_iff in E. destruct E as [E1 E2]. apply N.leb_le in E1. lia.
  - now left.
Qed.

Lemma currencyStart_no_number d :
  currencyStart d = true -> isSpace d = false /\ isDigit d = false.
Proof.
  unfold currencyStart. cbn [existsb]. rewrite !orb_true_iff, !N.eqb_eq.
  intros H. repeat (destruct H as [-> | H]; [split; vm_compute; reflexivity |]).
  discriminate.
Qed.

(** A match of [(\€|\$|£|usd|eur|gbp)] begins with a currency mark. *)
Lemma currencyRe_start s i cs j cs' :
  matches true s currencyRe i cs j cs' ->
  exists d, nth_error s i = Some d /\ currencyStart d = true /\ i < j.
Proof.
  change currencyRe with
    (Alt (Chr EURO) (Alt (Chr DOLLAR) (Alt (Chr POUND)
       (Alt (Cat (Chr 117) (Cat (Chr 115) (Chr 100)))
          (Alt (Cat (Chr 101) (Cat (Chr 117) (Chr 114)))
               (Cat (Chr 103) (Cat (Chr 98) (Chr 112)))))))).
  intros H.
  repeat match goal with
  | M : matches _ _ (Alt _ _) _ _ _ _ |- _ => inversion M; subst; clear M
  | M : matches _ _ (Cat _ _) _ _ _ _ |- _ => inversion M; subst; clear M
  | M : matches _ _ (Chr _) _ _ _ _ |- _ => inversion M; subst; clear M
  end;
  match goal with
  | E : nth_error s i = Some ?d, C : chrEq true _ ?d = true |- _ =>
      exists d; split; [exact E | split; [| lia]];
      apply chrEq_fold in C;
      destruct C as [-> | [-> C]];
      [vm_compute; reflexivity | vm_compute in C; try discriminate; vm_compute; reflexivity]
  end.
Qed.

(** A match of [(\€|\$|£)] is one currency symbol. *)
Lemma symbolRe_one s i cs j cs' :
  matches false s symbolRe i cs j cs' ->
  j = S i /\ cs' = cs /\
  (nth_error s i = Some EURO \/ nth_error s i = Some DOLLAR \/ nth_error s i = Some POUND).
Proof.
  change symbolRe with (Alt (Chr EURO) (Alt (Chr DOLLAR) (Chr POUND))).
  intros H.
  repeat match goal with
  | M : matches _ _ (Alt _ _) _ _ _ _ |- _ => inversion M; subst; clear M
  | M : matches _ _ (Chr _) _ _ _ _ |- _ => inversion M; subst; clear M
  end;
  match goal with
  | E : nth_error s i = Some ?d, C : chrEq false _ ?d = true |- _ =>
      unfold chrEq in C; apply N.eqb_eq in C; subst d; auto
  end.
Qed.

(** The number-first pattern of [extractPricesFromText] captures the symbol
    in group 2, and that is what [parseFloat] is given. *)
Lemma numberFirst_reads_symbol text m :
  In m (execAll false numberFirst text) ->
  parseFloat (replaceFirstStr (lit ",") (lit ".") (orElse (group 2 m) (group 1 m))) = None.
Proof.
  intros H. apply MatcherFacts.execAll_sound in H.
  destruct m as [i j cs]. cbn [mstart mend mcaps] in H.
  unfold numberFirst in H.
  inversion H; subst; clear H.
  match goal with M : matches _ _ (Cat spaces _) _ _ _ _ |- _ =>
    inversion M; subst; clear M end.
  match goal with M : matches _ _ (Grp 2 _) _ _ _ _ |- _ =>
    inversion M; subst; clear M end.
  match goal with M : matches _ _ symbolRe _ _ _ _ |- _ =>
    apply symbolRe_one in M; destruct M as (-> & _ & E) end.
  unfold group. cbn [mcaps capture Nat.eqb].
  destruct E as [E | [E | E]]; rewrite (substring_one _ _ _ E); vm_compute; reflexivity.
Qed.

(** The fourth pattern of [extractPriceConstraints] captures the currency in
    group 2, and that is what [parseFloat] is given. *)
Lemma pattern4_reads_currency prompt m :
  In m (execAll true pricePattern4 prompt) -> constraintOfMatch prompt m = [].
Proof.
  intros H. apply MatcherFacts.execAll_sound in H.
  destruct m as [i j cs]. cbn [mstart mend mcaps] in H.
  unfold pricePattern4 in H.
  inversion H; subst; clear H.
  match goal with M : matches _ _ (Cat spaces _) _ _ _ _ |- _ =>
    inversion M; subst; clear M end.
  match goal with M : matches _ _ (Cat (Grp 2 _) _) _ _ _ _ |- _ =>
    inversion M; subst; clear M end.
  match goal with M : matches _ _ (Cat spaces suffixRe) _ _ _ _ |- _ =>
    apply MatcherFacts.matches_groupFree in M; [subst | reflexivity] end.
  match goal with M : matches _ _ (Grp 2 _) _ _ _ _ |- _ =>
    inversion M; subst; clear M end.
  match goal with M : matches _ _ currencyRe _ _ _ _ |- _ =>
    apply currencyRe_start in M; destruct M as (d & E & Hd & Hlt) end.
  unfold constraintOfMatch, group. cbn [mcaps capture Nat.eqb].
  rewrite (substring_cons _ _ _ _ E Hlt). cbn [orElse truthy].
  destruct (currencyStart_no_number d Hd) as [Hs Hn].
  now rewrite (parseFloat_nostart d _ Hs Hn).
Qed.

Lemma constraint_value_nonneg prompt c :
  In c (extractPriceConstraints prompt) -> (0 <= pc_value c)%Q.
Proof.
  unfold extractPriceConstraints, constraintsOfPattern. intros H.
  apply in_flat_map in H. destruct H as (p & _ & H).
  apply in_flat_map in H. destruct H as (m & _ & H).
  unfold constraintOfMatch in H.
  destruct (parseFloat _) as [v |] eqn:E; [| contradiction].
  destruct H as [<- | []]. cbn. now apply parseFloat_nonneg in E.
Qed.

Lemma price_nonneg text q : In q (extractPricesFromText text) -> (0 <= q)%Q.
Proof.
  unfold extractPricesFromText. intros H.
  apply in_flat_map in H. destruct H as (p & _ & H).
  apply in_flat_map in H. destruct H as (m & _ & H).
  destruct (parseFloat _) as [v |] eqn:E; [| contradiction].
  destruct H as [<- | []]. now apply parseFloat_nonneg in E.
Qed.

Lemma orElse_nonempty a b : b <> [] -> orElse a b <> [].
Proof. unfold orElse. destruct a; cbn; [auto | discriminate]. Qed.

Lemma constraint_currency_nonempty prompt c :
  In c (extractPriceConstraints prompt) -> pc_currency c <> [].
Proof.
  unfold extractPriceConstraints, constraintsOfPattern. intros H.
  apply in_flat_map in H. destruct H as (p & _ & H).
  apply in_flat_map in H. destruct H as (m & _ & H).
  unfold constraintOfMatch in H.
  destruct (parseFloat _) as [v |]; [| contradiction].
  destruct H as [<- | []]. cbn [pc_currency].
  apply orElse_nonempty, orElse_nonempty. discriminate.
Qed.

(** [/^\d+$/] accepts every non-empty string of digits. *)
Lemma starLoop_digits w kcs : forall fuel i,
  (forall t d, i <= t -> nth_error w t = Some d -> isDigit d = true) ->
  i <= List.length w -> List.length w - i < fuel ->
  starLoop (fun i cs k => rmatch false (Cls isDigit) w i cs k)
    (fun j cs => if j =? List.length w then Some (j, cs) else None) fuel i kcs
  = Some (List.length w, kcs).
Proof.
  induction fuel as [| fuel IH]; intros i Hall Hi Hf; [lia |].
  cbn [starLoop rmatch].
  destruct (nth_error w i) as [d |] eqn:E.
  - rewrite (Hall i d (Nat.le_refl i) E).
    assert (i < List.length w) by (apply nth_error_Some; congruence).
    replace (S i <=? i) with false by (symmetry; apply Nat.leb_gt; lia).
    rewrite IH; auto; try lia.
    intros t d' Ht. apply Hall. lia.
  - apply nth_error_None in E.
    replace (i =? List.length w) with true by (symmetry; apply Nat.eqb_eq; lia).
    f_equal. f_equal. lia.
Qed.

Lemma allDigits_complete w :
  w <> [] -> forallb isDigit w = true -> allDigits w = true.
Proof.
  intros Hne Hall. unfold allDigits, test, exec.
  replace (List.length w <? 0) with false by reflexivity.
  assert (E : matchAt false (Cat Bol (Cat (Plus (Cls isDigit)) Eol)) w 0
              = Some (List.length w, [])).
  { unfold matchAt, Plus.
    change (rmatch false (Cat Bol (Cat (Cat (Cls isDigit) (Star (Cls isDigit))) Eol)) w 0 []
              (fun j cs => Some (j, cs)))
      with (match nth_error w 0 with
            | Some d =>
                if isDigit d
                then rmatch false (Star (Cls isDigit)) w 1 []
                       (fun j cs => if j =? List.length w then Some (j, cs) else None)
                else None
            | None => None
            end).
    destruct w as [| c w']; [congruence |].
    cbn [nth_error]. cbn [forallb] in Hall. apply andb_true_iff in Hall.
    destruct Hall as [-> Hall].
    rewrite RegExpFacts.rmatch_Star. apply starLoop_digits; cbn [List.length]; try lia.
    intros t d Ht Ed. destruct t as [| t]; [lia |]. cbn [nth_error] in Ed.
    rewrite forallb_forall in Hall. apply Hall. eapply nth_error_In; eassumption. }
  destruct (List.length w - 0) as [| n]; cbn [search]; now rewrite E.
Qed.

Lemma forallb_false_witness {A : Type} (f : A -> bool) l :
  forallb f l = false -> exists x, In x l /\ f x = false.
Proof.
  induction l as [| a l IH]; cbn; [discriminate |].
  destruct (f a) eqn:E; cbn.
  - intros H. destruct (IH H) as (x & Hx & Hf). exists x. auto.
  - intros _. exists a. auto.
Qed.

End PriceMore.

(** ** The core requirements of the scorer *)

Module CoreFacts.

Import Highlighter Notions ScorerNotions.

Local Open Scope Q_scope.

Section WithHost.

Variable toLowerCase : jsstring -> jsstring.
Variable hostRegExp : jsstring -> option RegExpObj.
Variable highPerformingKeywords : list jsstring.

Local Abbreviation wordTest := (wordTest hostRegExp).
Local Abbreviation analyzeQuery := (analyzeQuery toLowerCase hostRegExp).
Local Abbreviation checkCoreRequirements := (checkCoreRequirements toLowerCase hostRegExp).
Local Abbreviation checkAllRequiredCriteria :=
  (checkAllRequiredCriteria toLowerCase hostRegExp).
Local Abbreviation calculateMatchScore :=
  (calculateMatchScore toLowerCase hostRegExp highPerformingKeywords).
Local Abbreviation calculateMatchScore_try :=
  (calculateMatchScore_try toLowerCase hostRegExp highPerformingKeywords).
Local Abbreviation subScores := (subScores toLowerCase hostRegExp).

(** What [analyzeQuery] puts in its result. *)
Lemma analyzeQuery_fields userPrompt qa :
  analyzeQuery userPrompt = Some qa ->
  colors qa = extractColors (toLowerCase userPrompt)
  /\ brands qa = extractBrands (toLowerCase userPrompt)
  /\ attributes qa = extractAttributes (toLowerCase userPrompt)
  /\ priceConstraints qa = extractPriceConstraints (toLowerCase userPrompt)
  /\ keywords qa = extractMeaningfulKeywords (coreQuery qa).
Proof.
  unfold Highlighter.analyzeQuery, bind.
  destruct (cleanQuery _ _ _ _ _ _); intros H; [| discriminate].
  injection H as <-. cbn [colors brands attributes priceConstraints keywords coreQuery].
  repeat split.
Qed.

Lemma analyzeQuery_plain userPrompt qa :
  analyzeQuery userPrompt = Some qa -> plainAnalysis qa.
Proof.
  intros H. destruct (analyzeQuery_fields _ _ H) as (Ec & Eb & Ea & _).
  unfold plainAnalysis. rewrite Ec, Eb, Ea. repeat split.
  - intros c. apply ScorerFacts.extractColors_plain.
  - intros b. apply ScorerFacts.extractBrands_plain.
  - intros a. apply ScorerFacts.extractAttributes_plain.
Qed.

(** On words without pattern syntax, [some] is [existsb]. *)
Lemma someM_plain text ws :
  (forall w, In w ws -> isPlain w = true) ->
  someM (fun w => wordTest w text) ws
  = Some (existsb (fun w => test true (wordRe w) text) ws).
Proof.
  induction ws as [| w ws IH]; intros H; cbn [someM existsb]; auto.
  rewrite (ScorerFacts.wordTest_plain hostRegExp w text (H w (or_introl eq_refl))).
  cbn [bind]. destruct (test true (wordRe w) text); cbn [orb]; auto.
  apply IH. intros w' Hw'. apply H. now right.
Qed.

(** With the vocabularies' words, [checkCoreRequirements] never throws, and
    its four checks amount to one condition. *)
Lemma checkCoreRequirements_coreOk productText qa :
  plainAnalysis qa ->
  checkCoreRequirements productText qa = Some (coreOk toLowerCase productText qa).
Proof.
  intros (Pc & Pb & _). unfold Highlighter.checkCoreRequirements, coreOk, bind.
  destruct (isEmpty (keywords qa)); cbn [negb andb orb].
  - destruct (isEmpty (colors qa)) eqn:Ec; cbn [negb andb orb].
    + destruct (isEmpty (brands qa)) eqn:Eb; cbn [negb andb orb].
      * destruct (isEmpty (priceConstraints qa)); cbn [negb andb orb]; auto.
        destruct (isEmpty (extractPricesFromText productText)); cbn [negb andb orb]; auto.
        destruct (somePriceMatches _ _); reflexivity.
      * rewrite (someM_plain productText (brands qa) Pb).
        destruct (existsb _ (brands qa)); cbn [negb andb orb]; auto.
        destruct (isEmpty (priceConstraints qa)); cbn [negb andb orb]; auto.
        destruct (isEmpty (extractPricesFromText productText)); cbn [negb andb orb]; auto.
        destruct (somePriceMatches _ _); reflexivity.
    + rewrite (someM_plain productText (colors qa) Pc).
      destruct (existsb _ (colors qa)); cbn [negb andb orb]; auto.
      destruct (isEmpty (brands qa)) eqn:Eb; cbn [negb andb orb].
      * destruct (isEmpty (priceConstraints qa)); cbn [negb andb orb]; auto.
        destruct (isEmpty (extractPricesFromText productText)); cbn [negb andb orb]; auto.
        destruct (somePriceMatches _ _); reflexivity.
      * rewrite (someM_plain productText (brands qa) Pb).
        destruct (existsb _ (brands qa)); cbn [negb andb orb]; auto.
        destruct (isEmpty (priceConstraints qa)); cbn [negb andb orb]; auto.
        destruct (isEmpty (extractPricesFromText productText)); cbn [negb andb orb]; auto.
        destruct (somePriceMatches _ _); reflexivity.
  - destruct (_ <? _)%nat; cbn [negb andb orb]; auto.
    destruct (isEmpty (colors qa)) eqn:Ec; cbn [negb andb orb].
    + destruct (isEmpty (brands qa)) eqn:Eb; cbn [negb andb orb].
      * destruct (isEmpty (priceConstraints qa)); cbn [negb andb orb]; auto.
        destruct (isEmpty (extractPricesFromText productText)); cbn [negb andb orb]; auto.
        destruct (somePriceMatches _ _); reflexivity.
      * rewrite (someM_plain productText (brands qa) Pb).
        destruct (existsb _ (brands qa)); cbn [negb andb orb]; auto.
        destruct (isEmpty (priceConstraints qa)); cbn [negb andb orb]; auto.
        destruct (isEmpty (extractPricesFromText productText)); cbn [negb andb orb]; auto.
        destruct (somePriceMatches _ _); reflexivity.
    + rewrite (someM_plain productText (colors qa) Pc).
      destruct (existsb _ (colors qa)); cbn [negb andb orb]; auto.
      destruct (isEmpty (brands qa)) eqn:Eb; cbn [negb andb orb].
      * destruct (isEmpty (priceConstraints qa)); cbn [negb andb orb]; auto.
        destruct (isEmpty (extractPricesFromText productText)); cbn [negb andb orb]; auto.
        destruct (somePriceMatches _ _); reflexivity.
      * rewrite (someM_plain productText (brands qa) Pb).
        destruct (existsb _ (brands qa)); cbn [negb andb orb]; auto.
        destruct (isEmpty (priceConstraints qa)); cbn [negb andb orb]; auto.
        destruct (isEmpty (extractPricesFromText productText)); cbn [negb andb orb]; auto.
        destruct (somePriceMatches _ _); reflexivity.
Qed.

(** On words without pattern syntax, the filter of [missingWords] never
    throws. *)
Lemma missingWords_plain label text ws :
  (forall w, In w ws -> isPlain w = true) ->
  missingWords hostRegExp label text ws
  = Some (map (fun w => lit label ++ w)
            (filter (fun w => negb (test true (wordRe w) text)) ws)).
Proof.
  intros H. unfold missingWords, bind.
  assert (E : filterM (fun w => match wordTest w text with
                                | Some b => Some (negb b)
                                | None => None
                                end) ws
              = Some (filter (fun w => negb (test true (wordRe w) text)) ws)).
  { induction ws as [| w ws IH]; cbn [filterM filter]; auto.
    rewrite (ScorerFacts.wordTest_plain hostRegExp w text (H w (or_introl eq_refl))).
    cbn [bind]. rewrite IH by (intros w' Hw'; apply H; now right).
    cbn [bind]. reflexivity. }
  unfold bind in E. rewrite E. reflexivity.
Qed.

Lemma checkAllRequiredCriteria_total productText qa :
  plainAnalysis qa -> exists c, checkAllRequiredCriteria productText qa = Some c.
Proof.
  intros (Pc & Pb & Pa). unfold Highlighter.checkAllRequiredCriteria, bind.
  rewrite (missingWords_plain "color:" productText (colors qa) Pc).
  rewrite (missingWords_plain "brand:" productText (brands qa) Pb).
  rewrite (missingWords_plain "attribute:" productText (map attr_value (attributes qa))).
  - eauto.
  - intros w Hw. apply in_map_iff in Hw. destruct Hw as (a & <- & Ha). now apply Pa.
Qed.

(** The body of [calculateMatchScore], once the query is analysed. *)
Lemma calculateMatchScore_try_cases productText userPrompt qa :
  analyzeQuery userPrompt = Some qa ->
  calculateMatchScore_try productText userPrompt =
  if noCriteria qa
  then Some (simpleMatch toLowerCase (toLowerCase productText) userPrompt)
  else if coreOk toLowerCase productText qa
       then match subScores productText qa with
            | Some scores =>
                Some (Qmin (combineScores scores (getAdaptiveWeights qa)
                            + calculateHighPerformingBoost highPerformingKeywords
                                (keywords qa)) 1)
            | None => None
            end
       else Some 0.
Proof.
  intros E. pose proof (analyzeQuery_plain _ _ E) as P.
  unfold Highlighter.calculateMatchScore_try, bind. rewrite E.
  destruct (checkAllRequiredCriteria_total productText qa P) as (c & ->).
  unfold noCriteria. destruct (_ && _ && _ && _); auto.
  rewrite (checkCoreRequirements_coreOk productText qa P).
  destruct (coreOk toLowerCase productText qa); reflexivity.
Qed.

(** A product that fails one of the four checks scores 0. *)
Lemma failed_core_scores_zero productText userPrompt qa :
  analyzeQuery userPrompt = Some qa ->
  noCriteria qa = false ->
  coreOk toLowerCase productText qa = false ->
  calculateMatchScore productText userPrompt = 0.
Proof.
  intros E Hn Hc. unfold Highlighter.calculateMatchScore.
  rewrite (calculateMatchScore_try_cases productText userPrompt qa E), Hn, Hc.
  reflexivity.
Qed.

Lemma nonempty_isEmpty {A : Type} (l : list A) : l <> [] -> isEmpty l = false.
Proof. destruct l; [congruence | reflexivity]. Qed.

Lemma existsb_none {A : Type} (f : A -> bool) l :
  (forall x, In x l -> f x = false) -> existsb f l = false.
Proof.
  induction l as [| a l IH]; intros H; cbn; auto.
  rewrite (H a (or_introl eq_refl)). apply IH. intros x Hx. apply H. now right.
Qed.

(** When the filter of [missingWords] keeps nothing, every word passed its
    test. *)
Lemma missingWords_none label text ws :
  missingWords hostRegExp label text ws = Some [] ->
  forall w, In w ws -> wordTest w text = Some true.
Proof.
  unfold missingWords, bind.
  destruct (filterM _ ws) as [absent |] eqn:E; [| discriminate].
  intros H. injection H as H. apply map_eq_nil in H. subst absent.
  revert E. induction ws as [| a ws IH]; intros E w Hw; [contradiction |].
  cbn [filterM] in E. unfold bind in E.
  destruct (Highlighter.wordTest hostRegExp a text) as [b |] eqn:Ea; [| discriminate].
  destruct (filterM _ ws) as [r |] eqn:Er; [| discriminate].
  destruct b; cbn [negb] in E; [| discriminate].
  injection E as ->.
  destruct Hw as [<- | Hw]; [assumption | now apply IH].
Qed.

(** [some] over words that all pass is [true], unless there is no word. *)
Lemma someM_all text ws :
  (forall w, In w ws -> wordTest w text = Some true) ->
  (if isEmpty ws then Some true else someM (fun w => wordTest w text) ws) = Some true.
Proof.
  destruct ws as [| w ws]; intros H; [reflexivity |].
  cbn [isEmpty someM]. rewrite (H w (or_introl eq_refl)). reflexivity.
Qed.

Lemma filter_all {A : Type} (f : A -> bool) l :
  (forall x, In x l -> f x = true) -> filter f l = l.
Proof.
  induction l as [| a l IH]; intros H; cbn; auto.
  rewrite (H a (or_introl eq_refl)). f_equal. apply IH. intros x Hx. apply H. now right.
Qed.

Lemma filter_length_mono {A : Type} (f g : A -> bool) l :
  (forall x, In x l -> f x = true -> g x = true) ->
  (List.length (filter f l) <= List.length (filter g l))%nat.
Proof.
  induction l as [| a l IH]; intros H; cbn; auto.
  assert (IH' : (List.length (filter f l) <= List.length (filter g l))%nat)
    by (apply IH; intros x Hx; apply H; now right).
  destruct (f a) eqn:Ef.
  - rewrite (H a (or_introl eq_refl) Ef). cbn. lia.
  - destruct (g a); cbn; lia.
Qed.

End WithHost.

(** The sum of the weights, for each setting of the four flags. *)
Lemma weights_total_flags (p b c a : bool) :
  let w := getAdaptiveWeights (mkQA [] [] [] [] [] [] [] [] p b c a) in
  Qle_bool 1 (total w) && Qle_bool (total w) (5 # 4)
  && Bool.eqb (Qeq_bool (total w) 1) (negb p && negb b && negb (c && a)) = true.
Proof. destruct p, b, c, a; vm_compute; reflexivity. Qed.

End CoreFacts.

(** ** More about the scorer *)

Module ScorerExtras.

Import Highlighter Notions Semantics ScorerNotions.

Local Open Scope Q_scope.

(** X1.  Brands are strictly required: when the query names brands and none
    of them stands in the product text as a whole word, whatever the case,
    [calculateMatchScore] returns 0. *)
Theorem X1_missing_brand_scores_zero
    (toLowerCase : jsstring -> jsstring) (hostRegExp : jsstring -> option RegExpObj)
    (highPerformingKeywords : list jsstring)
    (productText userPrompt : jsstring) (queryAnalysis : QueryAnalysis) :
  analyzeQuery toLowerCase hostRegExp userPrompt = Some queryAnalysis ->
  brands queryAnalysis <> [] ->
  (forall b, In b (brands queryAnalysis) -> test true (wordRe b) productText = false) ->
  calculateMatchScore toLowerCase hostRegExp highPerformingKeywords productText userPrompt = 0.
Proof.
  intros E Hne Hno.
  apply (CoreFacts.failed_core_scores_zero toLowerCase hostRegExp highPerformingKeywords _ _ queryAnalysis E).
  - unfold noCriteria. rewrite (CoreFacts.nonempty_isEmpty _ Hne).
    now rewrite andb_false_r.
  - unfold coreOk. rewrite (CoreFacts.nonempty_isEmpty _ Hne).
    rewrite (CoreFacts.existsb_none _ _ Hno). cbn [orb].
    now rewrite andb_false_r.
Qed.

Lemma X1_witness :
  calculateMatchScore asciiLower noHost []
    (lit "Adidas - Sneaker low - white") (lit "nike sneakers") = 0.
Proof.
  apply (X1_missing_brand_scores_zero asciiLower noHost []
           (lit "Adidas - Sneaker low - white") (lit "nike sneakers") nikeSneakers).
  - vm_compute. reflexivity.
  - vm_compute. discriminate.
  - intros b Hb. vm_compute in Hb. destruct Hb as [<- | []]. vm_compute. reflexivity.
Defined.

(** X2.  Keywords are required: when the query has keywords and none of them
    is found in the lower-cased product text (as it stands, with an [s]
    added or with its last letter dropped), or fewer than half of them are,
    [calculateMatchScore] returns 0. *)
Theorem X2_too_few_keywords_scores_zero
    (toLowerCase : jsstring -> jsstring) (hostRegExp : jsstring -> option RegExpObj)
    (highPerformingKeywords : list jsstring)
    (productText userPrompt : jsstring) (queryAnalysis : QueryAnalysis) (found : nat) :
  analyzeQuery toLowerCase hostRegExp userPrompt = Some queryAnalysis ->
  keywords queryAnalysis <> [] ->
  found = List.length (filter (keywordMatches (toLowerCase productText))
                         (keywords queryAnalysis)) ->
  (found = 0 \/ 2 * found < List.length (keywords queryAnalysis))%nat ->
  calculateMatchScore toLowerCase hostRegExp highPerformingKeywords productText userPrompt = 0.
Proof.
  intros E Hne -> Hfew.
  apply (CoreFacts.failed_core_scores_zero toLowerCase hostRegExp highPerformingKeywords _ _ queryAnalysis E).
  - unfold noCriteria. now rewrite (CoreFacts.nonempty_isEmpty _ Hne).
  - unfold coreOk. rewrite (CoreFacts.nonempty_isEmpty _ Hne). cbn [orb].
    match goal with |- context [(?a <? ?b)%nat] =>
      replace (a <? b)%nat with true end; [reflexivity |].
    symmetry. apply Nat.ltb_lt. unfold keywordThreshold.
    set (n := List.length (keywords queryAnalysis)) in *.
    assert (Hdiv : (n + 1 <= 2 * ((n + 1) / 2) + 1)%nat).
    { pose proof (Nat.div_mod_eq (n + 1) 2) as D.
      pose proof (Nat.mod_upper_bound (n + 1) 2). lia. }
    destruct Hfew as [-> | Hlt]; lia.
Qed.

Lemma X2_witness :
  calculateMatchScore asciiLower noHost []
    (lit "Nike - Shirt - white") (lit "white sneakers") = 0.
Proof.
  apply (X2_too_few_keywords_scores_zero asciiLower noHost []
           (lit "Nike - Shirt - white") (lit "white sneakers") whiteSneakers 0).
  - vm_compute. reflexivity.
  - vm_compute. discriminate.
  - vm_compute. reflexivity.
  - left. reflexivity.
Defined.

(** X3.  Price constraints are required only of products that show a price
    the extractor reads: when it reads prices and none of them meets every
    constraint, [calculateMatchScore] returns 0; when it reads no price,
    [checkCoreRequirements] answers as it would had the query named no
    price at all. *)
Theorem X3_price_requirement
    (toLowerCase : jsstring -> jsstring) (hostRegExp : jsstring -> option RegExpObj)
    (highPerformingKeywords : list jsstring)
    (productText userPrompt : jsstring) (queryAnalysis : QueryAnalysis) :
  analyzeQuery toLowerCase hostRegExp userPrompt = Some queryAnalysis ->
  priceConstraints queryAnalysis <> [] ->
  (extractPricesFromText productText <> [] ->
   somePriceMatches (extractPricesFromText productText) (priceConstraints queryAnalysis)
   = false ->
   calculateMatchScore toLowerCase hostRegExp highPerformingKeywords productText userPrompt
   = 0)
  /\ (extractPricesFromText productText = [] ->
      checkCoreRequirements toLowerCase hostRegExp productText queryAnalysis
      = checkCoreRequirements toLowerCase hostRegExp productText
          (withoutPrice queryAnalysis)).
Proof.
  intros E Hne. split.
  - intros Hp Hno.
    apply (CoreFacts.failed_core_scores_zero toLowerCase hostRegExp highPerformingKeywords _ _ queryAnalysis E).
    + unfold noCriteria. rewrite (CoreFacts.nonempty_isEmpty _ Hne).
      now rewrite !andb_false_r.
    + unfold coreOk. rewrite (CoreFacts.nonempty_isEmpty _ Hne).
      rewrite (CoreFacts.nonempty_isEmpty _ Hp), Hno. cbn [orb].
      now rewrite andb_false_r.
  - intros Hp. pose proof (CoreFacts.analyzeQuery_plain _ _ _ _ E) as P.
    rewrite !CoreFacts.checkCoreRequirements_coreOk; auto.
    unfold coreOk, withoutPrice; cbn [keywords colors brands priceConstraints isEmpty].
    rewrite Hp. cbn [isEmpty]. now rewrite !orb_true_r.
Qed.

Lemma X3_witness :
  calculateMatchScore asciiLower noHost []
    (lit "Nike Sneakers $80") (lit "sneakers under $50") = 0.
Proof.
  apply (X3_price_requirement asciiLower noHost []
           (lit "Nike Sneakers $80") (lit "sneakers under $50") sneakersUnder50).
  - vm_compute. reflexivity.
  - vm_compute. discriminate.
  - vm_compute. discriminate.
  - vm_compute. reflexivity.
Defined.

(** [parseFloat] rounds to the nearest double: a price written as
    50.00000000000000001 is 50 and meets "under $50". *)
Example price_rounds_to_double :
  parseFloat (lit "50.00000000000000001") = Some 50
  /\ calculateMatchScore asciiLower noHost []
       (lit "Nike Sneakers $50.00000000000000001") (lit "sneakers under $50") == 95 # 100.
Proof. split; vm_compute; reflexivity. Qed.

(** X4.  When the analysis of the query yields no keyword, colour, brand or
    price constraint, [calculateMatchScore] is the share of the prompt's
    words of more than two code units that the lower-cased product text
    contains, provided that share exceeds one half, and 0 otherwise. *)
Theorem X4_simple_matching
    (toLowerCase : jsstring -> jsstring) (hostRegExp : jsstring -> option RegExpObj)
    (highPerformingKeywords : list jsstring)
    (productText userPrompt : jsstring) (queryAnalysis : QueryAnalysis) :
  analyzeQuery toLowerCase hostRegExp userPrompt = Some queryAnalysis ->
  keywords queryAnalysis = [] -> colors queryAnalysis = [] ->
  brands queryAnalysis = [] -> priceConstraints queryAnalysis = [] ->
  calculateMatchScore toLowerCase hostRegExp highPerformingKeywords productText userPrompt
  = simpleMatch toLowerCase (toLowerCase productText) userPrompt
  /\ (calculateMatchScore toLowerCase hostRegExp highPerformingKeywords productText
        userPrompt = 0
      \/ 1 # 2 < calculateMatchScore toLowerCase hostRegExp highPerformingKeywords
                   productText userPrompt).
Proof.
  intros E Hk Hc Hb Hp.
  assert (Es : calculateMatchScore toLowerCase hostRegExp highPerformingKeywords
                 productText userPrompt
               = simpleMatch toLowerCase (toLowerCase productText) userPrompt).
  { unfold calculateMatchScore.
    rewrite (CoreFacts.calculateMatchScore_try_cases _ _ _ _ _ queryAnalysis E).
    unfold noCriteria. rewrite Hk, Hc, Hb, Hp. reflexivity. }
  split; [exact Es |]. rewrite Es. unfold simpleMatch.
  destruct (Qlt_le_dec _ _); [now right | now left].
Qed.

Lemma X4_witness :
  calculateMatchScore asciiLower noHost [] (lit "Samsung TV 55 inch") (lit "tv") = 0.
Proof.
  destruct (X4_simple_matching asciiLower noHost []
              (lit "Samsung TV 55 inch") (lit "tv") tv) as [E _];
    [vm_compute; reflexivity | reflexivity | reflexivity | reflexivity | reflexivity |].
  rewrite E. vm_compute. reflexivity.
Defined.

(** X5.  The adaptive weights are not normalised: their sum is 1 for a query
    that names no price and no brand and not both a colour and an
    attribute, and exceeds 1 otherwise, up to 1.25; this is why the weighted
    sum is cut at 1. *)
Theorem X5_weights_total (queryAnalysis : QueryAnalysis) :
  1 <= total (getAdaptiveWeights queryAnalysis) <= 5 # 4
  /\ (total (getAdaptiveWeights queryAnalysis) == 1
      <-> hasPrice queryAnalysis = false /\ hasBrand queryAnalysis = false
          /\ hasColor queryAnalysis && hasAttributes queryAnalysis = false).
Proof.
  pose proof (CoreFacts.weights_total_flags (hasPrice queryAnalysis) (hasBrand queryAnalysis)
                (hasColor queryAnalysis) (hasAttributes queryAnalysis)) as H.
  change (getAdaptiveWeights (mkQA [] [] [] [] [] [] [] [] (hasPrice queryAnalysis)
            (hasBrand queryAnalysis) (hasColor queryAnalysis) (hasAttributes queryAnalysis)))
    with (getAdaptiveWeights queryAnalysis) in H.
  cbv zeta in H.
  apply andb_true_iff in H. destruct H as [H He].
  apply andb_true_iff in H. destruct H as [Hlo Hhi].
  apply Qle_bool_iff in Hlo. apply Qle_bool_iff in Hhi.
  apply Bool.eqb_prop in He.
  split; [split; assumption |].
  rewrite <- Qeq_bool_iff, He.
  destruct (hasPrice queryAnalysis), (hasBrand queryAnalysis),
           (hasColor queryAnalysis), (hasAttributes queryAnalysis);
    cbn; intuition discriminate.
Qed.

Lemma X5_witness : total (getAdaptiveWeights tv) == 1.
Proof.
  apply (proj2 (X5_weights_total tv)). repeat split; reflexivity.
Defined.

(** X6.  A product that satisfies all required criteria passes the core
    check: when [checkAllRequiredCriteria] reports nothing missing,
    [checkCoreRequirements] returns [true]. *)
Theorem X6_all_criteria_imply_core
    (toLowerCase : jsstring -> jsstring) (hostRegExp : jsstring -> option RegExpObj)
    (productText : jsstring) (queryAnalysis : QueryAnalysis) (check : CriteriaCheck) :
  checkAllRequiredCriteria toLowerCase hostRegExp productText queryAnalysis = Some check ->
  allRequired check = true ->
  checkCoreRequirements toLowerCase hostRegExp productText queryAnalysis = Some true.
Proof.
  unfold checkAllRequiredCriteria, bind.
  destruct (missingWords hostRegExp "color:" productText (colors queryAnalysis))
    as [mc |] eqn:Ec; [| discriminate].
  destruct (missingWords hostRegExp "brand:" productText (brands queryAnalysis))
    as [mb |] eqn:Eb; [| discriminate].
  destruct (missingWords hostRegExp "attribute:" productText _) as [ma |]; [| discriminate].
  intros H; injection H as <-. cbn [allRequired]. intros Hall.
  assert (Hnil : forall (l : list jsstring), isEmpty l = true -> l = [])
    by (intros [| ? ?]; [reflexivity | discriminate]).
  apply Hnil in Hall.
  apply app_eq_nil in Hall. destruct Hall as [Hk Hall].
  apply app_eq_nil in Hall. destruct Hall as [-> Hall].
  apply app_eq_nil in Hall. destruct Hall as [-> Hall].
  apply app_eq_nil in Hall. destruct Hall as [Hp _].
  pose proof (CoreFacts.missingWords_none hostRegExp _ _ _ Ec) as Hc.
  pose proof (CoreFacts.missingWords_none hostRegExp _ _ _ Eb) as Hb.
  unfold checkCoreRequirements, bind.
  (* 1. every keyword is in the text *)
  assert (Hkw : filter (keywordMatches (toLowerCase productText)) (keywords queryAnalysis)
                = keywords queryAnalysis).
  { apply map_eq_nil in Hk.
    apply CoreFacts.filter_all. intros k Hin. unfold keywordMatches.
    destruct (includes (toLowerCase productText) k) eqn:Ei; [reflexivity |].
    assert (In k (filter (fun keyword => negb (includes (toLowerCase productText) keyword))
                    (keywords queryAnalysis)))
      by (apply filter_In; split; [assumption | now rewrite Ei]).
    rewrite Hk in *. contradiction. }
  rewrite Hkw.
  replace (negb (isEmpty (keywords queryAnalysis))
           && (List.length (keywords queryAnalysis)
               <? keywordThreshold (List.length (keywords queryAnalysis)))%nat)
    with false.
  2:{ destruct (keywords queryAnalysis) as [| k ks]; [reflexivity |].
      cbn [isEmpty negb andb]. symmetry. apply Nat.ltb_ge. unfold keywordThreshold.
      cbn [List.length].
      pose proof (Nat.div_mod_eq (S (List.length ks) + 1) 2).
      pose proof (Nat.mod_upper_bound (S (List.length ks) + 1) 2). lia. }
  rewrite (CoreFacts.someM_all hostRegExp productText (colors queryAnalysis) Hc).
  rewrite (CoreFacts.someM_all hostRegExp productText (brands queryAnalysis) Hb).
  destruct (isEmpty (colors queryAnalysis)), (isEmpty (brands queryAnalysis));
    cbn [negb];
    destruct (isEmpty (priceConstraints queryAnalysis)); cbn [negb] in *; auto;
    destruct (isEmpty (extractPricesFromText productText)); auto;
    destruct (somePriceMatches _ _); cbn [negb] in *; auto; discriminate.
Qed.

Lemma X6_witness :
  checkCoreRequirements asciiLower noHost (lit "Nike - Sneakers low - white") whiteSneakers
  = Some true.
Proof.
  eapply (X6_all_criteria_imply_core asciiLower noHost
            (lit "Nike - Sneakers low - white") whiteSneakers).
  - vm_compute. reflexivity.
  - reflexivity.
Defined.

(** X7.  The boost for high-performing keywords never lowers a score: with
    a larger allowlist [calculateMatchScore] is at least what it is with a
    smaller one, and so at least what it is with none. *)
Theorem X7_boost_never_lowers
    (toLowerCase : jsstring -> jsstring) (hostRegExp : jsstring -> option RegExpObj)
    (fewer more : list jsstring) (productText userPrompt : jsstring) :
  sublist fewer more ->
  calculateMatchScore toLowerCase hostRegExp fewer productText userPrompt
  <= calculateMatchScore toLowerCase hostRegExp more productText userPrompt.
Proof.
  intros Hsub. unfold calculateMatchScore.
  destruct (ScorerFacts.analyzeQuery_total toLowerCase hostRegExp userPrompt) as (qa & E).
  rewrite (CoreFacts.calculateMatchScore_try_cases toLowerCase hostRegExp fewer
             productText userPrompt qa E).
  rewrite (CoreFacts.calculateMatchScore_try_cases toLowerCase hostRegExp more
             productText userPrompt qa E).
  destruct (noCriteria qa); [apply Qle_refl |].
  destruct (coreOk toLowerCase productText qa); [| apply Qle_refl].
  destruct (subScores toLowerCase hostRegExp productText qa) as [sc |]; [| apply Qle_refl].
  apply Q.min_le_compat_r. apply Qplus_le_r.
  unfold calculateHighPerformingBoost.
  apply Qmult_le_compat_r; [| discriminate].
  unfold Qle; cbn. rewrite !Z.mul_1_r. apply inj_le.
  apply CoreFacts.filter_length_mono. intros k _. apply Hsub.
Qed.

Lemma X7_witness :
  calculateMatchScore asciiLower noHost []
    (lit "Nike - Sneakers low - white") (lit "white sneakers")
  <= calculateMatchScore asciiLower noHost [lit "sneakers"]
       (lit "Nike - Sneakers low - white") (lit "white sneakers").
Proof.
  apply (X7_boost_never_lowers asciiLower noHost [] [lit "sneakers"]).
  intros k Hk. discriminate.
Defined.

(** X8.  Every price constraint extracted from a prompt has the type the
    whole prompt decides: [max] when the prompt contains "under", "below",
    "less" or "max" anywhere, [min] otherwise; so all the constraints of one
    prompt have the same type.  Its value is not negative and its currency
    field is not empty. *)
Theorem X8_constraints_share_type (prompt : jsstring) (c : PriceConstraint) :
  In c (extractPriceConstraints prompt) ->
  pc_type c = (if includes prompt (lit "under") || includes prompt (lit "below")
                  || includes prompt (lit "less") || includes prompt (lit "max")
               then Max else Min)
  /\ 0 <= pc_value c
  /\ pc_currency c <> [].
Proof.
  intros H. repeat split.
  - apply (PriceFacts.extractPriceConstraints_type prompt c H).
  - now apply PriceMore.constraint_value_nonneg with prompt.
  - now apply PriceMore.constraint_currency_nonempty with prompt.
Qed.

Lemma X8_witness :
  pc_type (mkConstraint Max 50 (lit "50")) = Max
  /\ In (mkConstraint Max 50 (lit "50"))
        (extractPriceConstraints (lit "sneakers over 50 under 100")).
Proof.
  assert (H : In (mkConstraint Max 50 (lit "50"))
                (extractPriceConstraints (lit "sneakers over 50 under 100")))
    by (vm_compute; right; left; reflexivity).
  split; [| exact H].
  exact (proj1 (X8_constraints_share_type (lit "sneakers over 50 under 100")
                  (mkConstraint Max 50 (lit "50")) H)).
Defined.

(** X9.  [extractPricesFromText] reads a price only where the currency
    symbol comes first: its second pattern, number then symbol, hands the
    symbol to [parseFloat] and so contributes nothing.  No price read is
    negative. *)
Theorem X9_prices_symbol_first (text : jsstring) :
  extractPricesFromText text = pricesOfPattern symbolFirst text
  /\ pricesOfPattern numberFirst text = []
  /\ Forall (fun price => 0 <= price) (extractPricesFromText text).
Proof.
  assert (E : pricesOfPattern numberFirst text = []).
  { unfold pricesOfPattern. apply PriceMore.flat_map_nil. intros m Hm.
    now rewrite (PriceMore.numberFirst_reads_symbol text m Hm). }
  repeat split; auto.
  - change (extractPricesFromText text)
      with (pricesOfPattern symbolFirst text ++ pricesOfPattern numberFirst text ++ []).
    rewrite E. now rewrite app_nil_r.
  - apply Forall_forall. intros q. apply PriceMore.price_nonneg.
Qed.

(** "€ 49,95" is read as the double nearest to 49.95, "49,95 €" is not
    read. *)
Example price_before_and_after_symbol :
  extractPricesFromText (EURO :: lit " 49,95") = [nearestDouble 4995 2]
  /\ extractPricesFromText (lit "49,95 " ++ [EURO]) = [].
Proof. split; vm_compute; reflexivity. Qed.

(** X10.  The fourth pattern of [extractPriceConstraints], number then
    currency then "or less", "max" or "maximum", hands the currency to
    [parseFloat] and so never yields a constraint: the constraints of a
    prompt are those of the first three patterns. *)
Theorem X10_fourth_pattern_yields_nothing (prompt : jsstring) :
  constraintsOfPattern pricePattern4 prompt = []
  /\ extractPriceConstraints prompt
     = constraintsOfPattern pricePattern1 prompt
       ++ constraintsOfPattern pricePattern2 prompt
       ++ constraintsOfPattern pricePattern3 prompt.
Proof.
  assert (E : constraintsOfPattern pricePattern4 prompt = []).
  { unfold constraintsOfPattern. apply PriceMore.flat_map_nil.
    apply PriceMore.pattern4_reads_currency. }
  split; [exact E |].
  change (extractPriceConstraints prompt)
    with (constraintsOfPattern pricePattern1 prompt
          ++ constraintsOfPattern pricePattern2 prompt
          ++ constraintsOfPattern pricePattern3 prompt
          ++ constraintsOfPattern pricePattern4 prompt ++ []).
  rewrite E. cbn [app]. now rewrite app_nil_r.
Qed.

(** X11.  Every keyword [extractMeaningfulKeywords] returns is longer than
    two code units, holds no white space, and is not a number: one of its
    code units is not a digit. *)
Theorem X11_keywords_shape (cleanedQuery keyword : jsstring) :
  In keyword (extractMeaningfulKeywords cleanedQuery) ->
  (2 < List.length keyword)%nat
  /\ (forall c, In c keyword -> isSpace c = false)
  /\ (exists c, In c keyword /\ isDigit c = false).
Proof.
  unfold extractMeaningfulKeywords. intros H.
  apply filter_In in H. destruct H as [H Hd].
  apply filter_In in H. destruct H as [H Hl].
  unfold longerThan2 in Hl. apply Nat.ltb_lt in Hl.
  split; [exact Hl |]. split.
  - pose proof (MatcherFacts.split_free false isSpace cleanedQuery) as F.
    rewrite Forall_forall in F. specialize (F keyword H).
    unfold free in F. rewrite forallb_forall in F.
    intros c Hc. apply F in Hc. now apply negb_true_iff in Hc.
  - apply PriceMore.forallb_false_witness.
    destruct (forallb isDigit keyword) eqn:E; [| reflexivity].
    rewrite PriceMore.allDigits_complete in Hd; [discriminate | | assumption].
    destruct keyword; [cbn in Hl; lia | discriminate].
Qed.

Lemma X11_witness :
  extractMeaningfulKeywords (lit "running shoes 2024") = [lit "running"; lit "shoes"]
  /\ (2 < List.length (lit "shoes"))%nat.
Proof.
  assert (E : extractMeaningfulKeywords (lit "running shoes 2024")
              = [lit "running"; lit "shoes"]) by (vm_compute; reflexivity).
  split; [exact E |].
  apply (X11_keywords_shape (lit "running shoes 2024") (lit "shoes")).
  rewrite E. right. left. reflexivity.
Defined.

End ScorerExtras.

(** ** Where the fallback embedding is written *)

Module LayoutFacts.

Import RAG Notions.

Local Open Scope nat_scope.

Lemma setAt_skipn {A : Type} (v : A) : forall arr i n,
  i < n -> skipn n (setAt i v arr) = skipn n arr.
Proof.
  induction arr as [| a arr IH]; intros [| i] [| n] H; cbn; auto; try lia.
  apply IH. lia.
Qed.

Lemma skipn_repeat {A : Type} (x : A) : forall n m,
  skipn n (repeat x m) = repeat x (m - n).
Proof.
  induction n as [| n IH]; intros [| m]; cbn; auto.
Qed.

Section AnyArithmetic.

Variable ops : Num.Ops.
Variable toLowerCase : jsstring -> jsstring.

(** The slots of one category: the index moves on by at most one per slot,
    and nothing is written past it. *)
Lemma spread_tail score : forall is_ emb idx n,
  idx + List.length is_ <= n ->
  let st := fold_left (fun '(embedding, index) i =>
               if index <? List.length embedding
               then (setAt index (Num.f32 ops (spreadValue ops score i)) embedding, S index)
               else (embedding, index)) is_ (emb, idx) in
  skipn n (fst st) = skipn n emb /\ snd st <= idx + List.length is_.
Proof.
  induction is_ as [| i is_ IH]; intros emb idx n H; cbn [fold_left List.length] in *.
  - cbn. split; auto. lia.
  - destruct (idx <? List.length emb).
    + destruct (IH (setAt idx (Num.f32 ops (spreadValue ops score i)) emb) (S idx) n)
        as [E L]; [lia |].
      cbv zeta in *. rewrite E. split; [apply setAt_skipn; lia | lia].
    + destruct (IH emb idx n) as [E L]; [lia |]. cbv zeta in *. split; [exact E | lia].
Qed.

Lemma scoreCategory_tail cleanText category emb idx n :
  idx + 10 <= n ->
  skipn n (fst (scoreCategory ops cleanText (emb, idx) category)) = skipn n emb
  /\ snd (scoreCategory ops cleanText (emb, idx) category) <= idx + 10.
Proof.
  intros H. unfold scoreCategory.
  apply (spread_tail _ (seq 0 10) emb idx n). rewrite length_seq. exact H.
Qed.

Lemma categories_tail cleanText : forall cats st n,
  snd st + 10 * List.length cats <= n ->
  skipn n (fst (fold_left (scoreCategory ops cleanText) cats st)) = skipn n (fst st)
  /\ snd (fold_left (scoreCategory ops cleanText) cats st) <= snd st + 10 * List.length cats.
Proof.
  induction cats as [| c cats IH]; intros [emb idx] n H; cbn [fold_left List.length fst snd] in *.
  - split; auto. lia.
  - destruct (scoreCategory_tail cleanText c emb idx n) as [E L]; [lia |].
    destruct (scoreCategory ops cleanText (emb, idx) c) as [emb' idx'] eqn:Es.
    cbn [fst snd] in *.
    destruct (IH (emb', idx') n) as [E' L']; [cbn [snd]; lia |].
    cbn [fst snd] in *. split; [congruence | lia].
Qed.

Lemma addWord_tail index embedding word n :
  index + 50 <= n -> skipn n (addWord ops index embedding word) = skipn n embedding.
Proof.
  intros H. unfold addWord.
  destruct (index <? List.length embedding - 50); auto.
  apply setAt_skipn.
  assert (0 <= hashWord word mod 50 < 50)%Z by (apply Z.mod_pos_bound; lia). lia.
Qed.

(** Only the first 120 slots are ever written. *)
Lemma rawEmbedding_tail text :
  skipn 120 (rawEmbedding ops toLowerCase text) = repeat (zero ops) 180.
Proof.
  unfold rawEmbedding.
  destruct (categories_tail (toLowerCase text) categories (repeat (zero ops) 300, 0) 70)
    as [_ L]; [cbn; lia |].
  destruct (categories_tail (toLowerCase text) categories (repeat (zero ops) 300, 0) 120)
    as [E _]; [cbn; lia |].
  destruct (fold_left (scoreCategory ops (toLowerCase text)) categories _) as [emb idx].
  cbn [fst snd] in *.
  assert (G : forall ws e, skipn 120 (fold_left (addWord ops idx) ws e) = skipn 120 e).
  { induction ws as [| w ws IH]; intros e; cbn [fold_left]; auto.
    rewrite IH. apply addWord_tail. cbn in L. lia. }
  rewrite G, E. apply (skipn_repeat (zero ops) 120 300).
Qed.

End AnyArithmetic.

Local Open Scope R_scope.

Lemma fallback_tail_exact toLowerCase text :
  skipn 120 (generateFallbackEmbedding Num.Exact toLowerCase text) = repeat 0%R 180.
Proof.
  unfold generateFallbackEmbedding. rewrite ExactFacts.normalize_exact.
  pose proof (rawEmbedding_tail Num.Exact toLowerCase text) as T.
  rewrite ExactFacts.zero_exact in T.
  destruct (Rlt_dec 0 _) as [L | _]; [| exact T].
  rewrite skipn_map. change (Num.num Num.Exact) with R in *.
  rewrite T, map_repeat. f_equal. unfold Rdiv. apply Rmult_0_l.
Qed.

(** The loop of [cosineSimilarity] stops at the end of the shorter vector. *)
Lemma cosineLoop_prefix ops : forall v1 v2 acc,
  cosineLoop ops v1 v2 acc
  = cosineLoop ops (firstn (Nat.min (List.length v1) (List.length v2)) v1)
                   (firstn (Nat.min (List.length v1) (List.length v2)) v2) acc.
Proof.
  induction v1 as [| a v1 IH]; intros [| b v2] acc; cbn [List.length Nat.min firstn cosineLoop];
    auto.
  destruct acc as [[d p] q]. apply IH.
Qed.

Lemma cosineLoop_swap : forall v1 v2 acc,
  cosineLoop Num.Exact v2 v1 (RetrievalNotions.swapNorms acc)
  = RetrievalNotions.swapNorms (cosineLoop Num.Exact v1 v2 acc).
Proof.
  induction v1 as [| a v1 IH]; intros [| b v2] [[d p] q]; cbn [cosineLoop]; auto.
  rewrite <- IH. cbn [RetrievalNotions.swapNorms Num.mul Num.add Num.Exact].
  now rewrite (Rmult_comm b a).
Qed.

Lemma cosineOfSums_swap acc :
  cosineOfSums Num.Exact (RetrievalNotions.swapNorms acc) = cosineOfSums Num.Exact acc.
Proof.
  destruct acc as [[d p] q]. unfold cosineOfSums, RetrievalNotions.swapNorms.
  rewrite orb_comm.
  destruct (_ || _); auto. cbn. now rewrite (Rmult_comm (R_sqrt.sqrt q)).
Qed.

End LayoutFacts.

(** ** What [generateWithRAG] returns *)

Module GenerationMore.

Import RAG Notions RetrievalNotions.

Local Open Scope nat_scope.

Lemma firstn_In {A : Type} (x : A) : forall l n, In x (firstn n l) -> In x l.
Proof.
  induction l as [| a l IH]; intros [| n]; cbn; try tauto.
  intros [-> | H]; [now left | right; eauto].
Qed.

Lemma assign_length {V : Type} key (v : V) m :
  List.length (assign key v m) <= S (List.length m).
Proof.
  induction m as [| [k w] m IH]; cbn; auto.
  destruct (eqs k key); cbn; lia.
Qed.

Lemma lookup_In {V : Type} key (v : V) m : lookup key m = Some v -> In (key, v) m.
Proof.
  induction m as [| [k w] m IH]; cbn; [discriminate |].
  destruct (eqs k key) eqn:E.
  - apply DedupFacts.eqs_true in E. subst k. intros H; injection H as ->. now left.
  - intros H. right. now apply IH.
Qed.

Lemma objectEntries_In {V : Type} (obj : list (jsstring * V)) e :
  In e (objectEntries obj) -> In e obj.
Proof.
  unfold objectEntries. intros H. apply in_app_or in H. destruct H as [H | H].
  - apply (Permutation_in _ (Permutation_sym (SortFacts.sortBy_perm _ _ _))) in H.
    apply filter_In in H. tauto.
  - apply filter_In in H. tauto.
Qed.

Section Generation.

Variable ops : Num.Ops.
Variable toLowerCase : jsstring -> jsstring.
Variable model : option (jsstring -> option (list (Num.num ops))).
Variable getAllChunks : outcome (list (Chunk ops)).
Variable getProductMetadata : jsstring -> outcome (option ProductMeta).
Variable toFixed3 : Num.num ops -> jsstring.

Local Abbreviation retrieveRelevantChunks :=
  (retrieveRelevantChunks ops toLowerCase model getAllChunks).
Local Abbreviation addMatch := (addMatch ops getProductMetadata toFixed3).
Local Abbreviation generateWithRAG_try :=
  (generateWithRAG_try ops toLowerCase model getAllChunks getProductMetadata toFixed3).
Local Abbreviation generateWithRAG :=
  (generateWithRAG ops toLowerCase model getAllChunks getProductMetadata toFixed3).

(** Retrieval keeps at most [maxChunks] chunks, all above the threshold. *)
Lemma retrieved query maxChunks rcs :
  retrieveRelevantChunks query maxChunks = Ok rcs ->
  List.length rcs <= maxChunks
  /\ forall rc, In rc rcs ->
       Num.gtb ops (similarity ops rc) (similarityThreshold ops) = true.
Proof.
  unfold RAG.retrieveRelevantChunks. generalize getAllChunks.
  intros [chunks | e]; cbn [obind]; [| discriminate].
  intros H. injection H as <-. split.
  - rewrite length_firstn. apply Nat.le_min_l.
  - intros rc Hrc. apply firstn_In in Hrc. apply filter_In in Hrc. tauto.
Qed.

Lemma addChunkScore_length rcs : forall m,
  List.length (fold_left (addChunkScore ops) rcs m) <= List.length m + List.length rcs.
Proof.
  induction rcs as [| rc rcs IH]; intros m; cbn [fold_left List.length]; [lia |].
  etransitivity; [apply IH |]. unfold addChunkScore.
  destruct (inherited _); [lia |].
  match goal with |- context [assign ?k ?v m] => pose proof (assign_length k v m) end.
  lia.
Qed.

(** Where the matches of step 3 come from. *)
Lemma addMatch_fold entries : forall acc ms,
  forM addMatch entries acc = Ok ms ->
  List.length ms <= List.length acc + List.length entries
  /\ forall m, In m ms ->
       In m acc
       \/ exists id scores,
            In (id, scores) entries
            /\ Num.gtb ops (maxSimilarity ops scores) (similarityThreshold ops) = true
            /\ confidence ops m = maxSimilarity ops scores
            /\ avgConfidence ops m = avgSimilarity ops scores
            /\ retrievalScore ops m = maxSimilarity ops scores.
Proof.
  induction entries as [| [id scores] entries IH]; intros acc ms; cbn [forM List.length].
  - intros H. injection H as <-. split; [lia | auto].
  - unfold RAG.addMatch at 1. unfold obind at 1. unfold obind at 1.
    destruct (getProductMetadata id) as [[meta |] | e]; [| | discriminate].
    + destruct (Num.gtb ops (maxSimilarity ops scores) (similarityThreshold ops)) eqn:G.
      * intros H. apply IH in H. destruct H as [L H].
        rewrite length_app in L. cbn [List.length] in L. split; [lia |].
        intros m Hm. destruct (H m Hm) as [Hin | (id' & sc' & Hin & R)].
        -- apply in_app_or in Hin. destruct Hin as [Hin | [<- | []]]; auto.
           right. exists id, scores. cbn. auto.
        -- right. exists id', sc'. cbn. auto.
      * intros H. apply IH in H. destruct H as [L H]. split; [lia |].
        intros m Hm. destruct (H m Hm) as [Hin | (id' & sc' & Hin & R)]; auto.
        right. exists id', sc'. cbn. auto.
    + intros H. apply IH in H. destruct H as [L H]. split; [lia |].
      intros m Hm. destruct (H m Hm) as [Hin | (id' & sc' & Hin & R)]; auto.
      right. exists id', sc'. cbn. auto.
Qed.

Lemma dedupStep_length m x :
  List.length (dedupStep ops toLowerCase m x) <= S (List.length m).
Proof.
  unfold dedupStep. destruct (lookup _ m); [destruct (Num.gtb _ _ _) |];
    try apply assign_length. lia.
Qed.

Lemma dedupStep_In m x e :
  In e (dedupStep ops toLowerCase m x) -> snd e = x \/ In e m.
Proof.
  unfold dedupStep. destruct (lookup _ m); [destruct (Num.gtb _ _ _) |]; auto;
    intros H; apply DedupFacts.assign_In in H; destruct H as [-> | H]; auto.
Qed.

Lemma dedup_fold ms : forall m,
  List.length (fold_left (dedupStep ops toLowerCase) ms m) <= List.length m + List.length ms
  /\ forall e, In e (fold_left (dedupStep ops toLowerCase) ms m) -> In (snd e) ms \/ In e m.
Proof.
  induction ms as [| x ms IH]; intros m; cbn [fold_left List.length].
  - split; [lia | auto].
  - destruct (IH (dedupStep ops toLowerCase m x)) as [L H].
    pose proof (dedupStep_length m x). split; [lia |].
    intros e He. destruct (H e He) as [Hin | Hin]; [left; now right |].
    apply dedupStep_In in Hin. destruct Hin as [<- | Hin]; [left; now left | now right].
Qed.

(** Deduplication keeps matches, and only matches it was given. *)
Lemma deduplicate_sub ms :
  List.length (deduplicate ops toLowerCase ms) <= List.length ms
  /\ forall x, In x (deduplicate ops toLowerCase ms) -> In x ms.
Proof.
  unfold deduplicate. destruct (dedup_fold ms []) as [L H]. split.
  - rewrite length_map. cbn in L. lia.
  - intros x Hx. apply in_map_iff in Hx. destruct Hx as (e & <- & He).
    destruct (H e He) as [Hin | []]. exact Hin.
Qed.

(** The three ways [generateWithRAG] ends. *)
Lemma generation_cases query :
  generateWithRAG query = mkResult ops [] (reasoning ops (generateWithRAG query)) 0
  \/ exists rcs ms,
       retrieveRelevantChunks query maxRetrievedChunks = Ok rcs
       /\ forM addMatch (objectEntries (fold_left (addChunkScore ops) rcs [])) [] = Ok ms
       /\ matches ops (generateWithRAG query)
          = sortByConfidence ops (deduplicate ops toLowerCase ms)
       /\ retrievedChunks ops (generateWithRAG query) = List.length rcs.
Proof.
  unfold RAG.generateWithRAG, RAG.generateWithRAG_try.
  destruct (retrieveRelevantChunks query maxRetrievedChunks) as [rcs | e] eqn:Er;
    cbn [obind]; [| now left].
  destruct (List.length rcs =? 0); [now left |].
  destruct (forM addMatch _ []) as [ms | e] eqn:Em; cbn [obind]; [| now left].
  right. exists rcs, ms. auto.
Qed.

End Generation.

Local Open Scope R_scope.

(** Adding a chunk above the threshold keeps the invariant of every score. *)
Lemma addChunkScore_invariant rc m :
  / 10 < similarity Num.Exact rc ->
  (forall e, In e m -> scoreInvariant (snd e)) ->
  forall e, In e (addChunkScore Num.Exact m rc) -> scoreInvariant (snd e).
Proof.
  intros Hs Hm e He. unfold addChunkScore in He.
  destruct (inherited _); [now apply Hm |].
  apply DedupFacts.assign_In in He. destruct He as [-> | He]; [| now apply Hm].
  cbn [snd]. unfold scoreInvariant.
  cbn [chunkCount totalSimilarity maxSimilarity avgSimilarity].
  destruct (lookup (productId Num.Exact (chunk Num.Exact rc)) m) as [s |] eqn:El.
  - apply lookup_In in El. apply Hm in El. cbn [snd] in El.
    destruct El as (Hc & Hlo & Hhi & _).
    set (c := chunkCount Num.Exact s) in *.
    set (t := totalSimilarity Num.Exact s) in *.
    set (mx := maxSimilarity Num.Exact s) in *.
    set (sim := similarity Num.Exact rc) in *.
    cbn [Num.add Num.max Num.div Num.ofQ Num.Exact].
    rewrite ExactFacts.Q2R_nat, S_INR.
    assert (0 <= INR c) by apply pos_INR.
    pose proof (Rmax_l mx sim). pose proof (Rmax_r mx sim).
    repeat split; try lia; try lra.
    apply Rle_trans with (INR c * mx + sim); [lra |].
    assert (INR c * mx <= INR c * Rmax mx sim) by (apply Rmult_le_compat_l; lra).
    lra.
  - set (sim := similarity Num.Exact rc) in *.
    cbn [chunkCount totalSimilarity maxSimilarity Num.add Num.max Num.div Num.ofQ Num.Exact].
    rewrite ExactFacts.Q2R_nat. rewrite ExactFacts.zero_exact.
    change (INR 1) with 1.
    pose proof (Rmax_r 0 sim).
    repeat split; try lia; try lra.
Qed.

Lemma addChunkScore_fold_invariant rcs : forall m,
  (forall rc, In rc rcs -> / 10 < similarity Num.Exact rc) ->
  (forall e, In e m -> scoreInvariant (snd e)) ->
  forall e, In e (fold_left (addChunkScore Num.Exact) rcs m) -> scoreInvariant (snd e).
Proof.
  induction rcs as [| rc rcs IH]; intros m Hr Hm; cbn [fold_left]; auto.
  apply IH.
  - intros rc' H'. apply Hr. now right.
  - apply addChunkScore_invariant; auto. apply Hr. now left.
Qed.

(** The average of a score lies between the threshold and the maximum. *)
Lemma scoreInvariant_average s :
  scoreInvariant s ->
  / 10 < avgSimilarity Num.Exact s <= maxSimilarity Num.Exact s.
Proof.
  intros (Hc & Hlo & Hhi & ->).
  assert (Hpos : 0 < INR (chunkCount Num.Exact s)) by (apply lt_0_INR; lia).
  split.
  - apply Rmult_lt_reg_r with (INR (chunkCount Num.Exact s)); auto.
    unfold Rdiv. rewrite Rmult_assoc, Rinv_l by lra. lra.
  - apply Rmult_le_reg_r with (INR (chunkCount Num.Exact s)); auto.
    unfold Rdiv. rewrite Rmult_assoc, Rinv_l by lra. lra.
Qed.

Lemma gtb_exact a b : Num.gtb Num.Exact a b = true -> b < a.
Proof. cbn. destruct (Rlt_dec b a); [auto | discriminate]. Qed.

End GenerationMore.

(** ** More about embeddings, similarity and generation *)

Module RetrievalExtras.

Import RAG Notions RetrievalNotions.

Local Open Scope nat_scope.

(** X12.  The fallback embedding has 300 components in any arithmetic, and
    only the first 120 are ever written: 70 slots for the seven categories
    and 50 hash slots for the words.  The other 180 stay zero before the
    normalisation step and, in exact arithmetic, after it. *)
Theorem X12_embedding_layout
    (ops : Num.Ops) (toLowerCase : jsstring -> jsstring) (text : jsstring) :
  List.length (generateFallbackEmbedding ops toLowerCase text) = 300
  /\ skipn 120 (rawEmbedding ops toLowerCase text) = repeat (zero ops) 180
  /\ skipn 120 (generateFallbackEmbedding Num.Exact toLowerCase text) = repeat 0%R 180.
Proof.
  split; [apply LengthFacts.fallback_length |].
  split; [apply LayoutFacts.rawEmbedding_tail | apply LayoutFacts.fallback_tail_exact].
Qed.

(** X13.  [cosineSimilarity] looks at the components both vectors have: what
    the longer vector holds beyond the length of the shorter one is
    ignored, in any arithmetic.  In exact arithmetic it is symmetric. *)
Theorem X13_cosine_prefix_and_symmetry :
  (forall (ops : Num.Ops) (vec1 vec2 : list (Num.num ops)),
     cosineSimilarity ops vec1 vec2
     = cosineSimilarity ops
         (firstn (Nat.min (List.length vec1) (List.length vec2)) vec1)
         (firstn (Nat.min (List.length vec1) (List.length vec2)) vec2))
  /\ (forall vec1 vec2 : list R,
        cosineSimilarity Num.Exact vec1 vec2 = cosineSimilarity Num.Exact vec2 vec1).
Proof.
  split.
  - intros ops vec1 vec2. unfold cosineSimilarity.
    now rewrite <- LayoutFacts.cosineLoop_prefix.
  - intros vec1 vec2. unfold cosineSimilarity.
    rewrite <- (LayoutFacts.cosineOfSums_swap (cosineLoop Num.Exact vec1 vec2 _)).
    rewrite <- LayoutFacts.cosineLoop_swap. reflexivity.
Qed.

(** X14.  Whatever the stores answer, in any arithmetic, the result of
    [generateWithRAG] reports at most 100 retrieved chunks and no more
    matches than retrieved chunks; no two matches have the same
    deduplication key; and every match passed the test
    [confidence > similarityThreshold], its retrieval score being its
    confidence. *)
Theorem X14_generation_result
    (ops : Num.Ops) (toLowerCase : jsstring -> jsstring)
    (model : option (jsstring -> option (list (Num.num ops))))
    (getAllChunks : outcome (list (Chunk ops)))
    (getProductMetadata : jsstring -> outcome (option ProductMeta))
    (toFixed3 : Num.num ops -> jsstring) (query : jsstring) :
  let result :=
    generateWithRAG ops toLowerCase model getAllChunks getProductMetadata toFixed3 query in
  retrievedChunks ops result <= 100
  /\ List.length (matches ops result) <= retrievedChunks ops result
  /\ NoDup (map (dedupKey ops toLowerCase) (matches ops result))
  /\ Forall (fun m =>
       Num.gtb ops (confidence ops m) (similarityThreshold ops) = true
       /\ retrievalScore ops m = confidence ops m) (matches ops result).
Proof.
  intros result. subst result.
  destruct (GenerationMore.generation_cases ops toLowerCase model getAllChunks
              getProductMetadata toFixed3 query) as [-> | (rcs & ms & Er & Em & -> & ->)].
  - cbn. repeat split; try lia; constructor.
  - apply (GenerationMore.retrieved ops toLowerCase model getAllChunks getProductMetadata)
      in Er.
    destruct Er as [Hlen Hsim].
    apply GenerationMore.addMatch_fold in Em. destruct Em as [Lms Hms].
    destruct (GenerationMore.deduplicate_sub ops toLowerCase ms) as [Ld Hd].
    assert (P : Permutation (deduplicate ops toLowerCase ms)
                  (sortByConfidence ops (deduplicate ops toLowerCase ms)))
      by apply SortFacts.sortBy_perm.
    repeat split.
    + exact Hlen.
    + rewrite <- (Permutation_length P).
      rewrite GenerationFacts.objectEntries_length in Lms.
      pose proof (GenerationMore.addChunkScore_length ops rcs []) as L.
      cbn [List.length] in *. lia.
    + eapply Permutation_NoDup; [apply Permutation_map; exact P |].
      apply DedupFacts.deduplicate_keys.
    + apply Forall_forall. intros m Hm.
      apply (Permutation_in _ (Permutation_sym P)) in Hm.
      apply Hd in Hm. destruct (Hms m Hm) as [[] | (id & sc & _ & G & -> & _ & ->)].
      split; [exact G | reflexivity].
Qed.

(** A product id that names an inherited property of [productScores] gets
    no entry there: the chunk is retrieved and no match is built. *)
Example inherited_id_gives_no_match :
  generateWithRAG Num.Double asciiLower None
    (Ok [DoubleNotions.storedChunk (lit "constructor") [1; 1]%float])
    (fun _ => Ok None) (fun _ => []) (lit "white sneakers")
  = mkResult Num.Double [] (lit "Found 0 products via semantic vector search") 1.
Proof. vm_compute. reflexivity. Qed.

Local Open Scope R_scope.

(** X15.  In exact arithmetic the matches of [generateWithRAG] come in
    descending order of confidence, and the average confidence of a match
    lies above the similarity threshold (0.1) and is at most its
    confidence, the greatest similarity among its chunks. *)
Theorem X15_matches_sorted_and_averaged
    (toLowerCase : jsstring -> jsstring)
    (model : option (jsstring -> option (list R)))
    (getAllChunks : outcome (list (Chunk Num.Exact)))
    (getProductMetadata : jsstring -> outcome (option ProductMeta))
    (toFixed3 : R -> jsstring) (query : jsstring) :
  let result :=
    generateWithRAG Num.Exact toLowerCase model getAllChunks getProductMetadata toFixed3
      query in
  byConfidence (matches Num.Exact result)
  /\ Forall (fun m =>
       / 10 < avgConfidence Num.Exact m <= confidence Num.Exact m)
       (matches Num.Exact result).
Proof.
  intros result. subst result.
  destruct (GenerationMore.generation_cases Num.Exact toLowerCase model getAllChunks
              getProductMetadata toFixed3 query) as [-> | (rcs & ms & Er & Em & -> & _)].
  - cbn. split; constructor.
  - split.
    + unfold byConfidence, sortByConfidence. apply SortFacts.sortBy_sorted.
      * intros x y z Hxy Hyz. lra.
      * intros x y H. apply GenerationMore.gtb_exact in H.
        rewrite ExactFacts.zero_exact in H. cbn in H. lra.
      * intros x y H. cbn in H. rewrite ExactFacts.Q2R_zero in H.
        destruct (Rlt_dec 0 _) as [L | L]; [discriminate | lra].
    + apply (GenerationMore.retrieved Num.Exact toLowerCase model getAllChunks
               getProductMetadata) in Er.
      destruct Er as [_ Hsim].
      apply GenerationMore.addMatch_fold in Em. destruct Em as [_ Hms].
      destruct (GenerationMore.deduplicate_sub Num.Exact toLowerCase ms) as [_ Hd].
      apply Forall_forall. intros m Hm.
      apply (Permutation_in _ (Permutation_sym (SortFacts.sortBy_perm _ _ _))) in Hm.
      apply Hd in Hm. destruct (Hms m Hm) as [[] | (id & sc & Hin & _ & -> & -> & _)].
      apply GenerationMore.scoreInvariant_average.
      apply GenerationMore.objectEntries_In in Hin.
      apply (GenerationMore.addChunkScore_fold_invariant rcs [] ) with (e := (id, sc)); auto.
      * intros rc Hrc. apply Hsim in Hrc. apply GenerationMore.gtb_exact in Hrc.
        now rewrite RetrievalFacts.threshold_exact in Hrc.
      * intros e [].
Qed.

End RetrievalExtras.

(** ** More about chunking *)

Module ChunkMore.

Import RAG Notions RetrievalNotions.

Local Open Scope nat_scope.

(** [trimStart] drops a prefix, and no non-blank code unit with it. *)
Lemma trimStart_skipn s :
  exists a, trimStart s = skipn a s
            /\ forall j c, nth_error s j = Some c -> isSpace c = false -> a <= j.
Proof.
  induction s as [| d s (a & E & H)]; cbn [trimStart].
  - exists 0. split; [reflexivity |]. intros j c Hj. destruct j; discriminate.
  - destruct (isSpace d) eqn:Ed.
    + exists (S a). split; [exact E |].
      intros [| j] c Hj Hc; cbn in Hj.
      * injection Hj as ->. congruence.
      * apply H in Hj; auto. lia.
    + exists 0. split; [reflexivity |]. intros; lia.
Qed.

Lemma trimEnd_snoc s c :
  trimEnd (s ++ [c]) = if isSpace c then trimEnd s else s ++ [c].
Proof.
  unfold trimEnd. rewrite rev_app_distr. cbn [rev app trimStart].
  destruct (isSpace c); [reflexivity |].
  cbn [rev]. now rewrite rev_involutive.
Qed.

(** [trimEnd] keeps a prefix, and every non-blank code unit in it. *)
Lemma trimEnd_firstn s :
  exists b, trimEnd s = firstn b s /\ b <= List.length s
            /\ forall j c, nth_error s j = Some c -> isSpace c = false -> j < b.
Proof.
  induction s as [| d s (b & E & L & H)] using rev_ind.
  - exists 0. repeat split; auto. intros j c Hj. destruct j; discriminate.
  - rewrite trimEnd_snoc. destruct (isSpace d) eqn:Ed.
    + exists b. rewrite length_app. cbn [List.length]. repeat split; [| lia |].
      * rewrite E. rewrite firstn_app.
        replace (b - List.length s) with 0 by lia. cbn [firstn]. now rewrite app_nil_r.
      * intros j c Hj Hc.
        destruct (Nat.lt_ge_cases j (List.length s)) as [Lt | Ge].
        -- rewrite nth_error_app1 in Hj by assumption. eapply H; eassumption.
        -- rewrite nth_error_app2 in Hj by assumption.
           destruct (j - List.length s) as [| n]; cbn in Hj.
           ++ injection Hj as ->. congruence.
           ++ destruct n; discriminate.
    + exists (List.length (s ++ [d])). repeat split; auto.
      * now rewrite firstn_all.
      * intros j c Hj _. apply nth_error_Some. congruence.
Qed.

(** [trim] cuts a substring out, around every non-blank code unit. *)
Lemma trim_substring s j c :
  nth_error s j = Some c -> isSpace c = false ->
  exists a b, trim s = substring a b s /\ a <= j /\ j < b /\ b <= List.length s.
Proof.
  intros Hj Hc. unfold trim.
  destruct (trimStart_skipn s) as (a & Ea & Ha).
  destruct (trimEnd_firstn (trimStart s)) as (b & Eb & Lb & Hb).
  pose proof (Ha j c Hj Hc) as Haj.
  assert (Hj' : nth_error (trimStart s) (j - a) = Some c).
  { rewrite Ea, nth_error_skipn. now replace (a + (j - a)) with j by lia. }
  pose proof (Hb (j - a) c Hj' Hc) as Hjb.
  rewrite Ea, length_skipn in Lb.
  exists a, (a + b). rewrite Eb, Ea. unfold substring.
  replace (a + b - a) with b by lia. repeat split; auto; lia.
Qed.

Lemma substring_substring (s : jsstring) p n a b :
  b <= n -> substring a b (substring p (p + n) s) = substring (p + a) (p + b) s.
Proof.
  intros H. unfold substring.
  replace (p + n - p) with n by lia. replace (p + b - (p + a)) with (b - a) by lia.
  rewrite skipn_firstn_comm, firstn_firstn, skipn_skipn.
  replace (Nat.min (b - a) (n - a)) with (b - a) by lia.
  now rewrite (Nat.add_comm a p).
Qed.

(** The window that holds a position holds it in its first 160 code
    units. *)
Lemma window_holds (text : jsstring) i c :
  nth_error text i = Some c ->
  nth_error (window text (i / 160)) (i mod 160) = Some c.
Proof.
  intros H. unfold window, substring.
  pose proof (Nat.div_mod_eq i 160) as D.
  pose proof (Nat.mod_upper_bound i 160) as M.
  rewrite nth_error_firstn.
  replace (i mod 160 <? 160 * (i / 160) + 200 - 160 * (i / 160)) with true
    by (symmetry; apply Nat.ltb_lt; lia).
  rewrite nth_error_skipn. now replace (160 * (i / 160) + i mod 160) with i by lia.
Qed.

(** Every non-blank code unit of the text lies in a chunk. *)
Lemma coverage (text : jsstring) i c :
  nth_error text i = Some c -> isSpace c = false ->
  exists a b, a <= i /\ i < b /\ In (substring a b text) (splitIntoChunks text chunkSize).
Proof.
  intros Hi Hc.
  pose proof (Nat.div_mod_eq i 160) as D.
  pose proof (Nat.mod_upper_bound i 160) as M.
  assert (Hlen : i < List.length text) by (apply nth_error_Some; congruence).
  pose proof (window_holds text i c Hi) as Hw.
  destruct (trim_substring _ _ _ Hw Hc) as (a & b & Et & Ha & Hb & Lb).
  pose proof (ChunkFacts.window_length text (i / 160)) as Lw.
  exists (160 * (i / 160) + a), (160 * (i / 160) + b).
  split; [lia |]. split; [lia |].
  rewrite ChunkFacts.splitIntoChunks_windows. apply in_flat_map.
  exists (i / 160). split.
  - apply in_seq. split; [lia |]. cbn [Nat.add].
    apply ChunkFacts.windowCount_spec. lia.
  - unfold piece. rewrite Et.
    unfold window at 1 2.
    rewrite (substring_substring text (160 * (i / 160)) 200 a b) by lia.
    destruct (substring _ _ text) as [| x l] eqn:Es.
    + exfalso. assert (L : List.length (substring (160 * (i / 160) + a)
                                          (160 * (i / 160) + b) text) = 0)
        by now rewrite Es.
      unfold substring in L. rewrite length_firstn, length_skipn in L. lia.
    + cbn [truthy]. now left.
Qed.

Section Chunking.

Variable ops : Num.Ops.
Variable toLowerCase : jsstring -> jsstring.
Variable model : option (jsstring -> option (list (Num.num ops))).

Local Abbreviation build productId :=
  (fun '(type, content, chunkIndex, metadata) =>
     mkChunk ops productId type content chunkIndex metadata
       (generateEmbedding ops toLowerCase model content)).

Lemma stamped context productId c :
  In c (chunkProductInfo ops toLowerCase model context productId) ->
  RAG.productId ops c = productId
  /\ embedding ops c = generateEmbedding ops toLowerCase model (content ops c).
Proof.
  unfold chunkProductInfo. intros H. apply in_map_iff in H.
  destruct H as ([[[t ct] ci] md] & <- & _). cbn. auto.
Qed.

Lemma pieces_length text : forall ks,
  List.length (flat_map (piece text) ks) <= List.length ks.
Proof.
  induction ks as [| k ks IH]; cbn [flat_map List.length]; auto.
  rewrite length_app. unfold piece at 1. destruct (truthy _); cbn [List.length]; lia.
Qed.

Lemma indexed_length {A : Type} (l : list A) : forall n,
  List.length (indexed n l) = List.length l.
Proof. induction l as [| a l IH]; intros n; cbn; auto. Qed.

Lemma descriptionChunks_length context :
  List.length (descriptionChunks context) <= Nat.max 1 (windowCount (fullText context)).
Proof.
  unfold descriptionChunks.
  destruct (truthy (fullText context) && _).
  - rewrite length_map, indexed_length, ChunkFacts.splitIntoChunks_windows.
    etransitivity; [apply pieces_length |]. rewrite length_seq. lia.
  - destruct (truthy _); cbn [List.length]; lia.
Qed.

Lemma ofType_parts t context productId :
  ofType ops t (chunkProductInfo ops toLowerCase model context productId)
  = ofType ops t (map (build productId) (titleBrandChunk context))
    ++ ofType ops t (map (build productId) (attributesChunk context))
    ++ ofType ops t (map (build productId) (descriptionChunks context)).
Proof.
  unfold ofType, chunkProductInfo. now rewrite !map_app, !filter_app.
Qed.

Lemma no_description_of_other_type t context productId :
  t <> description ->
  ofType ops t (map (build productId) (descriptionChunks context)) = [].
Proof.
  intros Ht. unfold ofType, descriptionChunks.
  destruct (truthy (fullText context) && _).
  - generalize (indexed 0 (splitIntoChunks (fullText context) chunkSize)).
    induction l as [| [n ch] l IH]; cbn; auto.
    destruct t; try congruence; cbn; exact IH.
  - destruct (truthy _); cbn; auto. destruct t; try congruence; reflexivity.
Qed.

End Chunking.

End ChunkMore.

Module ChunkExtras.

Import RAG Notions RetrievalNotions.

Local Open Scope nat_scope.

(** X16.  Every chunk [chunkProductInfo] returns carries the product id it
    was given and the embedding of its own content.  There is at most one
    [title_brand] chunk and at most one [attributes] chunk, and there are at
    most two chunks more than windows of the text.  A non-empty text of at
    most 200 code units gives one description chunk, the text as it is. *)
Theorem X16_chunks_of_a_product
    (ops : Num.Ops) (toLowerCase : jsstring -> jsstring)
    (model : option (jsstring -> option (list (Num.num ops))))
    (context : ProductContext) (productId : jsstring) :
  let chunks := chunkProductInfo ops toLowerCase model context productId in
  Forall (fun c =>
            RAG.productId ops c = productId
            /\ embedding ops c = generateEmbedding ops toLowerCase model (content ops c))
         chunks
  /\ List.length (ofType ops title_brand chunks) <= 1
  /\ List.length (ofType ops attributes chunks) <= 1
  /\ List.length chunks <= 2 + Nat.max 1 (windowCount (fullText context))
  /\ (fullText context <> [] -> List.length (fullText context) <= chunkSize ->
      descriptionTexts ops chunks = [fullText context]).
Proof.
  intros chunks. subst chunks. repeat split.
  - apply Forall_forall. intros c Hc.
    now apply (ChunkMore.stamped ops toLowerCase model context productId).
  - rewrite ChunkMore.ofType_parts.
    rewrite ChunkMore.no_description_of_other_type by discriminate.
    unfold titleBrandChunk, attributesChunk.
    destruct (_ || _), (_ <? _); cbn; lia.
  - rewrite ChunkMore.ofType_parts.
    rewrite ChunkMore.no_description_of_other_type by discriminate.
    unfold titleBrandChunk, attributesChunk.
    destruct (_ || _), (_ <? _); cbn; lia.
  - unfold chunkProductInfo. rewrite length_map, !length_app.
    pose proof (ChunkMore.descriptionChunks_length context).
    unfold titleBrandChunk, attributesChunk.
    destruct (_ || _), (_ <? _); cbn [List.length]; lia.
  - intros Hne Hlen. rewrite ChunkFacts.description_texts.
    replace (chunkSize <? List.length (fullText context)) with false
      by (symmetry; apply Nat.ltb_ge; exact Hlen).
    rewrite andb_false_r. destruct (fullText context); [congruence | reflexivity].
Qed.

Lemma X16_witness :
  descriptionTexts Num.Double
    (chunkProductInfo Num.Double asciiLower None
       (mkContext (lit "Runner") [] [] [] (lit "runner") [] [] [] (lit "unisex")
          (lit "Nike Runner white")) (lit "1"))
  = [lit "Nike Runner white"].
Proof.
  apply (X16_chunks_of_a_product Num.Double asciiLower None
           (mkContext (lit "Runner") [] [] [] (lit "runner") [] [] [] (lit "unisex")
              (lit "Nike Runner white")) (lit "1")).
  - discriminate.
  - vm_compute. lia.
Defined.

(** X17.  [splitIntoChunks] loses no text: every non-blank code unit of the
    text lies in a chunk, a substring of the text that covers its
    position. *)
Theorem X17_no_text_lost (text : jsstring) (i : nat) (c : N) :
  nth_error text i = Some c -> isSpace c = false ->
  exists a b, a <= i /\ i < b /\ In (substring a b text) (splitIntoChunks text chunkSize).
Proof. apply ChunkMore.coverage. Qed.

Lemma X17_witness :
  exists a b, a <= 325 /\ 325 < b
              /\ In (substring a b (repeat 97%N 330))
                    (splitIntoChunks (repeat 97%N 330) chunkSize).
Proof.
  apply (X17_no_text_lost (repeat 97%N 330) 325 97%N); reflexivity.
Defined.

End ChunkExtras.

(** ** The evaluator *)

Module EvaluatorFacts.

Import Evaluator PageNotions Semantics.

Local Open Scope nat_scope.

Lemma sliceLast_length {A : Type} n (l : list A) :
  List.length (sliceLast n l) = Nat.min n (List.length l).
Proof. unfold sliceLast. rewrite length_skipn. lia. Qed.

Lemma sliceLast_suffix {A : Type} n (l : list A) :
  firstn (List.length l - n) l ++ sliceLast n l = l.
Proof. unfold sliceLast. apply firstn_skipn. Qed.

Lemma sliceLast_snoc {A : Type} n (l : list A) d :
  0 < n -> exists front, sliceLast n (l ++ [d]) = front ++ [d].
Proof.
  intros Hn. unfold sliceLast. rewrite length_app. cbn [List.length].
  rewrite skipn_app.
  replace (List.length l + 1 - n - List.length l) with 0 by lia.
  cbn [skipn]. eauto.
Qed.

Section WithHost.

Variable toLowerCase : jsstring -> jsstring.

Lemma countWord_invariant c m w :
  free isSpace w = true -> countsInvariant m ->
  countsInvariant (countWord c m w).
Proof.
  intros Hw [Hnd Hm]. unfold countWord.
  destruct (2 <? List.length w) eqn:El; [| split; assumption].
  apply Nat.ltb_lt in El. split.
  - destruct (RAG.lookup w m) as [s |] eqn:E.
    + rewrite DedupFacts.assign_present_keys; auto.
      eapply DedupFacts.lookup_Some; eassumption.
    + apply DedupFacts.lookup_None in E.
      rewrite DedupFacts.assign_absent by assumption.
      rewrite map_app. cbn [map fst].
      apply NoDup_app; auto.
      * repeat constructor. intros [].
      * intros x Hx [<- | []]. contradiction.
  - intros w' st Hin. apply DedupFacts.assign_In in Hin.
    destruct Hin as [Heq | Hin]; [| now apply (Hm w' st)].
    injection Heq as -> ->. cbn [total correct].
    repeat split; auto; try lia.
    destruct (RAG.lookup w m) as [s |] eqn:E.
    + apply GenerationMore.lookup_In in E. apply Hm in E.
      destruct c; lia.
    + cbn. destruct c; lia.
Qed.

Lemma countItem_invariant m item :
  countsInvariant m -> countsInvariant (countItem toLowerCase m item).
Proof.
  intros H. unfold countItem.
  pose proof (MatcherFacts.split_free false isSpace (toLowerCase (fb_userPrompt item))) as F.
  revert m H. induction F as [| w ws Hw _ IH]; intros m H; cbn [fold_left]; auto.
  apply IH. now apply countWord_invariant.
Qed.

Lemma counts_invariant feedbackData : forall m,
  countsInvariant m -> countsInvariant (fold_left (countItem toLowerCase) feedbackData m).
Proof.
  induction feedbackData as [| item l IH]; intros m H; cbn [fold_left]; auto.
  apply IH. now apply countItem_invariant.
Qed.

End WithHost.

End EvaluatorFacts.

Module EvaluatorExtras.

Import Evaluator PageNotions Semantics.

Local Open Scope Q_scope.

(** X18.  [calculateAccuracy] returns a share between 0 and 1, and 0 when
    there is no feedback: it never divides by zero. *)
Theorem X18_accuracy_is_a_share (feedbackData : list Feedback) :
  0 <= calculateAccuracy feedbackData <= 1 /\ calculateAccuracy [] = 0.
Proof.
  split; [| reflexivity]. unfold calculateAccuracy.
  destruct (0 <? List.length feedbackData)%nat eqn:E; [| split; discriminate].
  apply Nat.ltb_lt in E. split; [apply ScorerFacts.ratio_nonneg |].
  apply ScorerFacts.ratio_le_1; [apply filter_length_le | exact E].
Qed.

(** X19.  [recordPerformanceMetric] keeps the buffer bounded: whatever it
    held before, it holds at most 100 entries afterwards, the new entry
    last, and what it holds is the end of the old buffer with the new
    entry. *)
Theorem X19_performance_buffer_bounded (A : Type) (performanceData : list A) (data : A) :
  (List.length (recordPerformanceMetric performanceData data) <= 100)%nat
  /\ (exists front, recordPerformanceMetric performanceData data = front ++ [data])
  /\ (exists dropped,
        performanceData ++ [data]
        = dropped ++ recordPerformanceMetric performanceData data).
Proof.
  unfold recordPerformanceMetric.
  destruct (100 <? List.length (performanceData ++ [data]))%nat eqn:E.
  - repeat split.
    + rewrite EvaluatorFacts.sliceLast_length. lia.
    + apply EvaluatorFacts.sliceLast_snoc. lia.
    + eexists. symmetry. apply EvaluatorFacts.sliceLast_suffix.
  - apply Nat.ltb_ge in E. repeat split; auto.
    + eauto.
    + exists []. reflexivity.
Qed.

(** X20.  [analyzeKeywords] reports every word once; each reported word is
    longer than two code units and holds no white space, was used at least
    once and has an accuracy between 0 and 1; and the reports come in
    descending order of accuracy. *)
Theorem X20_keyword_reports
    (toLowerCase : jsstring -> jsstring) (feedbackData : list Feedback) :
  NoDup (map word (analyzeKeywords toLowerCase feedbackData))
  /\ Forall (fun r =>
       (2 < List.length (word r))%nat /\ free isSpace (word r) = true
       /\ (1 <= usage r)%nat /\ 0 <= accuracy r <= 1)
       (analyzeKeywords toLowerCase feedbackData)
  /\ byAccuracy (analyzeKeywords toLowerCase feedbackData).
Proof.
  unfold analyzeKeywords.
  destruct (EvaluatorFacts.counts_invariant toLowerCase feedbackData [])
    as [Hnd Hm]; [split; [constructor | intros w st []] |].
  set (m := fold_left (countItem toLowerCase) feedbackData []) in *.
  set (reports := map _ m).
  assert (P : Permutation reports (RAG.sortBy
                (fun a b => negb (Qle_bool (accuracy b) (accuracy a))) reports))
    by apply SortFacts.sortBy_perm.
  repeat split.
  - eapply Permutation_NoDup; [apply Permutation_map; exact P |].
    unfold reports. rewrite map_map.
    replace (map (fun x => word (let '(w, stats) := x in _)) m) with (map fst m);
      [exact Hnd |].
    apply map_ext. intros [w st]. reflexivity.
  - apply Forall_forall. intros r Hr.
    apply (Permutation_in _ (Permutation_sym P)) in Hr.
    unfold reports in Hr. apply in_map_iff in Hr. destruct Hr as ([w st] & <- & Hin).
    destruct (Hm w st Hin) as (Hl & Hf & Ht & Hc). cbn [word usage accuracy].
    repeat split; auto.
    + apply ScorerFacts.ratio_nonneg.
    + apply ScorerFacts.ratio_le_1; lia.
  - unfold byAccuracy. apply SortFacts.sortBy_sorted.
    + intros x y z Hxy Hyz. eapply Qle_trans; eassumption.
    + intros x y H. apply negb_true_iff in H.
      destruct (Qlt_le_dec (accuracy x) (accuracy y)) as [L | L].
      * now apply Qlt_le_weak.
      * apply Qle_bool_iff in L. congruence.
    + intros x y H. apply negb_false_iff in H. now apply Qle_bool_iff.
Qed.

End EvaluatorExtras.

(** ** The page *)

Module PageFacts.

Import Page PageNotions Semantics.

Local Open Scope nat_scope.

Lemma eqs_refl a : eqs a a = true.
Proof. now apply DedupFacts.eqs_true. Qed.

Lemma contains_In cl x : contains cl x = true <-> In x cl.
Proof.
  unfold contains. rewrite existsb_exists. split.
  - intros (y & Hy & E). apply DedupFacts.eqs_true in E. now subst.
  - intros H. exists x. split; [assumption | apply eqs_refl].
Qed.

Lemma contains_false cl x : contains cl x = false <-> ~ In x cl.
Proof.
  rewrite <- contains_In. destruct (contains cl x); split; intros H; congruence.
Qed.

Lemma addToken_In cl t x : In x (addToken cl t) <-> In x cl \/ x = t.
Proof.
  unfold addToken. destruct (contains cl t) eqn:E.
  - apply contains_In in E. split; [auto | intros [H | ->]; auto].
  - rewrite in_app_iff. cbn. intuition.
Qed.

Lemma add_In ts : forall cl x, In x (add cl ts) <-> In x cl \/ In x ts.
Proof.
  unfold add. induction ts as [| t ts IH]; intros cl x; cbn [fold_left In].
  - tauto.
  - rewrite IH, addToken_In. intuition.
Qed.

Lemma remove_In cl ts x : In x (remove cl ts) <-> In x cl /\ ~ In x ts.
Proof.
  unfold remove. rewrite filter_In, negb_true_iff, contains_false. tauto.
Qed.

(** Adding tokens that are not there appends them. *)
Lemma add_fresh ts : forall cl,
  NoDup ts -> (forall t, In t ts -> ~ In t cl) -> add cl ts = cl ++ ts.
Proof.
  unfold add. induction ts as [| t ts IH]; intros cl Hnd H; cbn [fold_left].
  - now rewrite app_nil_r.
  - inversion Hnd; subst.
    unfold addToken at 2.
    replace (contains cl t) with false
      by (symmetry; apply contains_false; apply H; now left).
    rewrite IH; auto.
    + now rewrite <- app_assoc.
    + intros t' Ht' Hin. apply in_app_or in Hin. destruct Hin as [Hin | [<- | []]].
      * apply (H t'); [now right | assumption].
      * contradiction.
Qed.




Lemma filter_none {A : Type} (f : A -> bool) l :
  (forall x, In x l -> f x = false) -> filter f l = [].
Proof.
  induction l as [| a l IH]; intros H; cbn; auto.
  rewrite (H a (or_introl eq_refl)). apply IH. intros x Hx. apply H. now right.
Qed.

(** After [remove], none of the removed classes is left. *)
Lemma highlights_removed cl :
  filter (contains highlightClasses) (remove cl highlightClasses) = [].
Proof.
  apply filter_none. intros x Hx. apply remove_In in Hx.
  apply contains_false. tauto.
Qed.


(** Linear facts about rationals, by way of the reals. *)
Ltac qlinear :=
  repeat match goal with
  | H : (_ <= _)%Q |- _ => apply Qle_Rle in H
  | H : (_ < _)%Q |- _ => apply Qlt_Rlt in H
  end;
  try apply Rle_Qle; try apply Rlt_Qlt;
  rewrite ?Q2R_plus, ?Q2R_minus in *;
  unfold Q2R in *; cbn [Qnum Qden] in *; lra.

Lemma threshold_band (b : Q) :
  (2 # 10 <= b)%Q -> (b <= 8 # 10)%Q ->
  (b - (1 # 10) <= 8 # 10)%Q /\ (2 # 10 <= b + (1 # 10))%Q
  /\ (b - (1 # 10) <= b + (1 # 10))%Q /\ (b - (1 # 10) <= b)%Q /\ (b <= b + (1 # 10))%Q.
Proof.
  intros Hlo Hhi. repeat split; auto; qlinear.
Qed.

(** The signatures recorded by [newProductsOf]. *)
Lemma setAdd_In set v x : In x (setAdd set v) <-> In x set \/ x = v.
Proof. apply addToken_In. Qed.

Lemma noteProduct_spec news processed p :
  let st := noteProduct (news, processed) p in
  (forall x, In x (snd st) <-> In x processed \/ x = getProductSignature p)
  /\ (In (getProductSignature p) processed -> st = (news, processed))
  /\ (~ In (getProductSignature p) processed ->
      st = (news ++ [p], processed ++ [getProductSignature p])).
Proof.
  cbv zeta. unfold noteProduct.
  destruct (contains processed (getProductSignature p)) eqn:E; cbn [negb snd].
  - apply contains_In in E. repeat split; auto.
    + intros [H | ->]; auto.
    + intros H. contradiction.
  - apply contains_false in E. repeat split.
    + now apply setAdd_In.
    + now apply setAdd_In.
    + intros H. contradiction.
    + intros _. unfold setAdd, addToken.
      replace (contains processed (getProductSignature p)) with false
        by (symmetry; now apply contains_false).
      reflexivity.
Qed.

Lemma newProducts_fold ps : forall news processed,
  let st := fold_left noteProduct ps (news, processed) in
  (forall x, In x (snd st) <-> In x processed \/ In x (map getProductSignature ps))
  /\ (exists added,
        fst st = news ++ added
        /\ NoDup (map getProductSignature added)
        /\ (forall p, In p added ->
              In p ps /\ ~ In (getProductSignature p) processed)).
Proof.
  induction ps as [| p ps IH]; intros news processed; cbn [fold_left map In].
  - cbn. split; [tauto |]. exists []. rewrite app_nil_r.
    split; [reflexivity |]. split; [constructor |]. intros p [].
  - destruct (noteProduct_spec news processed p) as (Hset & Hold & Hnew).
    cbv zeta in *.
    destruct (in_dec (list_eq_dec N.eq_dec) (getProductSignature p) processed) as [Hin | Hin].
    + rewrite (Hold Hin) in *.
      destruct (IH news processed) as [Hs (added & E & Hnd & Ha)]. cbv zeta in *.
      split.
      * intros x. rewrite Hs. split; [tauto |].
        intros [H | [<- | H]]; auto.
      * exists added. repeat split; auto.
        -- right. now apply Ha.
        -- now apply Ha.
    + rewrite (Hnew Hin) in *.
      destruct (IH (news ++ [p]) (processed ++ [getProductSignature p]))
        as [Hs (added & E & Hnd & Ha)]. cbv zeta in *.
      split.
      * intros x. rewrite Hs, in_app_iff. cbn [In]. tauto.
      * exists (p :: added). rewrite E, <- app_assoc. cbn [app map].
        repeat split; auto.
        -- constructor; auto. intros Hp. apply in_map_iff in Hp.
           destruct Hp as (q & Eq & Hq). destruct (Ha q Hq) as [_ Hn].
           apply Hn. rewrite Eq. apply in_app_iff. right. now left.
        -- destruct H as [<- | H]; [now left | right; now apply Ha].
        -- destruct H as [<- | H]; [assumption |].
           destruct (Ha p0 H) as [_ Hn]. intros Hp. apply Hn.
           apply in_app_iff. now left.
Qed.

End PageFacts.

Module PageExtras.

Import Page PageNotions Semantics.

Local Open Scope Q_scope.

(** X21.  [highlightElement] preserves existing highlights: the element it
    returns carries the class [modern-badge], and an element that carries
    it is returned as it is, so a second call changes nothing.  An element
    without the badge gets exactly one of the three highlight classes and
    the badge, after its other classes. *)
Theorem X21_first_highlight_stays
    (toFixed : nat -> Q -> jsstring) (element : Element) (options again : Options) :
  contains (classList (highlightElement toFixed element options)) (lit "modern-badge") = true
  /\ highlightElement toFixed (highlightElement toFixed element options) again
     = highlightElement toFixed element options
  /\ (contains (classList element) (lit "modern-badge") = false ->
      exists level,
        In level highlightClasses
        /\ classList (highlightElement toFixed element options)
           = remove (classList element) highlightClasses ++ [level; lit "modern-badge"]
        /\ highlightsOf (highlightElement toFixed element options) = [level]).
Proof.
  assert (Hbadge : contains (classList (highlightElement toFixed element options))
                     (lit "modern-badge") = true).
  { unfold highlightElement.
    destruct (contains (classList element) (lit "modern-badge")) eqn:E; [exact E |].
    cbn [classList]. apply PageFacts.contains_In, PageFacts.add_In.
    right. right. now left. }
  split; [exact Hbadge |]. split.
  - unfold highlightElement at 1. now rewrite Hbadge.
  - intros E. unfold highlightElement. rewrite E. cbn [classList].
    match goal with |- context [PageFacts.eqs_refl] => idtac | _ => idtac end.
    set (level := if geb _ (8 # 10) then _ else _).
    assert (Hlevel : In level highlightClasses).
    { subst level. destruct (geb _ (8 # 10)); [right; left; reflexivity |].
      destruct (geb _ (6 # 10)); [right; right; left; reflexivity | left; reflexivity]. }
    exists level. split; [exact Hlevel |].
    assert (Eadd : add (remove (classList element) highlightClasses)
                       [level; lit "modern-badge"]
                   = remove (classList element) highlightClasses
                     ++ [level; lit "modern-badge"]).
    { apply PageFacts.add_fresh.
      - constructor; [| repeat constructor; intros []].
        intros [H | []]. subst level.
        destruct (geb _ (8 # 10)); [discriminate |].
        destruct (geb _ (6 # 10)); discriminate.
      - intros t [<- | [<- | []]] Hin; apply PageFacts.remove_In in Hin.
        + tauto.
        + apply PageFacts.contains_false in E. tauto. }
    split; [exact Eadd |].
    unfold highlightsOf. cbn [classList]. rewrite Eadd, filter_app.
    rewrite PageFacts.highlights_removed. cbn [app filter].
    replace (contains highlightClasses level) with true
      by (symmetry; now apply PageFacts.contains_In).
    reflexivity.
Qed.

Lemma X21_witness :
  exists level,
    In level highlightClasses
    /\ classList (highlightElement noDigits (mkElement [lit "card"] [])
                    (mkOptions None (Some (9 # 10)) None))
       = remove [lit "card"] highlightClasses ++ [level; lit "modern-badge"]
    /\ highlightsOf (highlightElement noDigits (mkElement [lit "card"] [])
                       (mkOptions None (Some (9 # 10)) None)) = [level].
Proof.
  apply (X21_first_highlight_stays noDigits (mkElement [lit "card"] [])
           (mkOptions None (Some (9 # 10)) None) (mkOptions None None None)).
  reflexivity.
Defined.


(** X23.  [estimateProductConfidence] starts from 0.5 and only adds to it,
    and what it returns is cut at 1: the confidence of an element is a
    double from 0.5 to 1, whatever the element. *)
Theorem X23_confidence_estimate_range (element : Indicators) :
  PrimFloat.leb 0.5 (estimateProductConfidence element) = true
  /\ PrimFloat.leb (estimateProductConfidence element) 1 = true.
Proof.
  unfold estimateProductConfidence.
  destruct (test true priceIndicator (textContent element)),
           (test true productClass (className element)),
           (hasImg element), (hasLink element),
           (truthy (dataAsin element) || truthy (dataProductId element));
    split; vm_compute; reflexivity.
Qed.

(** X24.  [getAdjustedThreshold] moves the threshold by at most 0.1, and a
    threshold between 0.2 and 0.8 stays between 0.2 and 0.8. *)
Theorem X24_adjusted_threshold_band (threshold : Q) (userPrompt : jsstring) :
  2 # 10 <= threshold -> threshold <= 8 # 10 ->
  2 # 10 <= getAdjustedThreshold threshold userPrompt <= 8 # 10
  /\ threshold - (1 # 10) <= getAdjustedThreshold threshold userPrompt
     <= threshold + (1 # 10).
Proof.
  intros Hlo Hhi.
  destruct (PageFacts.threshold_band threshold Hlo Hhi) as (B1 & B2 & B3 & B4 & B5).
  unfold getAdjustedThreshold.
  destruct (isSentence userPrompt && _); [| destruct (negb _)].
  - repeat split.
    + apply Q.le_max_r.
    + apply Q.max_lub; [exact B1 | discriminate].
    + apply Q.le_max_l.
    + apply Q.max_lub; [exact B3 | exact B2].
  - repeat split.
    + apply Q.min_glb; [exact B2 | discriminate].
    + apply Q.le_min_r.
    + apply Q.min_glb; [exact B3 | exact B1].
    + apply Q.le_min_l.
  - repeat split; auto.
Qed.

Lemma X24_witness :
  2 # 10 <= getAdjustedThreshold (6 # 10) (lit "white sneakers") <= 8 # 10
  /\ (6 # 10) - (1 # 10) <= getAdjustedThreshold (6 # 10) (lit "white sneakers")
     <= (6 # 10) + (1 # 10).
Proof.
  apply (X24_adjusted_threshold_band (6 # 10) (lit "white sneakers")); discriminate.
Defined.

(** X25.  Every keyword [extractKeywordsFromSentence] returns is longer than
    two code units, holds no white space, is no stop word and is not a
    number.  Either all of them contain a product word, or there are at
    most three of them. *)
Theorem X25_sentence_keywords (toLowerCase : jsstring -> jsstring) (sentence : jsstring) :
  Forall (fun k =>
            (2 < List.length k)%nat /\ free isSpace k = true
            /\ Highlighter.member k stopWords = false
            /\ exists c, In c k /\ isDigit c = false)
         (extractKeywordsFromSentence toLowerCase sentence)
  /\ (Forall (fun k => test true productWord k = true)
        (extractKeywordsFromSentence toLowerCase sentence)
      \/ (List.length (extractKeywordsFromSentence toLowerCase sentence) <= 3)%nat).
Proof.
  assert (Hc : forall k, In k (candidateWords toLowerCase sentence) ->
            (2 < List.length k)%nat /\ free isSpace k = true
            /\ Highlighter.member k stopWords = false
            /\ exists c, In c k /\ isDigit c = false).
  { intros k H. unfold candidateWords in H.
    apply filter_In in H. destruct H as [H Hd].
    apply filter_In in H. destruct H as [H Hs].
    apply filter_In in H. destruct H as [H Hl].
    apply Nat.ltb_lt in Hl. apply negb_true_iff in Hs.
    pose proof (MatcherFacts.split_free false isSpace (toLowerCase sentence)) as F.
    rewrite Forall_forall in F.
    repeat split; auto.
    apply PriceMore.forallb_false_witness.
    destruct (forallb isDigit k) eqn:E; [| reflexivity].
    rewrite PriceMore.allDigits_complete in Hd; [discriminate | | assumption].
    destruct k; [cbn in Hl; lia | discriminate]. }
  unfold extractKeywordsFromSentence.
  destruct (0 <? List.length _)%nat; split.
  - apply Forall_forall. intros k Hk. apply filter_In in Hk. now apply Hc.
  - left. apply Forall_forall. intros k Hk. apply filter_In in Hk. tauto.
  - apply Forall_forall. intros k Hk. apply GenerationMore.firstn_In in Hk. now apply Hc.
  - right. rewrite length_firstn. apply Nat.le_min_l.
Qed.

(** X26.  The filter of [detectNewProducts] never takes a product twice:
    the products it reports as new have signatures that were not recorded
    before and differ from one another; afterwards the signature of every
    product on the page is recorded, and a second pass over the same page
    reports nothing new. *)
Theorem X26_new_products_once
    (currentProducts : list PageProduct) (processedProducts : list jsstring) :
  let newProducts := fst (newProductsOf currentProducts processedProducts) in
  let recorded := snd (newProductsOf currentProducts processedProducts) in
  NoDup (map getProductSignature newProducts)
  /\ (forall p, In p newProducts ->
        In p currentProducts /\ ~ In (getProductSignature p) processedProducts)
  /\ (forall s, In s recorded <->
        In s processedProducts \/ In s (map getProductSignature currentProducts))
  /\ fst (newProductsOf currentProducts recorded) = [].
Proof.
  cbv zeta. unfold newProductsOf.
  destruct (PageFacts.newProducts_fold currentProducts [] processedProducts)
    as [Hs (added & E & Hnd & Ha)]. cbv zeta in Hs, E. cbn [app] in E.
  rewrite E.
  split; [exact Hnd |].
  split; [exact Ha |].
  split; [exact Hs |].
  destruct (PageFacts.newProducts_fold currentProducts []
              (snd (fold_left noteProduct currentProducts ([], processedProducts))))
    as [_ (again & E' & _ & Ha')]. cbv zeta in E'. cbn [app] in E'.
  rewrite E'. destruct again as [| p again]; [reflexivity |].
  destruct (Ha' p (or_introl eq_refl)) as [Hin Hn]. exfalso. apply Hn.
  apply Hs. right. now apply in_map.
Qed.

Lemma X26_witness :
  In (mkPageProduct (lit "Runner") (lit "$80") (lit "Nike Runner white"))
     [mkPageProduct (lit "Runner") (lit "$80") (lit "Nike Runner white");
      mkPageProduct (lit "Runner") (lit "$80") (lit "Nike Runner white")]
  /\ ~ In (getProductSignature
             (mkPageProduct (lit "Runner") (lit "$80") (lit "Nike Runner white"))) [].
Proof.
  apply (proj1 (proj2 (X26_new_products_once
                         [mkPageProduct (lit "Runner") (lit "$80") (lit "Nike Runner white");
                          mkPageProduct (lit "Runner") (lit "$80") (lit "Nike Runner white")]
                         []))).
  vm_compute. left. reflexivity.
Defined.

End PageExtras.

(** ** Keywords without the language model *)

Module SearchFacts.

Import VectorSearch SearchNotions.

Local Open Scope nat_scope.

(** What one round of [words.forEach] adds to the result. *)
Lemma placeWord_spec r w :
  placeWord r w
  = mkKeywords
      (k_colors r ++ sel (Highlighter.member w (wordsOf colors)) w)
      (k_types r ++ sel (Highlighter.member w (wordsOf types)) w)
      (k_brands r ++ sel (Highlighter.member w (wordsOf brands)) w)
      (k_materials r ++ sel (Highlighter.member w (wordsOf materials)) w)
      (k_styles r ++ sel (Highlighter.member w (wordsOf styles)) w)
      (k_sizes r)
      (k_gender r ++ sel (Highlighter.member w (wordsOf gender)) w)
      (k_other r ++ sel (unknown w) w).
Proof.
  unfold placeWord, unknown.
  change (wordsOf colors) with (snd (nth 0 patterns (colors, []))).
  change (wordsOf types) with (snd (nth 1 patterns (colors, []))).
  change (wordsOf brands) with (snd (nth 2 patterns (colors, []))).
  change (wordsOf materials) with (snd (nth 3 patterns (colors, []))).
  change (wordsOf gender) with (snd (nth 4 patterns (colors, []))).
  change (wordsOf styles) with (snd (nth 5 patterns (colors, []))).
  unfold patterns. cbn [nth snd fold_left existsb].
  destruct r as [c t b m s z g o].
  repeat match goal with
  | |- context [matchCategory w (?r, ?f) (?k, ?l)] =>
      change (matchCategory w (r, f) (k, l))
        with (if Highlighter.member w l then (push r k w, true) else (r, f));
      let e := fresh "e" in destruct (Highlighter.member w l) eqn:e
  end;
    cbn [push sel negb orb pushOther k_colors k_types k_brands k_materials k_styles
         k_sizes k_gender k_other];
    rewrite ?app_nil_r; reflexivity.
Qed.

Lemma member_In w l : Highlighter.member w l = true -> In w l.
Proof.
  unfold Highlighter.member. intros H. apply existsb_exists in H.
  destruct H as (x & Hx & E). apply DedupFacts.eqs_true in E. now subst.
Qed.

(** A word is in the pattern list of at most one category. *)
Lemma exclusive w c1 c2 :
  c1 <> c2 -> Highlighter.member w (wordsOf c1) = true ->
  Highlighter.member w (wordsOf c2) = false.
Proof.
  intros Hne H. apply member_In in H.
  destruct c1, c2; try congruence;
    repeat (destruct H as [<- | H]; [vm_compute; reflexivity |]); destruct H.
Qed.

(** Every word goes to one list. *)
Lemma placeWord_size r w : size (placeWord r w) = S (size r).
Proof.
  rewrite placeWord_spec. unfold size, unknown, patterns.
  cbn [k_colors k_types k_brands k_materials k_styles k_sizes k_gender k_other
       existsb snd].
  pose proof (exclusive w) as X.
  rewrite !length_app.
  change (map lit ["white"; "black"; "red"; "blue"; "green"; "yellow"; "pink"; "purple";
                   "orange"; "brown"; "grey"; "gray"; "beige"; "navy"]%string)
    with (wordsOf colors).
  change (map lit ["sneaker"; "sneakers"; "shoe"; "shoes"; "boot"; "boots"; "sandal";
                   "sandals"; "heel"; "heels"; "trainer"; "trainers"]%string)
    with (wordsOf types).
  change (map lit ["nike"; "adidas"; "puma"; "converse"; "vans"; "reebok"; "jordan"]%string)
    with (wordsOf brands).
  change (map lit ["leather"; "cotton"; "denim"; "wool"; "canvas"]%string)
    with (wordsOf materials).
  change (map lit ["men"; "women"; "mens"; "womens"; "male"; "female"]%string)
    with (wordsOf gender).
  change (map lit ["casual"; "formal"; "sport"; "athletic"; "vintage"]%string)
    with (wordsOf styles).
  destruct (Highlighter.member w (wordsOf colors)) eqn:E1;
    [ rewrite ?(X colors types), ?(X colors brands), ?(X colors materials),
        ?(X colors gender), ?(X colors styles) by (congruence || assumption);
      cbn; lia |].
  destruct (Highlighter.member w (wordsOf types)) eqn:E2;
    [ rewrite ?(X types brands), ?(X types materials),
        ?(X types gender), ?(X types styles) by (congruence || assumption);
      cbn; lia |].
  destruct (Highlighter.member w (wordsOf brands)) eqn:E3;
    [ rewrite ?(X brands materials), ?(X brands gender), ?(X brands styles)
        by (congruence || assumption);
      cbn; lia |].
  destruct (Highlighter.member w (wordsOf materials)) eqn:E4;
    [ rewrite ?(X materials gender), ?(X materials styles)
        by (congruence || assumption);
      cbn; lia |].
  destruct (Highlighter.member w (wordsOf gender)) eqn:E5;
    [ rewrite ?(X gender styles) by (congruence || assumption); cbn; lia |].
  destruct (Highlighter.member w (wordsOf styles)) eqn:E6; cbn; lia.
Qed.

(** The lists of the result after all the words. *)
Lemma placeWords_spec ws : forall r,
  fold_left placeWord ws r
  = mkKeywords
      (k_colors r ++ ofCategory colors ws)
      (k_types r ++ ofCategory types ws)
      (k_brands r ++ ofCategory brands ws)
      (k_materials r ++ ofCategory materials ws)
      (k_styles r ++ ofCategory styles ws)
      (k_sizes r)
      (k_gender r ++ ofCategory gender ws)
      (k_other r ++ filter unknown ws).
Proof.
  induction ws as [| w ws IH]; intros r; cbn [fold_left].
  - unfold ofCategory. cbn [filter]. rewrite !app_nil_r. now destruct r.
  - rewrite IH, placeWord_spec. unfold ofCategory.
    cbn [filter k_colors k_types k_brands k_materials k_styles k_sizes k_gender k_other].
    unfold sel.
    f_equal; rewrite <- app_assoc; f_equal;
      match goal with |- context [if ?b then _ else _] => now destruct b end.
Qed.

Lemma placeWords_size ws : forall r,
  size (fold_left placeWord ws r) = size r + List.length ws.
Proof.
  induction ws as [| w ws IH]; intros r; cbn [fold_left List.length].
  - lia.
  - rewrite IH, placeWord_size. lia.
Qed.

End SearchFacts.

Module SearchExtras.

Import VectorSearch SearchNotions.

Local Open Scope nat_scope.

(** X27.  [fallbackKeywordExtraction] puts every word of the query that is
    longer than two code units in exactly one list, in the order of the
    query: the list of the category whose patterns hold the word, or
    [other] if none does.  The list [sizes] is always empty. *)
Theorem X27_every_word_in_one_list (toLowerCase : jsstring -> jsstring) (query : jsstring) :
  let words := RAG.featureWords (toLowerCase query) in
  let result := fallbackKeywordExtraction toLowerCase query in
  k_colors result = ofCategory colors words
  /\ k_types result = ofCategory types words
  /\ k_brands result = ofCategory brands words
  /\ k_materials result = ofCategory materials words
  /\ k_styles result = ofCategory styles words
  /\ k_gender result = ofCategory gender words
  /\ k_sizes result = []
  /\ k_other result = filter unknown words
  /\ size result = List.length words.
Proof.
  cbv zeta. unfold fallbackKeywordExtraction.
  rewrite SearchFacts.placeWords_size, SearchFacts.placeWords_spec.
  cbn [k_colors k_types k_brands k_materials k_styles k_sizes k_gender k_other app size
       List.length Nat.add].
  repeat split; reflexivity.
Qed.

End SearchExtras.

(** ** The overlap of two texts *)

Module OverlapFacts.

Import Highlighter Notions.

Local Open Scope nat_scope.

Lemma member_true w l : member w l = true <-> In w l.
Proof.
  unfold member. rewrite existsb_exists. split.
  - intros (x & Hx & E). apply DedupFacts.eqs_true in E. now subst.
  - intros H. exists w. split; [assumption | now apply DedupFacts.eqs_true].
Qed.

(** The words of [l1] that [l2] holds are among the distinct words of both. *)
Lemma common_length l1 l2 :
  NoDup l1 ->
  List.length (filter (fun w => member w l2) l1) <= distinctCount (l1 ++ l2).
Proof.
  intros Hnd. unfold distinctCount. apply NoDup_incl_length.
  - now apply NoDup_filter.
  - intros w Hw. apply filter_In in Hw. apply nodup_In, in_app_iff. tauto.
Qed.

(** Two lists without repetitions hold as many of each other's words. *)
Lemma common_swap l1 l2 :
  NoDup l1 -> NoDup l2 ->
  List.length (filter (fun w => member w l2) l1)
  = List.length (filter (fun w => member w l1) l2).
Proof.
  intros H1 H2. apply Permutation_length. apply NoDup_Permutation.
  - now apply NoDup_filter.
  - now apply NoDup_filter.
  - intros w. rewrite !filter_In, !member_true. tauto.
Qed.

Lemma distinct_swap l1 l2 : distinctCount (l1 ++ l2) = distinctCount (l2 ++ l1).
Proof.
  unfold distinctCount. apply Permutation_length. apply NoDup_Permutation.
  - apply NoDup_nodup.
  - apply NoDup_nodup.
  - intros w. rewrite !nodup_In, !in_app_iff. tauto.
Qed.

End OverlapFacts.

Module OverlapExtras.

Import Highlighter Notions.

Local Open Scope Q_scope.

(** X28.  [calculateSemanticSimilarity] counts the common words with their
    repetitions in the first text and divides by the number of distinct
    words of both texts.  When the first text repeats no word the result is
    at most 1, and when neither text repeats a word it is the same in both
    directions. *)
Theorem X28_word_overlap
    (toLowerCase : jsstring -> jsstring) (text1 text2 : jsstring) :
  NoDup (contentWords toLowerCase text1) ->
  calculateSemanticSimilarity toLowerCase text1 text2 <= 1
  /\ (NoDup (contentWords toLowerCase text2) ->
      calculateSemanticSimilarity toLowerCase text1 text2
      = calculateSemanticSimilarity toLowerCase text2 text1).
Proof.
  intros H1. unfold calculateSemanticSimilarity. split.
  - apply ScorerFacts.ratio_le_1; [| lia].
    pose proof (OverlapFacts.common_length _ (contentWords toLowerCase text2) H1). lia.
  - intros H2.
    rewrite (OverlapFacts.common_swap _ _ H1 H2).
    now rewrite (OverlapFacts.distinct_swap (contentWords toLowerCase text1)).
Qed.

Lemma X28_witness :
  calculateSemanticSimilarity asciiLower (lit "white sneakers") (lit "sneakers low") <= 1.
Proof.
  apply (X28_word_overlap asciiLower (lit "white sneakers") (lit "sneakers low")).
  vm_compute. repeat constructor; cbn; intuition discriminate.
Defined.

(** A word repeated in the first text counts each time. *)
Example repeated_word_counts_thrice :
  calculateSemanticSimilarity asciiLower (lit "shoe shoe shoe") (lit "shoe") == 3.
Proof. vm_compute. reflexivity. Qed.

End OverlapExtras.
